(** * The encryption pipeline of encrypt-driver.c

    Five stage threads (reader, input counter, encryptor, output counter,
    writer) hand bytes to each other through two circular buffers and a set
    of POSIX semaphores; a reset may be requested from outside at any time.

    The program is embedded as an interleaving semantics: every C statement
    that touches shared memory or a semaphore is one atomic step of its
    thread, a thread blocked in [sem_wait] or [pthread_mutex_lock] has no
    step, and a schedule is the list of threads that step, in order. *)

From Stdlib Require Import ZArith List Bool Lia String.
Import ListNotations.
Open Scope Z_scope.

(** ** Characters

    Every thread keeps the byte it works on in a [char c] and the buffers are
    [char] arrays.  [read_input] and [encrypt] return an [int]; the
    assignment to a [char] converts it.  [char] is the signed 8-bit type of
    the platform the driver is written for (with an unsigned [char] the test
    [c != EOF] could never fail). *)

Definition EOF : Z := -1.

Definition to_char (z : Z) : Z := (z + 128) mod 256 - 128.

(** ** Shared objects *)

(** The thirteen semaphores, all created with value 0 by [main]. *)
Inductive sem : Type :=
| reader_data_ready | counter_data_ready | encryptor_data_ready
| output_counter_data_ready | writer_data_ready
| counter_done | encryptor_done | output_counter_done | writer_done
| counter_reset_ready | encryptor_reset_ready
| output_counter_reset_ready | writer_reset_ready.

Definition sem_id (x : sem) : nat :=
  match x with
  | reader_data_ready => 0 | counter_data_ready => 1
  | encryptor_data_ready => 2 | output_counter_data_ready => 3
  | writer_data_ready => 4 | counter_done => 5 | encryptor_done => 6
  | output_counter_done => 7 | writer_done => 8
  | counter_reset_ready => 9 | encryptor_reset_ready => 10
  | output_counter_reset_ready => 11 | writer_reset_ready => 12
  end%nat.

(** The [int] globals of the driver. *)
Inductive var : Type :=
| input_count | output_count
| n | m
| input_buffer_in | input_buffer_out
| output_buffer_in | output_buffer_out.

Definition var_id (v : var) : nat :=
  match v with
  | input_count => 0 | output_count => 1 | n => 2 | m => 3
  | input_buffer_in => 4 | input_buffer_out => 5
  | output_buffer_in => 6 | output_buffer_out => 7
  end%nat.

(** The two [char] arrays. *)
Inductive buf : Type := input_buffer | output_buffer.

Definition buf_id (b : buf) : nat :=
  match b with input_buffer => 0 | output_buffer => 1 end%nat.

(** The five stage threads, and the context that requests resets. *)
Inductive tid : Type :=
| TReader | TCounter | TEncryptor | TOutputCounter | TWriter | TReset.

Definition tid_id (t : tid) : nat :=
  match t with
  | TReader => 0 | TCounter => 1 | TEncryptor => 2
  | TOutputCounter => 3 | TWriter => 4 | TReset => 5
  end%nat.

(** A store indexed by an enumeration. *)
Definition upd {K V : Type} (id : K -> nat) (k : K) (v : V) (f : K -> V)
  : K -> V :=
  fun k' => if Nat.eqb (id k) (id k') then v else f k'.

(** Writing one cell of an array; a write outside the array is dropped by the
    model (the driver never performs one, see [cursors_in_range]). *)
Fixpoint poke (i : nat) (c : Z) (l : list Z) : list Z :=
  match l, i with
  | [], _ => []
  | _ :: t, O => c :: t
  | h :: t, S j => h :: poke j c t
  end.

Definition peek (i : Z) (l : list Z) : Z := nth (Z.to_nat i) l 0.

(** ** Program points *)

Inductive reader_pc : Type :=
| R_lock | R_read | R_store | R_advance
| R_post_counter | R_post_encryptor
| R_wait_counter | R_wait_encryptor | R_unlock
| R_last_post_counter | R_last_post_encryptor | R_return.

Inductive counter_pc : Type :=
| C_wait | C_load | C_post_done | C_post_reset | C_count | C_return.

Inductive encryptor_pc : Type :=
| E_wait | E_load | E_advance | E_post_done
| E_store | E_advance_out | E_post_counter | E_post_writer
| E_post_reset | E_wait_counter | E_wait_writer
| E_eof_store | E_eof_advance | E_eof_post_counter | E_eof_post_writer
| E_return.

Inductive ocounter_pc : Type :=
| O_wait | O_load | O_count | O_post_done | O_post_reset | O_return.

Inductive writer_pc : Type :=
| W_wait | W_load | W_advance | W_write | W_post_done | W_post_reset
| W_return.

Inductive reset_pc : Type :=
| X_idle
| X_wait_counter | X_wait_encryptor | X_wait_output_counter | X_wait_writer
| X_zero_input_in | X_zero_input_out | X_zero_output_in | X_zero_output_out
| X_zero_input_count | X_zero_output_count
| X_log | X_finished.

(** ** State *)

Record state : Type := mkState {
  vars : var -> Z;                (* the int globals *)
  bufs : buf -> list Z;           (* contents of the two arrays *)
  sems : sem -> nat;              (* semaphore values *)
  reader_lock : bool;             (* true when the mutex is held *)
  source : list Z;                (* bytes of the input file not yet read *)
  sink : list Z;                  (* characters written to the output file *)
  flushes : nat;                  (* calls of log_counts so far *)
  (* the local [char c] of each stage *)
  c_reader : Z; c_counter : Z; c_encryptor : Z;
  c_ocounter : Z; c_writer : Z;
  (* program counters *)
  pc_reader : reader_pc; pc_counter : counter_pc;
  pc_encryptor : encryptor_pc; pc_ocounter : ocounter_pc;
  pc_writer : writer_pc; pc_reset : reset_pc
}.

Definition set_vars f s :=
  mkState f (bufs s) (sems s) (reader_lock s) (source s) (sink s) (flushes s)
    (c_reader s) (c_counter s) (c_encryptor s) (c_ocounter s) (c_writer s)
    (pc_reader s) (pc_counter s) (pc_encryptor s) (pc_ocounter s)
    (pc_writer s) (pc_reset s).
Definition set_bufs f s :=
  mkState (vars s) f (sems s) (reader_lock s) (source s) (sink s) (flushes s)
    (c_reader s) (c_counter s) (c_encryptor s) (c_ocounter s) (c_writer s)
    (pc_reader s) (pc_counter s) (pc_encryptor s) (pc_ocounter s)
    (pc_writer s) (pc_reset s).
Definition set_sems f s :=
  mkState (vars s) (bufs s) f (reader_lock s) (source s) (sink s) (flushes s)
    (c_reader s) (c_counter s) (c_encryptor s) (c_ocounter s) (c_writer s)
    (pc_reader s) (pc_counter s) (pc_encryptor s) (pc_ocounter s)
    (pc_writer s) (pc_reset s).
Definition set_lock b s :=
  mkState (vars s) (bufs s) (sems s) b (source s) (sink s) (flushes s)
    (c_reader s) (c_counter s) (c_encryptor s) (c_ocounter s) (c_writer s)
    (pc_reader s) (pc_counter s) (pc_encryptor s) (pc_ocounter s)
    (pc_writer s) (pc_reset s).
Definition set_source l s :=
  mkState (vars s) (bufs s) (sems s) (reader_lock s) l (sink s) (flushes s)
    (c_reader s) (c_counter s) (c_encryptor s) (c_ocounter s) (c_writer s)
    (pc_reader s) (pc_counter s) (pc_encryptor s) (pc_ocounter s)
    (pc_writer s) (pc_reset s).
Definition set_sink l s :=
  mkState (vars s) (bufs s) (sems s) (reader_lock s) (source s) l (flushes s)
    (c_reader s) (c_counter s) (c_encryptor s) (c_ocounter s) (c_writer s)
    (pc_reader s) (pc_counter s) (pc_encryptor s) (pc_ocounter s)
    (pc_writer s) (pc_reset s).
Definition set_flushes k s :=
  mkState (vars s) (bufs s) (sems s) (reader_lock s) (source s) (sink s) k
    (c_reader s) (c_counter s) (c_encryptor s) (c_ocounter s) (c_writer s)
    (pc_reader s) (pc_counter s) (pc_encryptor s) (pc_ocounter s)
    (pc_writer s) (pc_reset s).
Definition set_c_reader c s :=
  mkState (vars s) (bufs s) (sems s) (reader_lock s) (source s) (sink s)
    (flushes s)
    c (c_counter s) (c_encryptor s) (c_ocounter s) (c_writer s)
    (pc_reader s) (pc_counter s) (pc_encryptor s) (pc_ocounter s)
    (pc_writer s) (pc_reset s).
Definition set_c_counter c s :=
  mkState (vars s) (bufs s) (sems s) (reader_lock s) (source s) (sink s)
    (flushes s)
    (c_reader s) c (c_encryptor s) (c_ocounter s) (c_writer s)
    (pc_reader s) (pc_counter s) (pc_encryptor s) (pc_ocounter s)
    (pc_writer s) (pc_reset s).
Definition set_c_encryptor c s :=
  mkState (vars s) (bufs s) (sems s) (reader_lock s) (source s) (sink s)
    (flushes s)
    (c_reader s) (c_counter s) c (c_ocounter s) (c_writer s)
    (pc_reader s) (pc_counter s) (pc_encryptor s) (pc_ocounter s)
    (pc_writer s) (pc_reset s).
Definition set_c_ocounter c s :=
  mkState (vars s) (bufs s) (sems s) (reader_lock s) (source s) (sink s)
    (flushes s)
    (c_reader s) (c_counter s) (c_encryptor s) c (c_writer s)
    (pc_reader s) (pc_counter s) (pc_encryptor s) (pc_ocounter s)
    (pc_writer s) (pc_reset s).
Definition set_c_writer c s :=
  mkState (vars s) (bufs s) (sems s) (reader_lock s) (source s) (sink s)
    (flushes s)
    (c_reader s) (c_counter s) (c_encryptor s) (c_ocounter s) c
    (pc_reader s) (pc_counter s) (pc_encryptor s) (pc_ocounter s)
    (pc_writer s) (pc_reset s).
Definition set_pc_reader p s :=
  mkState (vars s) (bufs s) (sems s) (reader_lock s) (source s) (sink s)
    (flushes s)
    (c_reader s) (c_counter s) (c_encryptor s) (c_ocounter s) (c_writer s)
    p (pc_counter s) (pc_encryptor s) (pc_ocounter s)
    (pc_writer s) (pc_reset s).
Definition set_pc_counter p s :=
  mkState (vars s) (bufs s) (sems s) (reader_lock s) (source s) (sink s)
    (flushes s)
    (c_reader s) (c_counter s) (c_encryptor s) (c_ocounter s) (c_writer s)
    (pc_reader s) p (pc_encryptor s) (pc_ocounter s)
    (pc_writer s) (pc_reset s).
Definition set_pc_encryptor p s :=
  mkState (vars s) (bufs s) (sems s) (reader_lock s) (source s) (sink s)
    (flushes s)
    (c_reader s) (c_counter s) (c_encryptor s) (c_ocounter s) (c_writer s)
    (pc_reader s) (pc_counter s) p (pc_ocounter s)
    (pc_writer s) (pc_reset s).
Definition set_pc_ocounter p s :=
  mkState (vars s) (bufs s) (sems s) (reader_lock s) (source s) (sink s)
    (flushes s)
    (c_reader s) (c_counter s) (c_encryptor s) (c_ocounter s) (c_writer s)
    (pc_reader s) (pc_counter s) (pc_encryptor s) p
    (pc_writer s) (pc_reset s).
Definition set_pc_writer p s :=
  mkState (vars s) (bufs s) (sems s) (reader_lock s) (source s) (sink s)
    (flushes s)
    (c_reader s) (c_counter s) (c_encryptor s) (c_ocounter s) (c_writer s)
    (pc_reader s) (pc_counter s) (pc_encryptor s) (pc_ocounter s)
    p (pc_reset s).
Definition set_pc_reset p s :=
  mkState (vars s) (bufs s) (sems s) (reader_lock s) (source s) (sink s)
    (flushes s)
    (c_reader s) (c_counter s) (c_encryptor s) (c_ocounter s) (c_writer s)
    (pc_reader s) (pc_counter s) (pc_encryptor s) (pc_ocounter s)
    (pc_writer s) p.

(** ** Statements *)

(** What a step did, as seen from outside the thread. *)
Inductive action : Type :=
| Lock | Unlock
| SemWait (x : sem)
| SemPost (x : sem)
| Load (b : buf) (i c : Z)            (* c = b[i] *)
| Store (b : buf) (i c : Z)           (* b[i] = c *)
| Assign (v : var) (z : Z)            (* v = z *)
| CallReadInput (c : Z)               (* c = read_input() *)
| CallCountInput (c : Z)
| CallCountOutput (c : Z)
| CallWriteOutput (c : Z)
| CallLogCounts
| Skip.                               (* a test that skipped its branch *)

Definition assign (v : var) (z : Z) (s : state) : state :=
  set_vars (upd var_id v z (vars s)) s.

Definition store (b : buf) (i c : Z) (s : state) : state :=
  set_bufs (upd buf_id b (poke (Z.to_nat i) c (bufs s b)) (bufs s)) s.

Definition sem_post (x : sem) (s : state) : state :=
  set_sems (upd sem_id x (S (sems s x)) (sems s)) s.

(** [sem_wait] blocks while the value is 0. *)
Definition sem_wait (x : sem) (s : state) : option state :=
  match sems s x with
  | O => None
  | S k => Some (set_sems (upd sem_id x k (sems s)) s)
  end.

(** [pthread_mutex_lock] blocks while the mutex is held. *)
Definition mutex_lock (s : state) : option state :=
  if reader_lock s then None else Some (set_lock true s).

Definition mutex_unlock (s : state) : state := set_lock false s.

(** [(x + 1) % cap] on C ints. *)
Definition next (x cap : Z) : Z := Z.rem (x + 1) cap.

(** ** The collaborators of encrypt-module.h

    The module is linked in, not part of the driver.  Its functions are
    modelled at their interface. *)

(** Modelled from the spec: [read_input] of the missing encrypt module, the
    blocking read from the source; it gives the next byte of the input file
    (0..255), or [EOF] at the end of the file. *)
Definition read_input (s : state) : Z * state :=
  match source s with
  | [] => (EOF, s)
  | b :: rest => (b, set_source rest s)
  end.

(** Modelled from the spec: [count_input] of the missing encrypt module, the
    accumulation of one observed input byte into the input counter. *)
Definition count_input (c : Z) (s : state) : state :=
  assign input_count (vars s input_count + 1) s.

(** Modelled from the spec: [count_output] of the missing encrypt module,
    the accumulation of one observed output byte into the output counter. *)
Definition count_output (c : Z) (s : state) : state :=
  assign output_count (vars s output_count + 1) s.

(** Modelled from the spec: [write_output] of the missing encrypt module,
    the write of one character to the sink. *)
Definition write_output (c : Z) (s : state) : state :=
  set_sink (sink s ++ [c]) s.

(** Modelled from the spec: [log_counts] of the missing encrypt module, the
    flush of the counts to the log. *)
Definition log_counts (s : state) : state :=
  set_flushes (S (flushes s)) s.

(** ** The threads *)

Section Pipeline.

(** Modelled from the spec: [encrypt] of the missing encrypt module, a pure
    function of the character. *)
Variable encrypt : Z -> Z.

Definition step_result : Type := option (action * state).

(** Lines 51-76. *)
Definition readerThread (s : state) : step_result :=
  match pc_reader s with
  | R_lock =>
      match mutex_lock s with
      | Some s' => Some (Lock, set_pc_reader R_read s')
      | None => None
      end
  | R_read =>
      let (r, s') := read_input s in
      Some (CallReadInput r,
            set_pc_reader R_store (set_c_reader (to_char r) s'))
  | R_store =>
      let i := vars s input_buffer_in in
      Some (Store input_buffer i (c_reader s),
            set_pc_reader R_advance (store input_buffer i (c_reader s) s))
  | R_advance =>
      let z := next (vars s input_buffer_in) (vars s n) in
      Some (Assign input_buffer_in z,
            set_pc_reader R_post_counter (assign input_buffer_in z s))
  | R_post_counter =>
      Some (SemPost counter_data_ready,
            set_pc_reader R_post_encryptor (sem_post counter_data_ready s))
  | R_post_encryptor =>
      Some (SemPost encryptor_data_ready,
            set_pc_reader R_wait_counter (sem_post encryptor_data_ready s))
  | R_wait_counter =>
      match sem_wait counter_done s with
      | Some s' => Some (SemWait counter_done,
                         set_pc_reader R_wait_encryptor s')
      | None => None
      end
  | R_wait_encryptor =>
      match sem_wait encryptor_done s with
      | Some s' => Some (SemWait encryptor_done, set_pc_reader R_unlock s')
      | None => None
      end
  | R_unlock =>
      Some (Unlock,
            set_pc_reader
              (if c_reader s =? EOF then R_last_post_counter else R_lock)
              (mutex_unlock s))
  | R_last_post_counter =>
      Some (SemPost counter_data_ready,
            set_pc_reader R_last_post_encryptor
              (sem_post counter_data_ready s))
  | R_last_post_encryptor =>
      Some (SemPost encryptor_data_ready,
            set_pc_reader R_return (sem_post encryptor_data_ready s))
  | R_return => None
  end.

(** Lines 79-92. *)
Definition inputCounterThread (s : state) : step_result :=
  match pc_counter s with
  | C_wait =>
      match sem_wait counter_data_ready s with
      | Some s' => Some (SemWait counter_data_ready, set_pc_counter C_load s')
      | None => None
      end
  | C_load =>
      let i := vars s input_buffer_out in
      let c := peek i (bufs s input_buffer) in
      Some (Load input_buffer i c,
            set_pc_counter C_post_done (set_c_counter c s))
  | C_post_done =>
      Some (SemPost counter_done,
            set_pc_counter C_post_reset (sem_post counter_done s))
  | C_post_reset =>
      Some (SemPost counter_reset_ready,
            set_pc_counter C_count (sem_post counter_reset_ready s))
  | C_count =>
      if c_counter s =? EOF
      then Some (Skip, set_pc_counter C_return s)
      else Some (CallCountInput (c_counter s),
                 set_pc_counter C_wait (count_input (c_counter s) s))
  | C_return => None
  end.

(** Lines 95-126. *)
Definition encryptorThread (s : state) : step_result :=
  match pc_encryptor s with
  | E_wait =>
      match sem_wait encryptor_data_ready s with
      | Some s' => Some (SemWait encryptor_data_ready,
                         set_pc_encryptor E_load s')
      | None => None
      end
  | E_load =>
      let i := vars s input_buffer_out in
      let c := peek i (bufs s input_buffer) in
      Some (Load input_buffer i c,
            set_pc_encryptor E_advance (set_c_encryptor c s))
  | E_advance =>
      let z := next (vars s input_buffer_out) (vars s n) in
      Some (Assign input_buffer_out z,
            set_pc_encryptor E_post_done (assign input_buffer_out z s))
  | E_post_done =>
      Some (SemPost encryptor_done,
            set_pc_encryptor
              (if c_encryptor s =? EOF then E_post_reset else E_store)
              (sem_post encryptor_done s))
  | E_store =>
      let i := vars s output_buffer_in in
      let c := to_char (encrypt (c_encryptor s)) in
      Some (Store output_buffer i c,
            set_pc_encryptor E_advance_out (store output_buffer i c s))
  | E_advance_out =>
      let z := next (vars s output_buffer_in) (vars s m) in
      Some (Assign output_buffer_in z,
            set_pc_encryptor E_post_counter (assign output_buffer_in z s))
  | E_post_counter =>
      Some (SemPost output_counter_data_ready,
            set_pc_encryptor E_post_writer
              (sem_post output_counter_data_ready s))
  | E_post_writer =>
      Some (SemPost writer_data_ready,
            set_pc_encryptor E_post_reset (sem_post writer_data_ready s))
  | E_post_reset =>
      Some (SemPost encryptor_reset_ready,
            set_pc_encryptor
              (if c_encryptor s =? EOF then E_eof_store else E_wait_counter)
              (sem_post encryptor_reset_ready s))
  | E_wait_counter =>
      match sem_wait output_counter_done s with
      | Some s' => Some (SemWait output_counter_done,
                         set_pc_encryptor E_wait_writer s')
      | None => None
      end
  | E_wait_writer =>
      match sem_wait writer_done s with
      | Some s' =>
          Some (SemWait writer_done,
                set_pc_encryptor
                  (if c_encryptor s =? EOF then E_eof_store else E_wait) s')
      | None => None
      end
  | E_eof_store =>
      let i := vars s output_buffer_in in
      Some (Store output_buffer i EOF,
            set_pc_encryptor E_eof_advance (store output_buffer i EOF s))
  | E_eof_advance =>
      let z := next (vars s output_buffer_in) (vars s m) in
      Some (Assign output_buffer_in z,
            set_pc_encryptor E_eof_post_counter (assign output_buffer_in z s))
  | E_eof_post_counter =>
      Some (SemPost output_counter_data_ready,
            set_pc_encryptor E_eof_post_writer
              (sem_post output_counter_data_ready s))
  | E_eof_post_writer =>
      Some (SemPost writer_data_ready,
            set_pc_encryptor E_return (sem_post writer_data_ready s))
  | E_return => None
  end.

(** Lines 129-141. *)
Definition outputCounterThread (s : state) : step_result :=
  match pc_ocounter s with
  | O_wait =>
      match sem_wait output_counter_data_ready s with
      | Some s' => Some (SemWait output_counter_data_ready,
                         set_pc_ocounter O_load s')
      | None => None
      end
  | O_load =>
      let i := vars s output_buffer_out in
      let c := peek i (bufs s output_buffer) in
      Some (Load output_buffer i c,
            set_pc_ocounter O_count (set_c_ocounter c s))
  | O_count =>
      if c_ocounter s =? EOF
      then Some (Skip, set_pc_ocounter O_post_done s)
      else Some (CallCountOutput (c_ocounter s),
                 set_pc_ocounter O_post_done (count_output (c_ocounter s) s))
  | O_post_done =>
      Some (SemPost output_counter_done,
            set_pc_ocounter O_post_reset (sem_post output_counter_done s))
  | O_post_reset =>
      Some (SemPost output_counter_reset_ready,
            set_pc_ocounter
              (if c_ocounter s =? EOF then O_return else O_wait)
              (sem_post output_counter_reset_ready s))
  | O_return => None
  end.

(** Lines 144-158. *)
Definition writerThread (s : state) : step_result :=
  match pc_writer s with
  | W_wait =>
      match sem_wait writer_data_ready s with
      | Some s' => Some (SemWait writer_data_ready, set_pc_writer W_load s')
      | None => None
      end
  | W_load =>
      let i := vars s output_buffer_out in
      let c := peek i (bufs s output_buffer) in
      Some (Load output_buffer i c,
            set_pc_writer W_advance (set_c_writer c s))
  | W_advance =>
      let z := next (vars s output_buffer_out) (vars s m) in
      Some (Assign output_buffer_out z,
            set_pc_writer W_write (assign output_buffer_out z s))
  | W_write =>
      if c_writer s =? EOF
      then Some (Skip, set_pc_writer W_post_done s)
      else Some (CallWriteOutput (c_writer s),
                 set_pc_writer W_post_done (write_output (c_writer s) s))
  | W_post_done =>
      Some (SemPost writer_done,
            set_pc_writer W_post_reset (sem_post writer_done s))
  | W_post_reset =>
      Some (SemPost writer_reset_ready,
            set_pc_writer
              (if c_writer s =? EOF then W_return else W_wait)
              (sem_post writer_reset_ready s))
  | W_return => None
  end.

(** Lines 161-177, one statement per step; the caller is at [X_finished]
    when the function has returned. *)
Definition reset_requested (s : state) : step_result :=
  match pc_reset s with
  | X_idle =>
      match mutex_lock s with
      | Some s' => Some (Lock, set_pc_reset X_wait_counter s')
      | None => None
      end
  | X_wait_counter =>
      match sem_wait counter_reset_ready s with
      | Some s' => Some (SemWait counter_reset_ready,
                         set_pc_reset X_wait_encryptor s')
      | None => None
      end
  | X_wait_encryptor =>
      match sem_wait encryptor_reset_ready s with
      | Some s' => Some (SemWait encryptor_reset_ready,
                         set_pc_reset X_wait_output_counter s')
      | None => None
      end
  | X_wait_output_counter =>
      match sem_wait output_counter_reset_ready s with
      | Some s' => Some (SemWait output_counter_reset_ready,
                         set_pc_reset X_wait_writer s')
      | None => None
      end
  | X_wait_writer =>
      match sem_wait writer_reset_ready s with
      | Some s' => Some (SemWait writer_reset_ready,
                         set_pc_reset X_zero_input_in s')
      | None => None
      end
  | X_zero_input_in =>
      Some (Assign input_buffer_in 0,
            set_pc_reset X_zero_input_out (assign input_buffer_in 0 s))
  | X_zero_input_out =>
      Some (Assign input_buffer_out 0,
            set_pc_reset X_zero_output_in (assign input_buffer_out 0 s))
  | X_zero_output_in =>
      Some (Assign output_buffer_in 0,
            set_pc_reset X_zero_output_out (assign output_buffer_in 0 s))
  | X_zero_output_out =>
      Some (Assign output_buffer_out 0,
            set_pc_reset X_zero_input_count (assign output_buffer_out 0 s))
  | X_zero_input_count =>
      Some (Assign input_count 0,
            set_pc_reset X_zero_output_count (assign input_count 0 s))
  | X_zero_output_count =>
      Some (Assign output_count 0,
            set_pc_reset X_log (assign output_count 0 s))
  | X_log =>
      Some (CallLogCounts, set_pc_reset X_finished (log_counts s))
  | X_finished => None
  end.

(** Lines 180-182. *)
Definition reset_finished (s : state) : step_result :=
  match pc_reset s with
  | X_finished => Some (Unlock, set_pc_reset X_idle (mutex_unlock s))
  | _ => None
  end.

(** Modelled from the spec: the external trigger of the missing encrypt
    module, which calls [reset_requested] and then [reset_finished], any
    number of times and at any moment. *)
Definition resetThread (s : state) : step_result :=
  match pc_reset s with
  | X_finished => reset_finished s
  | _ => reset_requested s
  end.

(** One step of the thread the scheduler picks. *)
Definition step (t : tid) (s : state) : step_result :=
  match t with
  | TReader => readerThread s
  | TCounter => inputCounterThread s
  | TEncryptor => encryptorThread s
  | TOutputCounter => outputCounterThread s
  | TWriter => writerThread s
  | TReset => resetThread s
  end.

(** Running a schedule; [None] when the schedule picks a thread that is
    blocked or has returned.  The trace lists every step with its thread,
    oldest first. *)
Fixpoint run (sched : list tid) (s : state)
  : option (list (tid * action) * state) :=
  match sched with
  | [] => Some ([], s)
  | t :: rest =>
      match step t s with
      | None => None
      | Some (a, s') =>
          match run rest s' with
          | None => None
          | Some (tr, s'') => Some ((t, a) :: tr, s'')
          end
      end
  end.

End Pipeline.

(** ** Start-up (lines 207-247)

    The state in which the five threads are created: buffers of [n] and [m]
    cells with whatever [malloc] returned in them, counters and cursors 0,
    every semaphore 0, the mutex free. *)
Definition init_vars (cap_in cap_out : Z) : var -> Z :=
  fun v => match v with n => cap_in | m => cap_out | _ => 0 end.

Definition initial (cap_in cap_out : Z) (mem_in mem_out : list Z)
    (file : list Z) : state :=
  mkState (init_vars cap_in cap_out)
    (fun b => match b with input_buffer => mem_in | output_buffer => mem_out end)
    (fun _ => O) false file [] O
    0 0 0 0 0
    R_lock C_wait E_wait O_wait W_wait X_idle.

(** The capacity prompts of [main] (lines 195-205).  [stdin] lists the
    numbers [scanf] reads.  When the input is exhausted [scanf] stores
    nothing, the capacity keeps its value below 1 and the loop never exits:
    the result is [None], with the output printed up to that point. *)
Definition invalid_buffer : string :=
  "Invalid buffer, must be greater than 0".

Fixpoint prompt (question : string) (stdin : list Z)
  : list string * option (Z * list Z) :=
  match stdin with
  | [] => ([question], None)
  | v :: rest =>
      if v <? 1
      then let (out, r) := prompt question rest in
           (question :: invalid_buffer :: out, r)
      else ([question], Some (v, rest))
  end.

(** How [main] gets on, up to the creation of the threads. *)
Inductive startup : Type :=
| Exit (status : Z) (out : list string)
| Launch (cap_in cap_out : Z) (out : list string)
| Prompting (out : list string).

(** Lines 184-247; [alloc_ok] tells whether both [malloc] calls succeed. *)
Definition main (argc : Z) (stdin : list Z) (alloc_ok : bool) : startup :=
  if negb (argc =? 4)
  then Exit 1 ["Error: Must include an input file, an output file, and a log file in arguments"%string]
  else
    match prompt "Enter buffer size for the input: " stdin with
    | (out1, None) => Prompting out1
    | (out1, Some (cap_in, stdin1)) =>
        match prompt "Enter buffer size for the output: " stdin1 with
        | (out2, None) => Prompting (out1 ++ out2)
        | (out2, Some (cap_out, _)) =>
            if alloc_ok
            then Launch cap_in cap_out (out1 ++ out2)
            else Exit 1 (out1 ++ out2
                         ++ ["Error: Memory allocation failed"%string])
        end
    end.

(** ** Observations on a trace *)

Definition tid_eqb (t u : tid) : bool := Nat.eqb (tid_id t) (tid_id u).
Definition sem_eqb (x y : sem) : bool := Nat.eqb (sem_id x) (sem_id y).

(** The steps of a trace that satisfy [p]. *)
Definition occurrences (p : tid * action -> bool) (tr : list (tid * action))
  : nat :=
  List.length (filter p tr).

Definition is_load (t : tid) (e : tid * action) : bool :=
  tid_eqb t (fst e) && match snd e with Load _ _ _ => true | _ => false end.

(** [t] read the end-of-stream character from a buffer. *)
Definition is_sentinel_load (t : tid) (e : tid * action) : bool :=
  tid_eqb t (fst e)
  && match snd e with Load _ _ c => c =? EOF | _ => false end.

Definition is_post (x : sem) (e : tid * action) : bool :=
  match snd e with SemPost y => sem_eqb x y | _ => false end.

Definition is_wait (x : sem) (e : tid * action) : bool :=
  match snd e with SemWait y => sem_eqb x y | _ => false end.

Definition is_reset_lock (e : tid * action) : bool :=
  tid_eqb TReset (fst e) && match snd e with Lock => true | _ => false end.

(** The characters handed to [count_input], in order. *)
Fixpoint counted_inputs (tr : list (tid * action)) : list Z :=
  match tr with
  | [] => []
  | (_, CallCountInput c) :: rest => c :: counted_inputs rest
  | _ :: rest => counted_inputs rest
  end.

(** The characters handed to [count_output], in order. *)
Fixpoint counted_outputs (tr : list (tid * action)) : list Z :=
  match tr with
  | [] => []
  | (_, CallCountOutput c) :: rest => c :: counted_outputs rest
  | _ :: rest => counted_outputs rest
  end.

(** All five stage threads have returned. *)
Definition all_returned (s : state) : Prop :=
  pc_reader s = R_return /\ pc_counter s = C_return
  /\ pc_encryptor s = E_return /\ pc_ocounter s = O_return
  /\ pc_writer s = W_return.

(** ** Schedules

    One round of the pipeline on one character, in the order the
    specification describes: the counter reads a cell before the encryptor
    (or the writer) retires it. *)
Definition item_round : list tid :=
  repeat TReader 6 ++ repeat TCounter 5 ++ repeat TEncryptor 4
  ++ repeat TReader 3 ++ repeat TEncryptor 5
  ++ repeat TOutputCounter 5 ++ repeat TWriter 6 ++ repeat TEncryptor 2.

(** The round on the end of the input, after which every thread returns. *)
Definition eof_round : list tid :=
  repeat TReader 6 ++ repeat TCounter 5 ++ repeat TEncryptor 4
  ++ repeat TReader 5 ++ repeat TEncryptor 5
  ++ repeat TOutputCounter 5 ++ repeat TWriter 6.

Fixpoint rounds (k : nat) : list tid :=
  match k with
  | O => eof_round
  | S j => item_round ++ rounds j
  end.

(** The same round with the encryptor scheduled before the input counter. *)
Definition item_round_encryptor_first : list tid :=
  repeat TReader 6 ++ repeat TEncryptor 4 ++ repeat TCounter 5
  ++ repeat TReader 3 ++ repeat TEncryptor 5
  ++ repeat TOutputCounter 5 ++ repeat TWriter 6 ++ repeat TEncryptor 2.

(** The last round with the encryptor scheduled before the input counter:
    the counter runs once on the reader's signal and once more on the extra
    signal the reader posts after its loop. *)
Definition eof_round_encryptor_first : list tid :=
  repeat TReader 6 ++ repeat TEncryptor 4 ++ repeat TCounter 5
  ++ repeat TReader 5 ++ repeat TCounter 5 ++ repeat TEncryptor 5
  ++ repeat TOutputCounter 5 ++ repeat TWriter 6.

(** A round in which a reset is requested, served and finished after the
    encryptor has stored its character in the output buffer and before it
    advances the write cursor. *)
Definition item_round_reset_in_flight : list tid :=
  repeat TReader 6 ++ repeat TCounter 5 ++ repeat TEncryptor 4
  ++ repeat TReader 3 ++ repeat TEncryptor 1
  ++ repeat TReset 13
  ++ repeat TEncryptor 4
  ++ repeat TOutputCounter 5 ++ repeat TWriter 6 ++ repeat TEncryptor 2.

(** A keyed substitution to run the examples with: letters are rotated by
    [key] places, every other character is kept. *)
Definition caesar (key c : Z) : Z :=
  if (97 <=? c) && (c <=? 122) then 97 + (c - 97 + key) mod 26
  else if (65 <=? c) && (c <=? 90) then 65 + (c - 65 + key) mod 26
  else c.

(** ** Accounting of the reset-ready signals *)

(** 1 while a stage has read an item and not yet posted its reset-ready
    signal for it. *)
Definition counter_owes (p : counter_pc) : nat :=
  match p with C_post_done | C_post_reset => 1 | _ => 0 end.

Definition encryptor_owes (p : encryptor_pc) : nat :=
  match p with
  | E_advance | E_post_done | E_store | E_advance_out
  | E_post_counter | E_post_writer | E_post_reset => 1
  | _ => 0
  end.

Definition ocounter_owes (p : ocounter_pc) : nat :=
  match p with O_count | O_post_done | O_post_reset => 1 | _ => 0 end.

Definition writer_owes (p : writer_pc) : nat :=
  match p with
  | W_advance | W_write | W_post_done | W_post_reset => 1
  | _ => 0
  end.

(** 1 while a reset request has taken the lock and not yet waited on the
    signal [x]. *)
Definition reset_owes (x : sem) (p : reset_pc) : nat :=
  match p, x with
  | X_wait_counter, (counter_reset_ready | encryptor_reset_ready
                     | output_counter_reset_ready | writer_reset_ready) => 1
  | X_wait_encryptor, (encryptor_reset_ready
                       | output_counter_reset_ready | writer_reset_ready) => 1
  | X_wait_output_counter, (output_counter_reset_ready
                            | writer_reset_ready) => 1
  | X_wait_writer, writer_reset_ready => 1
  | _, _ => 0
  end.

(** The ledger of one reset-ready signal [x] of the stage [t] that owes
    [owed] posts: one post per item read, one wait per reset request, and the
    value of the semaphore is what was posted and not yet waited for. *)
Definition ledger (x : sem) (t : tid) (owed : nat)
    (tr : list (tid * action)) (s : state) : Prop :=
  (occurrences (is_post x) tr + owed = occurrences (is_load t) tr)%nat
  /\ (occurrences (is_wait x) tr + reset_owes x (pc_reset s)
      = occurrences is_reset_lock tr)%nat
  /\ (sems s x + occurrences (is_wait x) tr
      = occurrences (is_post x) tr)%nat.

Definition ledgers (tr : list (tid * action)) (s : state) : Prop :=
  ledger counter_reset_ready TCounter (counter_owes (pc_counter s)) tr s
  /\ ledger encryptor_reset_ready TEncryptor
       (encryptor_owes (pc_encryptor s)) tr s
  /\ ledger output_counter_reset_ready TOutputCounter
       (ocounter_owes (pc_ocounter s)) tr s
  /\ ledger writer_reset_ready TWriter (writer_owes (pc_writer s)) tr s.

(** What the claim of a bulk drain would mean: once [reset_requested] has
    returned with every stage at rest, no acknowledgment is left over. *)
Definition reset_drains (encrypt : Z -> Z) : Prop :=
  forall cap_in cap_out mem_in mem_out file sched tr s,
    run encrypt sched (initial cap_in cap_out mem_in mem_out file)
      = Some (tr, s) ->
    all_returned s -> pc_reset s = X_finished ->
    sems s counter_reset_ready = 0%nat.

(** What a fatal configuration error would mean: a first capacity below 1
    ends the process with a non-zero status. *)
Definition capacity_error_is_fatal : Prop :=
  forall v rest alloc_ok,
    v < 1 ->
    exists status out,
      main 4 (v :: rest) alloc_ok = Exit status out /\ status <> 0.

(** Once the other four stages have returned and the input counter waits on
    an empty [counter_data_ready], nothing can wake it: only reset requests
    still run, and they leave that semaphore alone. *)
Definition counter_stranded (s : state) : Prop :=
  pc_reader s = R_return /\ pc_encryptor s = E_return
  /\ pc_ocounter s = O_return /\ pc_writer s = W_return
  /\ pc_counter s = C_wait /\ sems s counter_data_ready = 0%nat.

Fixpoint retries (question : string) (bad : list Z) : list string :=
  match bad with
  | [] => [question]
  | _ :: rest => question :: invalid_buffer :: retries question rest
  end.

(** The position of a program point in [reset_requested]. *)
Definition reset_index (p : reset_pc) : nat :=
  match p with
  | X_idle => 0 | X_wait_counter => 1 | X_wait_encryptor => 2
  | X_wait_output_counter => 3 | X_wait_writer => 4
  | X_zero_input_in => 5 | X_zero_input_out => 6
  | X_zero_output_in => 7 | X_zero_output_out => 8
  | X_zero_input_count => 9 | X_zero_output_count => 10
  | X_log => 11 | X_finished => 12
  end%nat.

(** The position from which [reset_requested] has assigned 0 to [v];
    [n] and [m] are never assigned. *)
Definition zeroed_from (v : var) : option nat :=
  match v with
  | input_buffer_in => Some 6 | input_buffer_out => Some 7
  | output_buffer_in => Some 8 | output_buffer_out => Some 9
  | input_count => Some 10 | output_count => Some 11
  | n | m => None
  end%nat.

(** What an uninterrupted call has done to [s0] when it stands at position
    [k] in state [s], having made the steps [tr]. *)
Definition reset_progress (k : nat) (s0 s : state)
    (tr : list (tid * action)) : Prop :=
  reset_index (pc_reset s) = k
  /\ bufs s = bufs s0 /\ sink s = sink s0 /\ source s = source s0
  /\ (forall v,
        vars s v = match zeroed_from v with
                   | Some j => if (j <=? k)%nat then 0 else vars s0 v
                   | None => vars s0 v
                   end)
  /\ flushes s = (flushes s0 + if (12 <=? k)%nat then 1 else 0)%nat
  /\ ((12 <= k)%nat -> In (TReset, CallLogCounts) tr).

(** ** The hand-over invariant of a run without reset *)

(** The cell a cursor points to after [x] advances from 0. *)
Definition slot (cap x : Z) : Z := x mod cap.

(** Item [i] of a stream that ends with the end-of-stream character. *)
Definition item (l : list Z) (i : Z) : Z := nth (Z.to_nat i) l EOF.

(** Where the reader stands in its iteration: it holds the character of the
    current item, it has not stored it yet, it has not advanced the write
    cursor yet, it has not posted the encryptor's signal yet, it has not
    received the encryptor's acknowledgment yet. *)
Definition r_has_c (p : reader_pc) : Z :=
  match p with R_lock | R_read => 0 | _ => 1 end.
Definition r_unstored (p : reader_pc) : Z :=
  match p with R_store => 1 | _ => 0 end.
Definition r_unadvanced (p : reader_pc) : Z :=
  match p with R_store | R_advance => 1 | _ => 0 end.
Definition r_unposted (p : reader_pc) : Z :=
  match p with
  | R_store | R_advance | R_post_counter | R_post_encryptor => 1
  | _ => 0
  end.
Definition r_unacked (p : reader_pc) : Z :=
  match p with
  | R_store | R_advance | R_post_counter | R_post_encryptor
  | R_wait_counter | R_wait_encryptor => 1
  | _ => 0
  end.
Definition r_extra (p : reader_pc) : Z :=
  match p with R_return => 1 | _ => 0 end.
Definition r_left_loop (p : reader_pc) : Z :=
  match p with
  | R_last_post_counter | R_last_post_encryptor | R_return => 1
  | _ => 0
  end.

(** The same for the encryptor, on the input side... *)
Definition e_busy (p : encryptor_pc) : Z :=
  match p with E_wait => 0 | _ => 1 end.
Definition e_has_c (p : encryptor_pc) : Z :=
  match p with E_wait | E_load => 0 | _ => 1 end.
Definition e_may_eof (p : encryptor_pc) : Z :=
  match p with
  | E_wait | E_store | E_advance_out | E_post_counter | E_post_writer
  | E_wait_counter | E_wait_writer => 0
  | _ => 1
  end.
Definition e_left_loop (p : encryptor_pc) : Z :=
  match p with
  | E_eof_store | E_eof_advance | E_eof_post_counter | E_eof_post_writer
  | E_return => 1
  | _ => 0
  end.
Definition e_unretired (p : encryptor_pc) : Z :=
  match p with E_load | E_advance => 1 | _ => 0 end.
Definition e_unacked (p : encryptor_pc) : Z :=
  match p with E_load | E_advance | E_post_done => 1 | _ => 0 end.

(** ... and on the output side: of the [e] items it has taken, how many it
    has not stored in the output buffer ([k] is the length of the input). *)
Definition e_unstored (k : Z) (p : encryptor_pc) (e : Z) : Z :=
  match p with
  | E_load | E_advance | E_post_done | E_store | E_eof_store => 1
  | E_post_reset => e - Z.min e k
  | _ => 0
  end.
Definition e_unadvanced (p : encryptor_pc) : Z :=
  match p with E_advance_out | E_eof_advance => 1 | _ => 0 end.
Definition e_unposted (p : encryptor_pc) : Z :=
  match p with
  | E_post_counter | E_post_writer
  | E_eof_post_counter | E_eof_post_writer => 1
  | _ => 0
  end.
Definition e_unwaited (p : encryptor_pc) : Z :=
  match p with E_wait => 0 | _ => 1 end.

(** The same for the writer. *)
Definition w_busy (p : writer_pc) : Z :=
  match p with W_wait => 0 | _ => 1 end.
Definition w_has_c (p : writer_pc) : Z :=
  match p with W_wait | W_load => 0 | _ => 1 end.
Definition w_left_loop (p : writer_pc) : Z :=
  match p with W_return => 1 | _ => 0 end.
Definition w_unretired (p : writer_pc) : Z :=
  match p with W_load | W_advance => 1 | _ => 0 end.
Definition w_unwritten (p : writer_pc) : Z :=
  match p with W_load | W_advance | W_write => 1 | _ => 0 end.
Definition w_unacked (p : writer_pc) : Z :=
  match p with
  | W_load | W_advance | W_write | W_post_done => 1
  | _ => 0
  end.

(** What a step from a program point adds to the number of items its stage
    has taken. *)
Definition r_reads (p : reader_pc) : Z :=
  match p with R_read => 1 | _ => 0 end.
Definition e_takes (p : encryptor_pc) : Z :=
  match p with E_wait => 1 | _ => 0 end.
Definition w_takes (p : writer_pc) : Z :=
  match p with W_wait => 1 | _ => 0 end.

Section HandOver.

Variable encrypt : Z -> Z.
Variables cap_in cap_out : Z.
Variable file : list Z.

(** The characters the reader takes from the file, and what the encryptor
    makes of them. *)
Definition plain : list Z := map to_char file.
Definition cipher : list Z := map (fun c => to_char (encrypt c)) plain.

Let K : Z := Z.of_nat (List.length file).

(** The state after the reader has called [read_input] [rd] times, the
    encryptor has taken [e] items and the writer [w]. *)
Record hand_over (s : state) (rd e w : Z) : Prop := {
  ho_n : vars s n = cap_in;
  ho_m : vars s m = cap_out;
  ho_len_in : Z.of_nat (List.length (bufs s input_buffer)) = cap_in;
  ho_len_out : Z.of_nat (List.length (bufs s output_buffer)) = cap_out;
  (* reader *)
  ho_rd : r_has_c (pc_reader s) <= rd <= K + r_has_c (pc_reader s);
  ho_rd_end : r_left_loop (pc_reader s) = 1 -> rd = K + 1;
  ho_source : source s = skipn (Z.to_nat rd) file;
  ho_c_reader : r_has_c (pc_reader s) = 1 -> c_reader s = item plain (rd - 1);
  ho_in : vars s input_buffer_in
          = slot cap_in (rd - r_unadvanced (pc_reader s));
  ho_cell_in :
    1 <= rd - r_unstored (pc_reader s) ->
    peek (slot cap_in (rd - r_unstored (pc_reader s) - 1))
      (bufs s input_buffer)
    = item plain (rd - r_unstored (pc_reader s) - 1);
  (* encryptor, input side *)
  ho_e : e_busy (pc_encryptor s) <= e <= K + e_may_eof (pc_encryptor s);
  ho_e_end : e_left_loop (pc_encryptor s) = 1 -> e = K + 1;
  ho_c_encryptor :
    e_has_c (pc_encryptor s) = 1 -> c_encryptor s = item plain (e - 1);
  ho_out : vars s input_buffer_out
           = slot cap_in (e - e_unretired (pc_encryptor s));
  ho_data_ready :
    Z.of_nat (sems s encryptor_data_ready) + e
    = rd - r_unposted (pc_reader s) + r_extra (pc_reader s);
  ho_done :
    Z.of_nat (sems s encryptor_done) + rd - r_unacked (pc_reader s)
    = e - e_unacked (pc_encryptor s);
  (* encryptor, output side *)
  ho_out_in :
    vars s output_buffer_in
    = slot cap_out (e - e_unstored K (pc_encryptor s) e
                    - e_unadvanced (pc_encryptor s));
  ho_cell_out :
    1 <= e - e_unstored K (pc_encryptor s) e ->
    peek (slot cap_out (e - e_unstored K (pc_encryptor s) e - 1))
      (bufs s output_buffer)
    = item cipher (e - e_unstored K (pc_encryptor s) e - 1);
  (* writer *)
  ho_w : w_busy (pc_writer s) <= w <= K + w_busy (pc_writer s);
  ho_w_end : w_left_loop (pc_writer s) = 1 -> w = K + 1;
  ho_c_writer :
    w_has_c (pc_writer s) = 1 -> c_writer s = item cipher (w - 1);
  ho_out_out : vars s output_buffer_out
               = slot cap_out (w - w_unretired (pc_writer s));
  ho_writer_ready :
    Z.of_nat (sems s writer_data_ready) + w
    = e - e_unstored K (pc_encryptor s) e - e_unadvanced (pc_encryptor s)
      - e_unposted (pc_encryptor s);
  ho_writer_done :
    Z.of_nat (sems s writer_done) + e - e_unwaited (pc_encryptor s)
    = w - w_unacked (pc_writer s);
  ho_sink : sink s = firstn (Z.to_nat (w - w_unwritten (pc_writer s))) cipher
}.

End HandOver.

(** Every stage stands at the head of its loop, with nothing signalled and
    the mutex free. *)
Definition at_rest (s : state) : Prop :=
  pc_reader s = R_lock /\ pc_counter s = C_wait /\ pc_encryptor s = E_wait
  /\ pc_ocounter s = O_wait /\ pc_writer s = W_wait
  /\ reader_lock s = false
  /\ sems s counter_data_ready = 0%nat /\ sems s encryptor_data_ready = 0%nat
  /\ sems s output_counter_data_ready = 0%nat
  /\ sems s writer_data_ready = 0%nat
  /\ sems s counter_done = 0%nat /\ sems s encryptor_done = 0%nat
  /\ sems s output_counter_done = 0%nat /\ sems s writer_done = 0%nat.

(** What delivery of every byte sequence would mean: whatever bytes the file
    holds, once the five stages have returned the sink holds the transform
    of each of them, in order. *)
Definition every_byte_sequence_is_delivered (encrypt : Z -> Z) : Prop :=
  forall cap_in cap_out mem_in mem_out file sched tr s,
    1 <= cap_in -> 1 <= cap_out ->
    Z.of_nat (List.length mem_in) = cap_in ->
    Z.of_nat (List.length mem_out) = cap_out ->
    Forall (fun b => 0 <= b <= 255) file ->
    run encrypt sched (initial cap_in cap_out mem_in mem_out file)
      = Some (tr, s) ->
    all_returned s ->
    sink s = cipher encrypt file.

(** The cursors index their buffers. *)
Definition cursors_ok (cap_in cap_out : Z) (s : state) : Prop :=
  vars s n = cap_in /\ vars s m = cap_out
  /\ Z.of_nat (List.length (bufs s input_buffer)) = cap_in
  /\ Z.of_nat (List.length (bufs s output_buffer)) = cap_out
  /\ 0 <= vars s input_buffer_in < cap_in
  /\ 0 <= vars s input_buffer_out < cap_in
  /\ 0 <= vars s output_buffer_in < cap_out
  /\ 0 <= vars s output_buffer_out < cap_out.

(** A load or a store falls inside its buffer. *)
Definition access_ok (cap_in cap_out : Z) (e : tid * action) : Prop :=
  match snd e with
  | Load input_buffer i _ | Store input_buffer i _ => 0 <= i < cap_in
  | Load output_buffer i _ | Store output_buffer i _ => 0 <= i < cap_out
  | _ => True
  end.

(** The reader is between its lock and its unlock. *)
Definition reader_holds (p : reader_pc) : bool :=
  match p with
  | R_read | R_store | R_advance | R_post_counter | R_post_encryptor
  | R_wait_counter | R_wait_encryptor | R_unlock => true
  | _ => false
  end.

(** A reset is between the lock of [reset_requested] and the unlock of
    [reset_finished]. *)
Definition reset_holds (p : reset_pc) : bool :=
  match p with X_idle => false | _ => true end.

(** The mutex is held exactly when one of the two holds it, and they never
    hold it together. *)
Definition lock_ok (s : state) : Prop :=
  reader_lock s = reader_holds (pc_reader s) || reset_holds (pc_reset s)
  /\ reader_holds (pc_reader s) && reset_holds (pc_reset s) = false.

(** No thread can step. *)
Definition stuck (encrypt : Z -> Z) (s : state) : Prop :=
  forall t, step encrypt t s = None.

(** ** The counting stages *)

(** Where the reader stands towards the input counter: it has not posted
    the counter's signal for the current item yet, it has not received the
    counter's acknowledgment yet, it has posted the extra signal. *)
Definition r_unposted_c (p : reader_pc) : Z :=
  match p with R_store | R_advance | R_post_counter => 1 | _ => 0 end.
Definition r_unacked_c (p : reader_pc) : Z :=
  match p with
  | R_store | R_advance | R_post_counter | R_post_encryptor
  | R_wait_counter => 1
  | _ => 0
  end.
Definition r_extra_c (p : reader_pc) : Z :=
  match p with R_last_post_encryptor | R_return => 1 | _ => 0 end.

(** Where the encryptor stands towards the output counter. *)
Definition e_unposted_c (p : encryptor_pc) : Z :=
  match p with E_post_counter | E_eof_post_counter => 1 | _ => 0 end.
Definition e_unwaited_c (p : encryptor_pc) : Z :=
  match p with E_wait | E_wait_writer => 0 | _ => 1 end.

(** Where the input counter stands in its iteration. *)
Definition c_takes (p : counter_pc) : Z :=
  match p with C_wait => 1 | _ => 0 end.
Definition c_busy (p : counter_pc) : Z :=
  match p with C_wait => 0 | _ => 1 end.
Definition c_has_c (p : counter_pc) : Z :=
  match p with C_wait | C_load => 0 | _ => 1 end.
Definition c_left_loop (p : counter_pc) : Z :=
  match p with C_return => 1 | _ => 0 end.
Definition c_unacked (p : counter_pc) : Z :=
  match p with C_load | C_post_done => 1 | _ => 0 end.
Definition c_uncounted (p : counter_pc) : Z :=
  match p with
  | C_load | C_post_done | C_post_reset | C_count => 1
  | _ => 0
  end.

(** Where the output counter stands in its iteration. *)
Definition o_takes (p : ocounter_pc) : Z :=
  match p with O_wait => 1 | _ => 0 end.
Definition o_busy (p : ocounter_pc) : Z :=
  match p with O_wait => 0 | _ => 1 end.
Definition o_has_c (p : ocounter_pc) : Z :=
  match p with O_wait | O_load => 0 | _ => 1 end.
Definition o_left_loop (p : ocounter_pc) : Z :=
  match p with O_return => 1 | _ => 0 end.
Definition o_unacked (p : ocounter_pc) : Z :=
  match p with O_load | O_count | O_post_done => 1 | _ => 0 end.
Definition o_uncounted (p : ocounter_pc) : Z :=
  match p with O_load | O_count => 1 | _ => 0 end.

(** The number of steps a stage has made when it has taken [k] items and
    stands at a program point ([len] is the length of the input). *)
Definition reader_steps (rd : Z) (p : reader_pc) : Z :=
  9 * rd + match p with
           | R_lock => 0 | R_read => 1
           | R_store => -7 | R_advance => -6 | R_post_counter => -5
           | R_post_encryptor => -4 | R_wait_counter => -3
           | R_wait_encryptor => -2 | R_unlock => -1
           | R_last_post_counter => 0 | R_last_post_encryptor => 1
           | R_return => 2
           end.
Definition counter_steps (ci : Z) (p : counter_pc) : Z :=
  5 * ci + match p with
           | C_wait => 0 | C_load => -4 | C_post_done => -3
           | C_post_reset => -2 | C_count => -1 | C_return => 0
           end.
Definition encryptor_steps (len e : Z) (p : encryptor_pc) : Z :=
  11 * e + match p with
           | E_wait => 0 | E_load => -10 | E_advance => -9
           | E_post_done => -8 | E_store => -7 | E_advance_out => -6
           | E_post_counter => -5 | E_post_writer => -4
           | E_post_reset => -3 - 4 * (e - Z.min e len)
           | E_wait_counter => -2 | E_wait_writer => -1
           | E_eof_store => -6 | E_eof_advance => -5
           | E_eof_post_counter => -4 | E_eof_post_writer => -3
           | E_return => -2
           end.
Definition ocounter_steps (co : Z) (p : ocounter_pc) : Z :=
  5 * co + match p with
           | O_wait => 0 | O_load => -4 | O_count => -3
           | O_post_done => -2 | O_post_reset => -1 | O_return => 0
           end.
Definition writer_steps (w : Z) (p : writer_pc) : Z :=
  6 * w + match p with
          | W_wait => 0 | W_load => -5 | W_advance => -4 | W_write => -3
          | W_post_done => -2 | W_post_reset => -1 | W_return => 0
          end.

(** The steps of a trace made by the five stages. *)
Definition is_stage_step (e : tid * action) : bool :=
  negb (tid_eqb TReset (fst e)).

Section Counting.

Variable encrypt : Z -> Z.
Variable file : list Z.

Let K : Z := Z.of_nat (List.length file).

(** The signals between the reader and the input counter and between the
    encryptor and the output counter, when the counters have taken [ci] and
    [co] items; and the steps made so far. *)
Record counter_signals (tr : list (tid * action)) (s : state)
    (rd e w ci co : Z) : Prop := {
  cs_ci : c_busy (pc_counter s) <= ci;
  cs_counter_ready :
    Z.of_nat (sems s counter_data_ready) + ci
    = rd - r_unposted_c (pc_reader s) + r_extra_c (pc_reader s);
  cs_counter_done :
    Z.of_nat (sems s counter_done) + rd - r_unacked_c (pc_reader s)
    = ci - c_unacked (pc_counter s);
  cs_co : o_busy (pc_ocounter s) <= co;
  cs_ocounter_ready :
    Z.of_nat (sems s output_counter_data_ready) + co
    = e - e_unstored K (pc_encryptor s) e - e_unadvanced (pc_encryptor s)
      - e_unposted_c (pc_encryptor s);
  cs_ocounter_done :
    Z.of_nat (sems s output_counter_done) + e - e_unwaited_c (pc_encryptor s)
    = co - o_unacked (pc_ocounter s);
  cs_steps :
    Z.of_nat (occurrences is_stage_step tr)
    = reader_steps rd (pc_reader s) + counter_steps ci (pc_counter s)
      + encryptor_steps K e (pc_encryptor s)
      + ocounter_steps co (pc_ocounter s) + writer_steps w (pc_writer s)
}.

(** What the counters hold and have counted, with one cell per buffer. *)
Record counter_data (tr : list (tid * action)) (s : state)
    (ci co : Z) : Prop := {
  cd_ci : ci <= K + c_busy (pc_counter s);
  cd_ci_end : c_left_loop (pc_counter s) = 1 -> ci = K + 1;
  cd_c_counter :
    c_has_c (pc_counter s) = 1 -> c_counter s = item (plain file) (ci - 1);
  cd_counted_inputs :
    counted_inputs tr
    = firstn (Z.to_nat (ci - c_uncounted (pc_counter s))) (plain file);
  cd_co : co <= K + o_busy (pc_ocounter s);
  cd_co_end : o_left_loop (pc_ocounter s) = 1 -> co = K + 1;
  cd_c_ocounter :
    o_has_c (pc_ocounter s) = 1 ->
    c_ocounter s = item (cipher encrypt file) (co - 1);
  cd_counted_outputs :
    counted_outputs tr
    = firstn (Z.to_nat (co - o_uncounted (pc_ocounter s)))
        (cipher encrypt file)
}.

End Counting.

(** The hand-over and the signal invariants together. *)
Definition signals_inv (encrypt : Z -> Z) (cap_in cap_out : Z)
    (file : list Z) (tr : list (tid * action)) (s : state) : Prop :=
  exists rd e w ci co,
    hand_over encrypt cap_in cap_out file s rd e w
    /\ counter_signals file tr s rd e w ci co.

(** The three invariants together, with the items each stage has taken and
    one cell in each buffer. *)
Definition single_cell_inv (encrypt : Z -> Z) (file : list Z)
    (tr : list (tid * action)) (s : state) : Prop :=
  exists rd e w ci co,
    hand_over encrypt 1 1 file s rd e w
    /\ counter_signals file tr s rd e w ci co
    /\ counter_data encrypt file tr s ci co.

(** ** Buffers that cannot show a stale end-of-stream character *)

(** [malloc] leaves the cells of a fresh buffer undefined (lines 208-209).
    The two counters read through the cursor of the stage beside them
    (lines 83 and 133), so with two cells or more they can read a cell that
    has not been written yet.  A buffer cannot show them the end-of-stream
    character too early when it has one cell, which is written before it is
    read, or when none of its fresh cells holds that character. *)
Definition cells_clean (cap : Z) (l : list Z) : Prop :=
  cap = 1 \/ Forall (fun c => c <> EOF) l.

Section Following.

Variables cap_in cap_out : Z.
Variable file : list Z.

Let K : Z := Z.of_nat (List.length file).

(** The counters do not leave their loops before the end of the stream has
    been stored: until then the buffers show no end-of-stream character, a
    counter that has taken at most [K] items holds none, and a counter that
    has returned has taken more than [K] items. *)
Record counters_follow (s : state) (rd e ci co : Z) : Prop := {
  cf_in_cells :
    rd - r_unstored (pc_reader s) <= K ->
    cells_clean cap_in (bufs s input_buffer);
  cf_c_counter :
    c_has_c (pc_counter s) = 1 -> ci <= K -> c_counter s <> EOF;
  cf_ci_end : c_left_loop (pc_counter s) = 1 -> K + 1 <= ci;
  cf_out_cells :
    e - e_unstored K (pc_encryptor s) e <= K ->
    cells_clean cap_out (bufs s output_buffer);
  cf_c_ocounter :
    o_has_c (pc_ocounter s) = 1 -> co <= K -> c_ocounter s <> EOF;
  cf_co_end : o_left_loop (pc_ocounter s) = 1 -> K + 1 <= co
}.

End Following.

(** The three invariants of a run without reset that starts from buffers
    that cannot show a stale end-of-stream character. *)
Definition progress_inv (encrypt : Z -> Z) (cap_in cap_out : Z)
    (file : list Z) (tr : list (tid * action)) (s : state) : Prop :=
  exists rd e w ci co,
    hand_over encrypt cap_in cap_out file s rd e w
    /\ counter_signals file tr s rd e w ci co
    /\ counters_follow cap_in cap_out file s rd e ci co.

(** Reader, encryptor and writer have returned. *)
Definition writer_served (s : state) : Prop :=
  pc_reader s = R_return /\ pc_encryptor s = E_return
  /\ pc_writer s = W_return.

(** A round on one character after the input counter has returned: the
    reader stops at its wait for [counter_done], the other stages finish the
    character. *)
Definition item_round_counter_gone : list tid :=
  repeat TReader 6 ++ repeat TEncryptor 9
  ++ repeat TOutputCounter 5 ++ repeat TWriter 6 ++ repeat TEncryptor 2.

(* ================================================================== *)
(** * Properties *)

(** ** Basic facts *)

Lemma occurrences_app p (l1 l2 : list (tid * action)) :
  occurrences p (l1 ++ l2) = (occurrences p l1 + occurrences p l2)%nat.
Proof.
  unfold occurrences. rewrite filter_app, length_app. reflexivity.
Qed.

Lemma run_app encrypt (s1 s2 : list tid) : forall s,
  run encrypt (s1 ++ s2) s =
  match run encrypt s1 s with
  | None => None
  | Some (tr1, s') =>
      match run encrypt s2 s' with
      | None => None
      | Some (tr2, s'') => Some (tr1 ++ tr2, s'')
      end
  end.
Proof.
  induction s1 as [|t s1 IH]; intros s; simpl.
  - destruct (run encrypt s2 s) as [[tr2 s'']|]; reflexivity.
  - destruct (step encrypt t s) as [[a s']|]; [|reflexivity].
    rewrite IH. destruct (run encrypt s1 s') as [[tr1 s1']|]; [|reflexivity].
    destruct (run encrypt s2 s1') as [[tr2 s2']|]; reflexivity.
Qed.

Lemma sem_wait_some x s s' :
  sem_wait x s = Some s' ->
  exists k, sems s x = S k /\ s' = set_sems (upd sem_id x k (sems s)) s.
Proof.
  unfold sem_wait. destruct (sems s x) as [|k]; [discriminate|].
  intros H; inversion H. eauto.
Qed.

Lemma mutex_lock_some s s' :
  mutex_lock s = Some s' -> reader_lock s = false /\ s' = set_lock true s.
Proof.
  unfold mutex_lock. destruct (reader_lock s); [discriminate|].
  intros H; inversion H. auto.
Qed.

(** ** Threads that can no longer move *)

(** Inverting a successful step: the blocking calls succeeded, the tests
    went one way or the other. *)
Ltac invert_step H :=
  repeat match type of H with
    | context [sem_wait ?x ?s] =>
        let E := fresh "Hwait" in
        destruct (sem_wait x s) eqn:E;
        [ apply sem_wait_some in E; destruct E as (? & E & ->)
        | discriminate H ]
    | context [mutex_lock ?s] =>
        let E := fresh "Hlock" in
        destruct (mutex_lock s) eqn:E;
        [ apply mutex_lock_some in E; destruct E as (E & ->)
        | discriminate H ]
    | context [?c =? EOF] =>
        let E := fresh "Heof" in destruct (Z.eqb_spec c EOF) as [E|E]
    | context [read_input ?s] =>
        let E := fresh "Hsrc" in
        unfold read_input in H; destruct (source s) eqn:E
    end;
  inversion H; subst; clear H.

Lemma stranded_step encrypt t s a s' :
  counter_stranded s -> step encrypt t s = Some (a, s') ->
  t = TReset /\ counter_stranded s'.
Proof.
  intros (HR & HE & HO & HW & HC & Hsem) Hstep.
  destruct t; simpl in Hstep.
  - unfold readerThread in Hstep. rewrite HR in Hstep. discriminate.
  - unfold inputCounterThread, sem_wait in Hstep.
    rewrite HC, Hsem in Hstep. discriminate.
  - unfold encryptorThread in Hstep. rewrite HE in Hstep. discriminate.
  - unfold outputCounterThread in Hstep. rewrite HO in Hstep. discriminate.
  - unfold writerThread in Hstep. rewrite HW in Hstep. discriminate.
  - split; [reflexivity|].
    unfold resetThread, reset_requested, reset_finished in Hstep.
    unfold counter_stranded.
    destruct (pc_reset s); invert_step Hstep; cbn; auto 10.
Qed.

Lemma stranded_run encrypt sched : forall s tr s',
  counter_stranded s -> run encrypt sched s = Some (tr, s') ->
  counter_stranded s' /\ Forall (fun e => fst e = TReset) tr.
Proof.
  induction sched as [|t sched IH]; intros s tr s' Hs Hrun; simpl in Hrun.
  - inversion Hrun; subst. auto.
  - destruct (step encrypt t s) as [[a s1]|] eqn:Hstep; [|discriminate].
    destruct (run encrypt sched s1) as [[tr1 s2]|] eqn:Hrest; [|discriminate].
    inversion Hrun; subst.
    destruct (stranded_step _ _ _ _ _ Hs Hstep) as [-> Hs1].
    destruct (IH _ _ _ Hs1 Hrest) as [Hs2 Htr].
    split; [assumption|]. constructor; [reflexivity|assumption].
Qed.

Lemma reset_never_loads tr :
  Forall (fun e : tid * action => fst e = TReset) tr ->
  occurrences (is_sentinel_load TCounter) tr = 0%nat.
Proof.
  induction 1 as [|[t a] tr Ht _ IH]; [reflexivity|].
  simpl in Ht; subst t. unfold occurrences in *. simpl. exact IH.
Qed.

(** C2, as the code runs: with an input buffer of two cells and the input
    "AB", the schedule in which the encryptor steps before the input counter
    on 'B' and on the end of the stream leaves the input counter waiting on
    [counter_data_ready] after the other four stages have returned, and no
    later step of any thread lets it leave that wait: its loop never
    exits. *)
Theorem input_counter_hangs_with_two_cells :
  exists tr s,
    run (caesar 1)
      (item_round ++ item_round_encryptor_first ++ eof_round_encryptor_first)
      (initial 2 1 [0; 0] [0] [65; 66]) = Some (tr, s)
    /\ pc_reader s = R_return /\ pc_encryptor s = E_return
    /\ pc_ocounter s = O_return /\ pc_writer s = W_return
    /\ pc_counter s = C_wait
    /\ forall sched tr' s',
         run (caesar 1) sched s = Some (tr', s') -> pc_counter s' = C_wait.
Proof.
  eexists; eexists. split; [vm_compute; reflexivity|].
  repeat (split; [reflexivity|]).
  intros sched tr' s' Hrun.
  eapply stranded_run in Hrun.
  - destruct Hrun as [(_ & _ & _ & _ & HC & _) _]. exact HC.
  - repeat split.
Qed.

(** C3, as the code runs: in the same run the encryptor, the output counter
    and the writer each read the end-of-stream character once, the input
    counter never reads it, and it cannot read it later: the reader's extra
    signal made it read a stale cell instead. *)
Theorem input_counter_misses_sentinel_with_two_cells :
  exists tr s,
    run (caesar 1)
      (item_round ++ item_round_encryptor_first ++ eof_round_encryptor_first)
      (initial 2 1 [0; 0] [0] [65; 66]) = Some (tr, s)
    /\ occurrences (is_sentinel_load TEncryptor) tr = 1%nat
    /\ occurrences (is_sentinel_load TOutputCounter) tr = 1%nat
    /\ occurrences (is_sentinel_load TWriter) tr = 1%nat
    /\ occurrences (is_sentinel_load TCounter) tr = 0%nat
    /\ pc_counter s = C_wait
    /\ forall sched tr' s',
         run (caesar 1) sched s = Some (tr', s') ->
         occurrences (is_sentinel_load TCounter) (tr ++ tr') = 0%nat
         /\ pc_counter s' = C_wait.
Proof.
  eexists; eexists. split; [vm_compute; reflexivity|].
  repeat (split; [reflexivity|]).
  intros sched tr' s' Hrun.
  eapply stranded_run in Hrun; [|repeat split].
  destruct Hrun as [(_ & _ & _ & _ & HC & _) Htr].
  split; [|exact HC].
  rewrite occurrences_app, (reset_never_loads _ Htr). reflexivity.
Qed.

(** C5, as the code runs: on the input "ABC" a run with one input cell and a
    run with two input cells both end with every stage returned and the same
    output, but [count_input] receives A, B, C in the first and A, A, C in
    the second. *)
Theorem counts_differ_between_one_and_two_cells :
  exists tr1 s1 tr2 s2,
    run (caesar 1) (rounds 3) (initial 1 1 [0] [0] [65; 66; 67])
      = Some (tr1, s1)
    /\ run (caesar 1)
         (item_round ++ item_round_encryptor_first ++ item_round ++ eof_round)
         (initial 2 1 [0; 0] [0] [65; 66; 67]) = Some (tr2, s2)
    /\ all_returned s1 /\ all_returned s2
    /\ sink s1 = [66; 67; 68] /\ sink s2 = [66; 67; 68]
    /\ counted_inputs tr1 = [65; 66; 67]
    /\ counted_inputs tr2 = [65; 65; 67].
Proof.
  do 4 eexists.
  split; [vm_compute; reflexivity|].
  split; [vm_compute; reflexivity|].
  repeat split.
Qed.

(** C9, as the code runs: with two input cells, after the reader has stored
    'B' in cell 1 the encryptor can load it and advance
    [input_buffer_out] before the input counter has read; the input counter
    then loads cell 0, which still holds 'A'. *)
Theorem encryptor_retires_cell_before_counter_reads :
  exists tr s tr' s',
    run (caesar 1)
      (item_round ++ repeat TReader 6 ++ repeat TEncryptor 3)
      (initial 2 1 [0; 0] [0] [65; 66]) = Some (tr, s)
    /\ In (TReader, Store input_buffer 1 66) tr
    /\ last tr (TReset, Skip) = (TEncryptor, Assign input_buffer_out 0)
    /\ ~ In (TCounter, Load input_buffer 1 66) tr
    /\ sems s counter_data_ready = 1%nat
    /\ run (caesar 1) (repeat TCounter 2) s = Some (tr', s')
    /\ tr' = [(TCounter, SemWait counter_data_ready);
              (TCounter, Load input_buffer 0 65)].
Proof.
  do 4 eexists.
  split; [vm_compute; reflexivity|].
  split; [vm_compute; tauto|].
  split; [reflexivity|].
  split.
  - intros H. cbv in H.
    repeat (destruct H as [H|H]; [discriminate H|]). exact H.
  - split; [reflexivity|]. split; [vm_compute; reflexivity|reflexivity].
Qed.

(** C8, as the code runs: on the item 'A' the input counter reads the cell
    at [input_buffer_out], posts [counter_done], posts
    [counter_reset_ready] and only then calls [count_input]; it does not
    touch the read cursor. *)
Theorem input_counter_signals_before_it_counts :
  exists tr s,
    run (caesar 1) (repeat TReader 6 ++ repeat TCounter 5)
      (initial 1 1 [0] [0] [65]) = Some (tr, s)
    /\ filter (fun e => tid_eqb TCounter (fst e)) tr
       = [(TCounter, SemWait counter_data_ready);
          (TCounter, Load input_buffer 0 65);
          (TCounter, SemPost counter_done);
          (TCounter, SemPost counter_reset_ready);
          (TCounter, CallCountInput 65)]
    /\ vars s input_buffer_out = 0.
Proof.
  do 2 eexists. split; [vm_compute; reflexivity|]. split; reflexivity.
Qed.

(** C4, as the code runs: with two output cells and the input "AB", a reset
    that is requested while the encryptor stands between its store of the
    second character and the advance of [output_buffer_in] completes (one
    log flush) and the run ends with every stage returned, but the sink
    holds "BB" where the transform of "AB" is "BC". *)
Theorem reset_in_flight_corrupts_output :
  exists tr s,
    run (caesar 1) (item_round ++ item_round_reset_in_flight ++ eof_round)
      (initial 1 2 [0] [0; 0] [65; 66]) = Some (tr, s)
    /\ all_returned s /\ pc_reset s = X_idle /\ flushes s = 1%nat
    /\ map (fun b => to_char (caesar 1 (to_char b))) [65; 66] = [66; 67]
    /\ sink s = [66; 66].
Proof.
  do 2 eexists. split; [vm_compute; reflexivity|]. repeat split.
Qed.

(** C6, counterexample: after the pipeline has run "AB" to the end, a
    completed [reset_requested] leaves 2 in [counter_reset_ready]: the
    acknowledgments are not drained. *)
Lemma reset_leaves_acknowledgments : ~ reset_drains (caesar 1).
Proof.
  intros H.
  specialize (H 1 1 [0] [0] [65; 66] (rounds 2 ++ repeat TReset 12)).
  vm_compute in H.
  specialize (H _ _ eq_refl).
  discriminate H; repeat split.
Qed.

(** C7, counterexample: with the capacities 0, 3, 2 typed in, [main] does not
    exit; it asks again and starts the threads. *)
Lemma invalid_capacity_is_asked_again : ~ capacity_error_is_fatal.
Proof.
  intros H. destruct (H 0 [3; 2] true) as (st & out & Hm & _); [lia|].
  discriminate Hm.
Qed.

(** ** The reset-ready ledger *)

Lemma occurrences_snoc p tr (e : tid * action) :
  occurrences p (tr ++ [e]) = (occurrences p tr + if p e then 1 else 0)%nat.
Proof.
  rewrite occurrences_app. unfold occurrences. simpl.
  destruct (p e); reflexivity.
Qed.

Lemma ledgers_initial cap_in cap_out mem_in mem_out file :
  ledgers [] (initial cap_in cap_out mem_in mem_out file).
Proof. repeat split. Qed.

Lemma ledgers_step encrypt t s a s' tr :
  ledgers tr s -> step encrypt t s = Some (a, s') ->
  ledgers (tr ++ [(t, a)]) s'.
Proof.
  unfold ledgers, ledger. intros H Hstep.
  rewrite !occurrences_snoc.
  destruct t; simpl in Hstep;
    [ unfold readerThread in Hstep; destruct (pc_reader s) eqn:Hpc
    | unfold inputCounterThread in Hstep; destruct (pc_counter s) eqn:Hpc
    | unfold encryptorThread in Hstep; destruct (pc_encryptor s) eqn:Hpc
    | unfold outputCounterThread in Hstep; destruct (pc_ocounter s) eqn:Hpc
    | unfold writerThread in Hstep; destruct (pc_writer s) eqn:Hpc
    | unfold resetThread, reset_requested, reset_finished in Hstep;
      destruct (pc_reset s) eqn:Hpc ];
    invert_step Hstep; cbn in *; try rewrite Hpc in *; cbn in *;
    try lia.
Qed.

Lemma ledgers_run encrypt sched : forall tr0 s0 tr s,
  ledgers tr0 s0 -> run encrypt sched s0 = Some (tr, s) ->
  ledgers (tr0 ++ tr) s.
Proof.
  induction sched as [|t sched IH]; intros tr0 s0 tr s H0 Hrun;
    simpl in Hrun.
  - inversion Hrun; subst. rewrite app_nil_r. exact H0.
  - destruct (step encrypt t s0) as [[a s1]|] eqn:Hstep; [|discriminate].
    destruct (run encrypt sched s1) as [[tr1 s2]|] eqn:Hrest; [|discriminate].
    inversion Hrun; subst.
    change ((t, a) :: tr1) with ([(t, a)] ++ tr1). rewrite app_assoc.
    eapply IH; [|exact Hrest]. eapply ledgers_step; eassumption.
Qed.

(** C6, amended: along every run, with any schedule and any number of reset
    requests, each of the four stages other than the reader has posted its
    reset-ready signal once for every item it has read (the item in hand
    apart), [reset_requested] has waited once on each of the four signals
    per request, and each semaphore holds the posts not yet waited for. *)
Theorem reset_ready_posted_per_item_and_waited_once
    encrypt cap_in cap_out mem_in mem_out file sched tr s :
  run encrypt sched (initial cap_in cap_out mem_in mem_out file)
    = Some (tr, s) ->
  ledgers tr s.
Proof.
  intros Hrun.
  apply (ledgers_run encrypt sched [] _ tr s
           (ledgers_initial cap_in cap_out mem_in mem_out file) Hrun).
Qed.

(** ** Start-up *)

Lemma reset_ready_posted_per_item_and_waited_once_example :
  exists tr s,
    run (caesar 1) (rounds 1 ++ repeat TReset 13) (initial 1 1 [0] [0] [65])
      = Some (tr, s)
    /\ ledgers tr s.
Proof.
  destruct (run (caesar 1) (rounds 1 ++ repeat TReset 13)
              (initial 1 1 [0] [0] [65])) as [[tr s]|] eqn:Hrun;
    [|vm_compute in Hrun; discriminate Hrun].
  exists tr, s. split; [reflexivity|].
  exact (reset_ready_posted_per_item_and_waited_once
           (caesar 1) 1 1 [0] [0] [65] _ tr s Hrun).
Defined.

Lemma prompt_retries question bad v rest :
  Forall (fun x => x < 1) bad -> 1 <= v ->
  prompt question (bad ++ v :: rest) = (retries question bad, Some (v, rest)).
Proof.
  intros Hbad Hv.
  induction Hbad as [|x bad Hx _ IH]; simpl.
  - destruct (Z.ltb_spec v 1); [lia|reflexivity].
  - destruct (Z.ltb_spec x 1); [|lia]. rewrite IH. reflexivity.
Qed.

Lemma prompt_accepts question : forall stdin out v rest,
  prompt question stdin = (out, Some (v, rest)) -> 1 <= v.
Proof.
  induction stdin as [|x stdin IH]; intros out v rest H; simpl in H.
  - discriminate.
  - destruct (Z.ltb_spec x 1).
    + destruct (prompt question stdin) as [o r] eqn:E.
      inversion H; subst. eapply IH. reflexivity.
    + inversion H; subst. assumption.
Qed.

(** C7, amended: a capacity below 1 is answered with the message
    [invalid_buffer] and the same question again, for the input and for the
    output capacity, until a value of at least 1 is read; the threads start
    with the two values accepted, which are at least 1, and [main] never
    exits on an invalid capacity. *)
Theorem invalid_capacity_prompts_again bad1 cap_in bad2 cap_out rest :
  Forall (fun x => x < 1) bad1 -> 1 <= cap_in ->
  Forall (fun x => x < 1) bad2 -> 1 <= cap_out ->
  main 4 (bad1 ++ cap_in :: bad2 ++ cap_out :: rest) true
  = Launch cap_in cap_out
      (retries "Enter buffer size for the input: " bad1
       ++ retries "Enter buffer size for the output: " bad2)
  /\ (forall stdin alloc_ok a b out,
        main 4 stdin alloc_ok = Launch a b out -> 1 <= a /\ 1 <= b)
  /\ (forall stdin status out, main 4 stdin true <> Exit status out).
Proof.
  intros H1 Hn H2 Hm. split; [|split].
  - unfold main. simpl negb. cbv iota.
    rewrite (prompt_retries _ bad1 cap_in _ H1 Hn).
    rewrite (prompt_retries _ bad2 cap_out _ H2 Hm). reflexivity.
  - intros stdin alloc_ok a b out H. unfold main in H. simpl negb in H.
    cbv iota in H.
    destruct (prompt _ stdin) as [o1 [[v1 r1]|]] eqn:E1; [|discriminate].
    destruct (prompt _ r1) as [o2 [[v2 r2]|]] eqn:E2; [|discriminate].
    destruct alloc_ok; [|discriminate]. inversion H; subst.
    split; eapply prompt_accepts; eassumption.
  - intros stdin status out H. unfold main in H. simpl negb in H.
    cbv iota in H.
    destruct (prompt _ stdin) as [o1 [[v1 r1]|]]; [|discriminate].
    destruct (prompt _ r1) as [o2 [[v2 r2]|]]; discriminate.
Qed.

Lemma invalid_capacity_prompts_again_example :
  (Forall (fun x => x < 1) [0; -5] /\ 1 <= 3
   /\ Forall (fun x => x < 1) [0] /\ 1 <= 2)
  /\ main 4 ([0; -5] ++ 3 :: [0] ++ 2 :: []) true
     = Launch 3 2
         (retries "Enter buffer size for the input: " [0; -5]
          ++ retries "Enter buffer size for the output: " [0]).
Proof.
  assert (H1 : Forall (fun x => x < 1) [0; -5])
    by (repeat constructor; lia).
  assert (H2 : Forall (fun x => x < 1) [0]) by (repeat constructor; lia).
  assert (Hn : 1 <= 3) by lia. assert (Hm : 1 <= 2) by lia.
  split; [auto|].
  exact (proj1 (invalid_capacity_prompts_again [0; -5] 3 [0] 2 [] H1 Hn H2 Hm)).
Defined.

(** ** What a reset touches *)

Lemma reset_progress_step encrypt k s0 s tr a s' :
  (reset_index (pc_reset s0) <= k)%nat ->
  reset_progress k s0 s tr -> step encrypt TReset s = Some (a, s') ->
  (k < 12)%nat ->
  reset_progress (S k) s0 s' (tr ++ [(TReset, a)]).
Proof.
  intros H0 (Hk & Hb & Hsnk & Hsrc & Hv & Hf & Hlog) Hstep Hlt.
  simpl in Hstep. unfold resetThread, reset_requested, reset_finished in Hstep.
  unfold reset_progress.
  destruct (pc_reset s) eqn:Hpc; simpl in Hk; subst k;
    try (exfalso; lia);
    invert_step Hstep; cbn;
    (split; [reflexivity|]);
    (split; [assumption|]); (split; [assumption|]); (split; [assumption|]);
    (split; [intros v; specialize (Hv v); destruct v; cbn in *; first [assumption | reflexivity]|]);
    (split; [cbn in Hf; lia|]);
    intros Hge; try (exfalso; lia).
  apply in_or_app. right. left. reflexivity.
Qed.

Lemma reset_progress_run encrypt j : forall k s0 s tr0 tr s',
  (reset_index (pc_reset s0) <= k)%nat ->
  reset_progress k s0 s tr0 -> (k + j <= 12)%nat ->
  run encrypt (repeat TReset j) s = Some (tr, s') ->
  reset_progress (k + j) s0 s' (tr0 ++ tr).
Proof.
  induction j as [|j IH]; intros k s0 s tr0 tr s' H0 Hp Hle Hrun;
    simpl in Hrun.
  - inversion Hrun; subst. rewrite Nat.add_0_r, app_nil_r. exact Hp.
  - destruct (resetThread s) as [[a s1]|] eqn:Hstep; [|discriminate].
    destruct (run encrypt (repeat TReset j) s1) as [[tr1 s2]|] eqn:Hrest;
      [|discriminate].
    inversion Hrun; subst.
    change ((TReset, a) :: tr1) with ([(TReset, a)] ++ tr1).
    rewrite app_assoc. replace (k + S j)%nat with (S k + j)%nat by lia.
    eapply (IH (S k)); [lia| |lia|exact Hrest].
    eapply (reset_progress_step encrypt); [exact H0|exact Hp|exact Hstep|lia].
Qed.

Lemma reset_requested_step_frame s a s' :
  reset_requested s = Some (a, s') ->
  bufs s' input_buffer = bufs s input_buffer
  /\ bufs s' output_buffer = bufs s output_buffer
  /\ vars s' n = vars s n /\ vars s' m = vars s m
  /\ sink s' = sink s /\ source s' = source s
  /\ (forall v, vars s' v <> vars s v ->
                zeroed_from v <> None /\ vars s' v = 0).
Proof.
  intros H. unfold reset_requested in H.
  destruct (pc_reset s); invert_step H; cbn;
    repeat (split; [reflexivity|]);
    intros v Hv; destruct v; cbn in Hv |- *;
    try congruence; (split; [discriminate|reflexivity]).
Qed.

Lemma reset_requested_step_frame_example :
  let s := assign input_buffer_in 1
             (set_pc_reset X_zero_input_in
                (initial 2 2 [65; 0] [66; 0] [])) in
  exists a s',
    reset_requested s = Some (a, s')
    /\ bufs s' input_buffer = bufs s input_buffer
    /\ bufs s' output_buffer = bufs s output_buffer
    /\ vars s' n = vars s n /\ vars s' m = vars s m
    /\ sink s' = sink s /\ source s' = source s
    /\ (forall v, vars s' v <> vars s v ->
                  zeroed_from v <> None /\ vars s' v = 0).
Proof.
  intros s.
  destruct (reset_requested s) as [[a s']|] eqn:Hstep;
    [|vm_compute in Hstep; discriminate Hstep].
  exists a, s'. split; [reflexivity|].
  exact (reset_requested_step_frame s a s' Hstep).
Defined.

(** C10: a call of [reset_requested] that runs from its first statement to
    its last leaves the contents of both buffers, [n], [m] and the sink as
    they were, sets the four cursors and the two counters to 0 and calls
    [log_counts] once. *)
Theorem reset_requested_frame encrypt s tr s' :
  pc_reset s = X_idle ->
  run encrypt (repeat TReset 12) s = Some (tr, s') ->
  pc_reset s' = X_finished
  /\ bufs s' input_buffer = bufs s input_buffer
  /\ bufs s' output_buffer = bufs s output_buffer
  /\ vars s' n = vars s n /\ vars s' m = vars s m
  /\ sink s' = sink s
  /\ vars s' input_buffer_in = 0 /\ vars s' input_buffer_out = 0
  /\ vars s' output_buffer_in = 0 /\ vars s' output_buffer_out = 0
  /\ vars s' input_count = 0 /\ vars s' output_count = 0
  /\ flushes s' = S (flushes s)
  /\ In (TReset, CallLogCounts) tr.
Proof.
  intros Hpc H.
  assert (Hp : reset_progress 0 s s []).
  { unfold reset_progress. rewrite Hpc. cbn.
    repeat (split; [reflexivity|]).
    split; [intros v; destruct v; reflexivity|].
    split; [lia|]. intros; lia. }
  apply (reset_progress_run encrypt 12 0 s s [] tr s') in H;
    [|rewrite Hpc; cbn; lia|exact Hp|lia].
  destruct H as (Hk & Hb & Hsnk & _ & Hv & Hf & Hlog).
  cbn in Hk, Hf, Hlog.
  split; [destruct (pc_reset s'); cbn in Hk; congruence|].
  rewrite Hb.
  repeat (split; [first [reflexivity | assumption | exact (Hv _)]|]).
  split; [lia|]. apply Hlog. lia.
Qed.

Lemma reset_requested_frame_example :
  exists s tr s',
    (pc_reset s = X_idle
     /\ run (caesar 1) (repeat TReset 12) s = Some (tr, s'))
    /\ pc_reset s' = X_finished
    /\ bufs s' input_buffer = bufs s input_buffer
    /\ bufs s' output_buffer = bufs s output_buffer
    /\ vars s' n = vars s n /\ vars s' m = vars s m
    /\ sink s' = sink s
    /\ vars s' input_buffer_in = 0 /\ vars s' input_buffer_out = 0
    /\ vars s' output_buffer_in = 0 /\ vars s' output_buffer_out = 0
    /\ vars s' input_count = 0 /\ vars s' output_count = 0
    /\ flushes s' = S (flushes s)
    /\ In (TReset, CallLogCounts) tr.
Proof.
  pose (s := mkState (init_vars 2 2)
               (fun b => match b with
                         | input_buffer => [65; 0]
                         | output_buffer => [66; 0]
                         end)
               (fun x => match x with
                         | counter_reset_ready | encryptor_reset_ready
                         | output_counter_reset_ready
                         | writer_reset_ready => 1%nat
                         | _ => 0%nat
                         end)
               false [66] [66] 0 65 65 65 66 66
               R_lock C_wait E_wait O_wait W_wait X_idle).
  assert (Hpc : pc_reset s = X_idle) by reflexivity.
  destruct (run (caesar 1) (repeat TReset 12) s) as [[tr s']|] eqn:Hrun;
    [|vm_compute in Hrun; discriminate Hrun].
  exists s, tr, s'. split; [split; [exact Hpc|exact Hrun]|].
  exact (reset_requested_frame (caesar 1) s tr s' Hpc Hrun).
Defined.


(** ** The hand-over invariant: auxiliary facts *)

Arguments slot : simpl never.
Arguments item : simpl never.
Arguments next : simpl never.
Arguments peek : simpl never.
Arguments Z.min : simpl never.
Arguments Z.of_nat : simpl never.
Arguments Z.to_nat : simpl never.
Arguments Z.add : simpl never.
Arguments Z.sub : simpl never.
Arguments skipn : simpl never.
Arguments firstn : simpl never.
Arguments to_char : simpl never.

Lemma slot_range cap x : 1 <= cap -> 0 <= slot cap x < cap.
Proof. intros H. unfold slot. apply Z.mod_pos_bound. lia. Qed.

Lemma next_slot cap x :
  1 <= cap -> next (slot cap x) cap = slot cap (x + 1).
Proof.
  intros H. unfold next, slot.
  rewrite Z.rem_mod_nonneg.
  - rewrite Z.add_mod_idemp_l by lia. reflexivity.
  - pose proof (Z.mod_pos_bound x cap). lia.
  - lia.
Qed.

Lemma length_poke i c l : List.length (poke i c l) = List.length l.
Proof.
  revert i; induction l as [|h t IH]; intros [|j]; simpl; auto.
Qed.

Lemma nth_poke i c l d :
  (i < List.length l)%nat -> nth i (poke i c l) d = c.
Proof.
  revert i; induction l as [|h t IH]; intros [|j] H; simpl in *;
    try lia; auto. apply IH. lia.
Qed.

Lemma peek_poke i c l :
  0 <= i < Z.of_nat (List.length l) -> peek i (poke (Z.to_nat i) c l) = c.
Proof. intros H. unfold peek. apply nth_poke. lia. Qed.

Lemma item_past l i : Z.of_nat (List.length l) <= i -> item l i = EOF.
Proof. intros H. unfold item. apply nth_overflow. lia. Qed.

Lemma item_within l i :
  Forall (fun c => c <> EOF) l ->
  0 <= i < Z.of_nat (List.length l) -> item l i <> EOF.
Proof.
  intros Hall H. unfold item.
  rewrite Forall_forall in Hall. apply Hall. apply nth_In. lia.
Qed.

Lemma item_eof_iff l i :
  Forall (fun c => c <> EOF) l -> 0 <= i ->
  (item l i = EOF <-> Z.of_nat (List.length l) <= i).
Proof.
  intros Hall Hi. split.
  - intros H. destruct (Z.lt_ge_cases i (Z.of_nat (List.length l)));
      [|assumption].
    exfalso. apply (item_within l i Hall); [lia|assumption].
  - apply item_past.
Qed.

Lemma item_map f l i :
  0 <= i < Z.of_nat (List.length l) ->
  item (map f l) i = f (nth (Z.to_nat i) l 0).
Proof.
  intros H. unfold item.
  rewrite (nth_indep _ EOF (f 0)) by (rewrite length_map; lia).
  apply map_nth.
Qed.

Lemma skipn_cons_nth (l : list Z) k b rest :
  skipn k l = b :: rest ->
  (k < List.length l)%nat /\ rest = skipn (S k) l /\ nth k l 0 = b.
Proof.
  revert k; induction l as [|h t IH]; intros [|k] H; simpl in *;
    try discriminate.
  - inversion H; subst. split; [lia|]. split; reflexivity.
  - destruct (IH _ H) as (? & ? & ?). split; [lia|]. split; assumption.
Qed.

Lemma skipn_nil_length (l : list Z) k :
  skipn k l = [] -> (List.length l <= k)%nat.
Proof.
  revert k; induction l as [|h t IH]; intros [|k] H; simpl in *;
    try discriminate; try lia.
  specialize (IH _ H). lia.
Qed.

Lemma firstn_item_snoc l i :
  0 <= i < Z.of_nat (List.length l) ->
  firstn (Z.to_nat i) l ++ [item l i] = firstn (Z.to_nat (i + 1)) l.
Proof.
  intros H. unfold item.
  replace (Z.to_nat (i + 1)) with (S (Z.to_nat i)) by lia.
  assert (Hlt : (Z.to_nat i < List.length l)%nat) by lia.
  clear H. revert Hlt. generalize (Z.to_nat i) as k.
  induction l as [|h t IH]; intros [|k] Hlt; simpl in *; try lia.
  - reflexivity.
  - rewrite IH by lia. reflexivity.
Qed.

Lemma firstn_past (l : list Z) i j :
  Z.of_nat (List.length l) <= i -> Z.of_nat (List.length l) <= j ->
  firstn (Z.to_nat i) l = firstn (Z.to_nat j) l.
Proof.
  intros Hi Hj. rewrite !firstn_all2 by lia. reflexivity.
Qed.

(** Closing one field of the invariant after a step. *)
Ltac ho_field :=
  first
    [ assumption
    | lia
    | intros; lia
    | match goal with
      | H : ?x = slot ?c _ |- ?x = slot ?c _ => rewrite H; f_equal; lia
      | H : ?x = slot ?c _, Hc : ?y = ?c
        |- next ?x ?y = slot ?c _ =>
          rewrite Hc, H, next_slot by assumption; f_equal; lia
      | H : sink _ = firstn _ _ |- sink _ = firstn _ _ =>
          rewrite H; f_equal; lia
      | H : _ -> ?x = item ?l _ |- _ -> ?x = item ?l _ =>
          let G := fresh in
          intros G; rewrite H by lia; f_equal; lia
      | H : _ -> peek _ ?b = item ?l _ |- _ -> peek _ ?b = item ?l _ =>
          let G := fresh in
          intros G;
          match goal with
          | |- peek (slot ?c ?i) _ = item _ ?j =>
              match type of H with
              | _ -> peek (slot _ ?i') _ = item _ ?j' =>
                  replace i with i' by lia; replace j with j' by lia;
                  apply H; lia
              end
          end
      end ].

(** The cases of a successful step, keeping the variables of the context. *)
Ltac step_cases H :=
  repeat match type of H with
    | context [sem_wait ?x ?s] =>
        let E := fresh "Hwait" in
        destruct (sem_wait x s) eqn:E;
        [ apply sem_wait_some in E; destruct E as (? & E & ->)
        | discriminate H ]
    | context [mutex_lock ?s] =>
        let E := fresh "Hlock" in
        destruct (mutex_lock s) eqn:E;
        [ apply mutex_lock_some in E; destruct E as (E & ->)
        | discriminate H ]
    | context [?c =? EOF] =>
        let E := fresh "Heof" in destruct (Z.eqb_spec c EOF) as [E|E]
    | context [read_input ?s] =>
        let E := fresh "Hsrc" in
        unfold read_input in H; destruct (source s) eqn:E
    end;
  first [ discriminate H | injection H as <- <- ].

Ltac ho_goal :=
  cbn [r_reads e_takes w_takes]; rewrite ?Z.add_0_r.

Ltac ho_open Hpc :=
  constructor; cbn in *; try rewrite Hpc in *; cbn in *.

Ltac ho_close pcE :=
  try ho_field;
  try (destruct pcE eqn:?; cbn in *; ho_field).

Section HandOverProofs.

Variable encrypt : Z -> Z.
Variables cap_in cap_out : Z.
Variable file : list Z.
Hypothesis cap_in_pos : 1 <= cap_in.
Hypothesis cap_out_pos : 1 <= cap_out.
Hypothesis plain_clean : Forall (fun c => c <> EOF) (plain file).
Hypothesis cipher_clean : Forall (fun c => c <> EOF) (cipher encrypt file).

Local Abbreviation K := (Z.of_nat (List.length file)).
Local Abbreviation HO := (hand_over encrypt cap_in cap_out file).

Lemma plain_length : Z.of_nat (List.length (plain file)) = K.
Proof. unfold plain. rewrite length_map. reflexivity. Qed.

Lemma cipher_length : Z.of_nat (List.length (cipher encrypt file)) = K.
Proof. unfold cipher, plain. rewrite !length_map. reflexivity. Qed.

Lemma plain_eof_iff i : 0 <= i -> (item (plain file) i = EOF <-> K <= i).
Proof.
  intros H. rewrite <- plain_length. apply item_eof_iff; assumption.
Qed.

Lemma cipher_eof_iff i :
  0 <= i -> (item (cipher encrypt file) i = EOF <-> K <= i).
Proof.
  intros H. rewrite <- cipher_length. apply item_eof_iff; assumption.
Qed.

Lemma cipher_item i :
  0 <= i < K ->
  to_char (encrypt (item (plain file) i)) = item (cipher encrypt file) i.
Proof.
  intros H. unfold cipher.
  rewrite (item_map (fun c => to_char (encrypt c)) (plain file) i)
    by (rewrite plain_length; lia).
  unfold item. f_equal. f_equal. apply nth_indep.
  pose proof plain_length. lia.
Qed.

Lemma to_char_EOF : to_char EOF = EOF.
Proof. reflexivity. Qed.

Lemma hand_over_reader_exact s rd e w a s' :
  HO s rd e w -> readerThread s = Some (a, s') ->
  HO s' (rd + r_reads (pc_reader s)) e w.
Proof.
  intros [ho_n ho_m ho_len_in ho_len_out ho_rd ho_rd_end ho_source ho_c_reader
          ho_in ho_cell_in ho_e ho_e_end ho_c_encryptor ho_out ho_data_ready
          ho_done ho_out_in ho_cell_out ho_w ho_w_end ho_c_writer ho_out_out
          ho_writer_ready ho_writer_done ho_sink] Hstep. unfold readerThread in Hstep.
  destruct (pc_reader s) eqn:Hpc; step_cases Hstep.
  - ho_goal. ho_open Hpc; ho_close (pc_encryptor s).
  - (* read_input at the end of the file *)
    assert (K <= rd).
    { symmetry in ho_source.
      apply skipn_nil_length in ho_source. cbn in *. lia. }
    ho_goal. ho_open Hpc; ho_close (pc_encryptor s).
    + rewrite Hsrc. symmetry. apply skipn_all2. lia.
    + intros _. rewrite to_char_EOF. symmetry.
      apply item_past. rewrite plain_length. lia.
  - (* read_input gives a byte *)
    symmetry in ho_source.
    apply skipn_cons_nth in ho_source.
    destruct ho_source as (Hlt & Hrest & Hnth).
    ho_goal. ho_open Hpc; ho_close (pc_encryptor s).
    + rewrite Hrest. f_equal. lia.
    + intros _. replace (rd + 1 - 1) with rd by lia.
      unfold plain. rewrite item_map by lia. rewrite Hnth. reflexivity.
  - (* the store into the input buffer *)
    ho_goal. ho_open Hpc; ho_close (pc_encryptor s).
    + rewrite length_poke. assumption.
    + intros _. rewrite ho_in. replace (rd - 0 - 1) with (rd - 1) by lia.
      rewrite peek_poke.
      * apply ho_c_reader. reflexivity.
      * rewrite ho_len_in, <- ho_n. apply slot_range. lia.
  - ho_goal. ho_open Hpc; ho_close (pc_encryptor s).
  - ho_goal. ho_open Hpc; ho_close (pc_encryptor s).
  - ho_goal. ho_open Hpc; ho_close (pc_encryptor s).
  - ho_goal. ho_open Hpc; ho_close (pc_encryptor s).
  - ho_goal. ho_open Hpc; ho_close (pc_encryptor s).
  - (* leaving the loop on the end-of-stream character *)
    assert (rd = K + 1).
    { cbn in *.
      rewrite ho_c_reader in Heof by reflexivity.
      apply plain_eof_iff in Heof; lia. }
    ho_goal. ho_open Hpc; ho_close (pc_encryptor s).
  - (* looping *)
    assert (rd <= K).
    { cbn in *.
      rewrite ho_c_reader in Heof by reflexivity.
      destruct (Z.le_gt_cases rd K); [assumption|].
      exfalso. apply Heof. apply plain_eof_iff; lia. }
    ho_goal. ho_open Hpc; ho_close (pc_encryptor s).
  - ho_goal. ho_open Hpc; ho_close (pc_encryptor s).
  - ho_goal. ho_open Hpc; ho_close (pc_encryptor s).
Qed.

Lemma hand_over_reader s rd e w a s' :
  HO s rd e w -> readerThread s = Some (a, s') ->
  exists rd', HO s' rd' e w.
Proof.
  intros H1 H2. eexists. eapply hand_over_reader_exact; eassumption.
Qed.

Lemma hand_over_encryptor_exact s rd e w a s' :
  HO s rd e w -> encryptorThread encrypt s = Some (a, s') ->
  HO s' rd (e + e_takes (pc_encryptor s)) w.
Proof.
  intros [ho_n ho_m ho_len_in ho_len_out ho_rd ho_rd_end ho_source ho_c_reader
          ho_in ho_cell_in ho_e ho_e_end ho_c_encryptor ho_out ho_data_ready
          ho_done ho_out_in ho_cell_out ho_w ho_w_end ho_c_writer ho_out_out
          ho_writer_ready ho_writer_done ho_sink] Hstep. unfold encryptorThread in Hstep.
  destruct (pc_encryptor s) eqn:Hpc; step_cases Hstep.
  - ho_goal. ho_open Hpc; ho_close (pc_reader s).
  - (* the load from the input buffer: the reader has stored item e - 1 *)
    assert (Hlast : rd - r_unstored (pc_reader s) = e)
      by (cbn in *; destruct (pc_reader s); cbn in *; lia).
    ho_goal. ho_open Hpc; ho_close (pc_reader s).
    intros _. rewrite ho_out. replace (e - 1) with (e - 1 - 0) at 1 by lia.
    rewrite <- Hlast at 1 2. replace (rd - r_unstored (pc_reader s) - 1 - 0)
      with (rd - r_unstored (pc_reader s) - 1) by lia.
    rewrite ho_cell_in by lia. f_equal; lia.
  - ho_goal. ho_open Hpc; ho_close (pc_reader s).
  - (* the end of the stream: nothing to store *)
    assert (e = K + 1).
    { cbn in *. rewrite ho_c_encryptor in Heof by reflexivity.
      apply plain_eof_iff in Heof; lia. }
    ho_goal. ho_open Hpc; ho_close (pc_reader s).
  - assert (e <= K).
    { cbn in *. rewrite ho_c_encryptor in Heof by reflexivity.
      destruct (Z.le_gt_cases e K); [assumption|].
      exfalso. apply Heof. apply plain_eof_iff; lia. }
    ho_goal. ho_open Hpc; ho_close (pc_reader s).
  - (* the store into the output buffer *)
    ho_goal. ho_open Hpc; ho_close (pc_reader s).
    + rewrite length_poke. assumption.
    + intros _. rewrite ho_out_in.
      replace (e - 1 - 0) with (e - 1) by lia.
      replace (e - 0 - 1) with (e - 1) by lia.
      rewrite peek_poke.
      * rewrite ho_c_encryptor by reflexivity. apply cipher_item. lia.
      * rewrite ho_len_out, <- ho_m. apply slot_range. lia.
  - ho_goal. ho_open Hpc; ho_close (pc_reader s).
  - ho_goal. ho_open Hpc; ho_close (pc_reader s).
  - ho_goal. ho_open Hpc; ho_close (pc_reader s).
  - assert (e = K + 1).
    { cbn in *. rewrite ho_c_encryptor in Heof by reflexivity.
      apply plain_eof_iff in Heof; lia. }
    ho_goal. ho_open Hpc; ho_close (pc_reader s).
  - assert (e <= K).
    { cbn in *. rewrite ho_c_encryptor in Heof by reflexivity.
      destruct (Z.le_gt_cases e K); [assumption|].
      exfalso. apply Heof. apply plain_eof_iff; lia. }
    ho_goal. ho_open Hpc; ho_close (pc_reader s).
  - ho_goal. ho_open Hpc; ho_close (pc_reader s).
  - (* after the two waits the character cannot be the end of the stream *)
    exfalso. cbn in *. rewrite ho_c_encryptor in Heof by reflexivity.
    apply plain_eof_iff in Heof; lia.
  - ho_goal. ho_open Hpc; ho_close (pc_reader s).
  - (* the store of the end-of-stream character *)
    assert (e = K + 1) by (cbn in *; lia).
    ho_goal. ho_open Hpc; ho_close (pc_reader s).
    + rewrite length_poke. assumption.
    + intros _. rewrite ho_out_in.
      replace (e - 1 - 0) with (e - 1) by lia.
      replace (e - 0 - 1) with (e - 1) by lia.
      rewrite peek_poke.
      * symmetry. apply item_past. rewrite cipher_length. lia.
      * rewrite ho_len_out, <- ho_m. apply slot_range. lia.
  - ho_goal. ho_open Hpc; ho_close (pc_reader s).
  - ho_goal. ho_open Hpc; ho_close (pc_reader s).
  - ho_goal. ho_open Hpc; ho_close (pc_reader s).
Qed.

Lemma hand_over_encryptor s rd e w a s' :
  HO s rd e w -> encryptorThread encrypt s = Some (a, s') ->
  exists e', HO s' rd e' w.
Proof.
  intros H1 H2. eexists. eapply hand_over_encryptor_exact; eassumption.
Qed.

Lemma hand_over_writer_exact s rd e w a s' :
  HO s rd e w -> writerThread s = Some (a, s') ->
  HO s' rd e (w + w_takes (pc_writer s)).
Proof.
  intros [ho_n ho_m ho_len_in ho_len_out ho_rd ho_rd_end ho_source ho_c_reader
          ho_in ho_cell_in ho_e ho_e_end ho_c_encryptor ho_out ho_data_ready
          ho_done ho_out_in ho_cell_out ho_w ho_w_end ho_c_writer ho_out_out
          ho_writer_ready ho_writer_done ho_sink] Hstep. unfold writerThread in Hstep.
  destruct (pc_writer s) eqn:Hpc; step_cases Hstep.
  - ho_goal. ho_open Hpc; ho_close (pc_encryptor s).
  - (* the load from the output buffer: the encryptor has stored item w - 1 *)
    assert (Hlast : e - e_unstored K (pc_encryptor s) e = w)
      by (cbn in *; destruct (pc_encryptor s); cbn in *; lia).
    ho_goal. ho_open Hpc; ho_close (pc_encryptor s).
    intros _. rewrite ho_out_out. replace (w - 1) with (w - 1 - 0) at 1 by lia.
    rewrite <- Hlast at 1 2.
    replace (e - e_unstored K (pc_encryptor s) e - 1 - 0)
      with (e - e_unstored K (pc_encryptor s) e - 1) by lia.
    rewrite ho_cell_out by lia. f_equal; lia.
  - ho_goal. ho_open Hpc; ho_close (pc_encryptor s).
  - (* the end of the stream: nothing is written *)
    assert (w = K + 1).
    { cbn in *. rewrite ho_c_writer in Heof by reflexivity.
      apply cipher_eof_iff in Heof; lia. }
    ho_goal. ho_open Hpc; ho_close (pc_encryptor s).
    rewrite ho_sink. apply firstn_past; rewrite cipher_length; lia.
  - (* write_output *)
    assert (w <= K).
    { cbn in *. rewrite ho_c_writer in Heof by reflexivity.
      destruct (Z.le_gt_cases w K); [assumption|].
      exfalso. apply Heof. apply cipher_eof_iff; lia. }
    ho_goal. ho_open Hpc; ho_close (pc_encryptor s).
    unfold write_output. cbn. rewrite ho_sink, ho_c_writer by reflexivity.
    rewrite firstn_item_snoc by (rewrite cipher_length; lia).
    f_equal; f_equal; lia.
  - ho_goal. ho_open Hpc; ho_close (pc_encryptor s).
  - assert (w = K + 1).
    { cbn in *. rewrite ho_c_writer in Heof by reflexivity.
      apply cipher_eof_iff in Heof; lia. }
    ho_goal. ho_open Hpc; ho_close (pc_encryptor s).
  - assert (w <= K).
    { cbn in *. rewrite ho_c_writer in Heof by reflexivity.
      destruct (Z.le_gt_cases w K); [assumption|].
      exfalso. apply Heof. apply cipher_eof_iff; lia. }
    ho_goal. ho_open Hpc; ho_close (pc_encryptor s).
Qed.

Lemma hand_over_writer s rd e w a s' :
  HO s rd e w -> writerThread s = Some (a, s') ->
  exists w', HO s' rd e w'.
Proof.
  intros H1 H2. eexists. eapply hand_over_writer_exact; eassumption.
Qed.

Lemma hand_over_input_counter s rd e w a s' :
  HO s rd e w -> inputCounterThread s = Some (a, s') -> HO s' rd e w.
Proof.
  intros [ho_n ho_m ho_len_in ho_len_out ho_rd ho_rd_end ho_source ho_c_reader
          ho_in ho_cell_in ho_e ho_e_end ho_c_encryptor ho_out ho_data_ready
          ho_done ho_out_in ho_cell_out ho_w ho_w_end ho_c_writer ho_out_out
          ho_writer_ready ho_writer_done ho_sink] Hstep. unfold inputCounterThread in Hstep.
  destruct (pc_counter s) eqn:Hpc; step_cases Hstep;
    constructor; cbn; assumption.
Qed.

Lemma hand_over_output_counter s rd e w a s' :
  HO s rd e w -> outputCounterThread s = Some (a, s') -> HO s' rd e w.
Proof.
  intros [ho_n ho_m ho_len_in ho_len_out ho_rd ho_rd_end ho_source ho_c_reader
          ho_in ho_cell_in ho_e ho_e_end ho_c_encryptor ho_out ho_data_ready
          ho_done ho_out_in ho_cell_out ho_w ho_w_end ho_c_writer ho_out_out
          ho_writer_ready ho_writer_done ho_sink] Hstep. unfold outputCounterThread in Hstep.
  destruct (pc_ocounter s) eqn:Hpc; step_cases Hstep;
    constructor; cbn; assumption.
Qed.

Lemma hand_over_initial mem_in mem_out :
  Z.of_nat (List.length mem_in) = cap_in ->
  Z.of_nat (List.length mem_out) = cap_out ->
  HO (initial cap_in cap_out mem_in mem_out file) 0 0 0.
Proof.
  intros Hin Hout.
  constructor; cbn; try assumption; try reflexivity; try lia.
Qed.

Lemma hand_over_run sched : forall s rd e w tr s',
  ~ In TReset sched ->
  HO s rd e w -> run encrypt sched s = Some (tr, s') ->
  exists rd' e' w', HO s' rd' e' w'.
Proof.
  induction sched as [|t sched IH]; intros s rd e w tr s' Hno Hinv Hrun;
    simpl in Hrun.
  - inversion Hrun; subst. eauto.
  - destruct (step encrypt t s) as [[a s1]|] eqn:Hstep; [|discriminate].
    destruct (run encrypt sched s1) as [[tr1 s2]|] eqn:Hrest; [|discriminate].
    inversion Hrun; subst s2. clear Hrun.
    assert (Hno' : ~ In TReset sched) by (intros H; apply Hno; right; exact H).
    destruct t; simpl in Hstep.
    + destruct (hand_over_reader _ _ _ _ _ _ Hinv Hstep) as [rd1 H1].
      eapply IH; eassumption.
    + pose proof (hand_over_input_counter _ _ _ _ _ _ Hinv Hstep) as H1.
      eapply IH; eassumption.
    + destruct (hand_over_encryptor _ _ _ _ _ _ Hinv Hstep) as [e1 H1].
      eapply IH; eassumption.
    + pose proof (hand_over_output_counter _ _ _ _ _ _ Hinv Hstep) as H1.
      eapply IH; eassumption.
    + destruct (hand_over_writer _ _ _ _ _ _ Hinv Hstep) as [w1 H1].
      eapply IH; eassumption.
    + exfalso. apply Hno. left. reflexivity.
Qed.

(** *** A schedule that completes *)

Lemma run_cons_some t sched s a s1 tr s2 :
  step encrypt t s = Some (a, s1) ->
  run encrypt sched s1 = Some (tr, s2) ->
  run encrypt (t :: sched) s = Some ((t, a) :: tr, s2).
Proof. intros H1 H2. simpl. rewrite H1, H2. reflexivity. Qed.

(** One step of a schedule on a state written out as a record. *)
Ltac flatten_state :=
  cbv [set_vars set_bufs set_sems set_lock set_source set_sink set_flushes
       set_c_reader set_c_counter set_c_encryptor set_c_ocounter set_c_writer
       set_pc_reader set_pc_counter set_pc_encryptor set_pc_ocounter
       set_pc_writer set_pc_reset
       assign store sem_post mutex_unlock
       count_input count_output write_output log_counts
       vars bufs sems reader_lock source sink flushes
       c_reader c_counter c_encryptor c_ocounter c_writer
       pc_reader pc_counter pc_encryptor pc_ocounter pc_writer pc_reset].

Ltac sym_step norm :=
  eapply run_cons_some;
  [ cbn; repeat (progress norm; cbn); reflexivity | flatten_state ].

Lemma item_round_runs s b rest :
  at_rest s -> source s = b :: rest ->
  to_char b <> EOF -> to_char (encrypt (to_char b)) <> EOF ->
  vars s input_buffer_out = vars s input_buffer_in ->
  vars s output_buffer_out = vars s output_buffer_in ->
  0 <= vars s input_buffer_in
    < Z.of_nat (List.length (bufs s input_buffer)) ->
  0 <= vars s output_buffer_in
    < Z.of_nat (List.length (bufs s output_buffer)) ->
  exists tr s',
    run encrypt item_round s = Some (tr, s')
    /\ at_rest s' /\ source s' = rest.
Proof.
  intros (HR & HC & HE & HO' & HW & Hlk & S1 & S2 & S3 & S4 & S5 & S6 & S7
          & S8) Hsrc Hb Hc Hio Hoo Hri Hro.
  destruct s as [vs bs ss lk src snk fl cr cc ce co cw pr pcn pe po pw px].
  cbn in * |-. subst pr pcn pe po pw lk src.
  apply Z.eqb_neq in Hb, Hc.
  pose proof (peek_poke _ (to_char b) _ Hri) as P1.
  pose proof (peek_poke _ (to_char (encrypt (to_char b))) _ Hro) as P2.
  do 2 eexists. split.
  - cbv [item_round repeat app].
    do 36 sym_step ltac:(rewrite ?Hio, ?Hoo, ?P1, ?P2, ?Hb, ?Hc).
    reflexivity.
  - cbn. repeat split; assumption.
Qed.

Lemma eof_round_runs s :
  at_rest s -> source s = [] ->
  vars s input_buffer_out = vars s input_buffer_in ->
  vars s output_buffer_out = vars s output_buffer_in ->
  0 <= vars s input_buffer_in
    < Z.of_nat (List.length (bufs s input_buffer)) ->
  0 <= vars s output_buffer_in
    < Z.of_nat (List.length (bufs s output_buffer)) ->
  exists tr s',
    run encrypt eof_round s = Some (tr, s') /\ all_returned s'.
Proof.
  intros (HR & HC & HE & HO' & HW & Hlk & S1 & S2 & S3 & S4 & S5 & S6 & S7
          & S8) Hsrc Hio Hoo Hri Hro.
  destruct s as [vs bs ss lk src snk fl cr cc ce co cw pr pcn pe po pw px].
  cbn in * |-. subst pr pcn pe po pw lk src.
  pose proof (peek_poke _ EOF _ Hri) as P1.
  pose proof (peek_poke _ EOF _ Hro) as P2.
  assert (He : (EOF =? EOF) = true) by reflexivity.
  do 2 eexists. split.
  - cbv [eof_round repeat app].
    do 36 sym_step ltac:(rewrite ?to_char_EOF, ?Hio, ?Hoo, ?P1, ?P2, ?He).
    reflexivity.
  - cbn. repeat split.
Qed.

Lemma at_rest_indices s rd e w :
  at_rest s -> HO s rd e w -> rd = e /\ w = e /\ 0 <= e <= K.
Proof.
  intros (HR & HC & HE & HO' & HW & Hlk & S1 & S2 & S3 & S4 & S5 & S6 & S7
          & S8)
         [ho_n ho_m ho_len_in ho_len_out ho_rd ho_rd_end ho_source ho_c_reader
          ho_in ho_cell_in ho_e ho_e_end ho_c_encryptor ho_out ho_data_ready
          ho_done ho_out_in ho_cell_out ho_w ho_w_end ho_c_writer ho_out_out
          ho_writer_ready ho_writer_done ho_sink].
  rewrite HR, HE, HW, ?S2, ?S4 in *. cbn in *. lia.
Qed.

Lemma at_rest_cursors s e :
  at_rest s -> HO s e e e ->
  vars s input_buffer_out = vars s input_buffer_in
  /\ vars s output_buffer_out = vars s output_buffer_in
  /\ 0 <= vars s input_buffer_in
       < Z.of_nat (List.length (bufs s input_buffer))
  /\ 0 <= vars s output_buffer_in
       < Z.of_nat (List.length (bufs s output_buffer)).
Proof.
  intros (HR & HC & HE & HO' & HW & Hlk & S1 & S2 & S3 & S4 & S5 & S6 & S7
          & S8)
         [ho_n ho_m ho_len_in ho_len_out ho_rd ho_rd_end ho_source ho_c_reader
          ho_in ho_cell_in ho_e ho_e_end ho_c_encryptor ho_out ho_data_ready
          ho_done ho_out_in ho_cell_out ho_w ho_w_end ho_c_writer ho_out_out
          ho_writer_ready ho_writer_done ho_sink].
  rewrite HR, HE, HW in *. cbn in *.
  rewrite ho_in, ho_out, ho_out_in, ho_out_out, ho_len_in, ho_len_out.
  rewrite !Z.sub_0_r.
  repeat split; try apply slot_range; assumption.
Qed.

Lemma skipn_lt_cons (l : list Z) k :
  (k < List.length l)%nat -> exists b rest, skipn k l = b :: rest.
Proof.
  revert k; induction l as [|h t IH]; intros [|k] H; simpl in *; try lia.
  - exists h, t. reflexivity.
  - apply (IH k). lia.
Qed.

Lemma item_round_no_reset : ~ In TReset item_round.
Proof.
  cbv [item_round repeat app In]. intros H.
  repeat (destruct H as [H|H]; [discriminate H|]). exact H.
Qed.

Lemma rounds_complete k : forall s j,
  at_rest s -> HO s j j j -> K - j = Z.of_nat k ->
  exists tr s', run encrypt (rounds k) s = Some (tr, s') /\ all_returned s'.
Proof.
  induction k as [|k IH]; intros s j Hrest Hinv Hk.
  - destruct (at_rest_cursors _ _ Hrest Hinv) as (Hio & Hoo & Hri & Hro).
    apply eof_round_runs; try assumption.
    destruct Hinv as [ho_n ho_m ho_len_in ho_len_out ho_rd ho_rd_end ho_source ho_c_reader
          ho_in ho_cell_in ho_e ho_e_end ho_c_encryptor ho_out ho_data_ready
          ho_done ho_out_in ho_cell_out ho_w ho_w_end ho_c_writer ho_out_out
          ho_writer_ready ho_writer_done ho_sink].
    rewrite ho_source. apply skipn_all2. lia.
  - destruct (at_rest_cursors _ _ Hrest Hinv) as (Hio & Hoo & Hri & Hro).
    destruct (at_rest_indices _ _ _ _ Hrest Hinv) as (_ & _ & Hj).
    destruct (skipn_lt_cons file (Z.to_nat j)) as (b & rest & Hsk); [lia|].
    pose proof (skipn_cons_nth _ _ _ _ Hsk) as (_ & Hrest_eq & Hnth).
    assert (Hb : to_char b = item (plain file) j).
    { unfold plain. rewrite item_map by lia. rewrite Hnth. reflexivity. }
    assert (Hbn : to_char b <> EOF).
    { rewrite Hb. intros He. apply plain_eof_iff in He; lia. }
    assert (Hcn : to_char (encrypt (to_char b)) <> EOF).
    { rewrite Hb, cipher_item by lia. intros He.
      apply cipher_eof_iff in He; lia. }
    destruct (item_round_runs s b rest Hrest) as (tr1 & s1 & Hrun & Hrest1
                                                  & Hsrc1);
      try assumption.
    { destruct Hinv as [ho_n ho_m ho_len_in ho_len_out ho_rd ho_rd_end ho_source ho_c_reader
          ho_in ho_cell_in ho_e ho_e_end ho_c_encryptor ho_out ho_data_ready
          ho_done ho_out_in ho_cell_out ho_w ho_w_end ho_c_writer ho_out_out
          ho_writer_ready ho_writer_done ho_sink].
      rewrite ho_source. exact Hsk. }
    destruct (hand_over_run _ _ _ _ _ _ _ item_round_no_reset Hinv Hrun)
      as (rd1 & e1 & w1 & Hinv1).
    destruct (at_rest_indices _ _ _ _ Hrest1 Hinv1) as (-> & -> & He1).
    assert (e1 = j + 1).
    { pose proof (ho_source _ _ _ _ _ _ _ _ Hinv1) as Hs.
      rewrite Hsrc1, Hrest_eq in Hs.
      apply (f_equal (@List.length Z)) in Hs. rewrite !length_skipn in Hs.
      lia. }
    subst e1.
    destruct (IH s1 (j + 1) Hrest1 Hinv1) as (tr2 & s2 & Hrun2 & Hall);
      [lia|].
    exists (tr1 ++ tr2), s2. split; [|exact Hall].
    change (rounds (S k)) with (item_round ++ rounds k).
    rewrite run_app, Hrun, Hrun2. reflexivity.
Qed.

Lemma rounds_no_reset k : ~ In TReset (rounds k).
Proof.
  induction k as [|k IH].
  - cbv [rounds eof_round repeat app In]. intros H.
    repeat (destruct H as [H|H]; [discriminate H|]). exact H.
  - change (rounds (S k)) with (item_round ++ rounds k).
    intros H. apply in_app_or in H. destruct H as [H|H].
    + exact (item_round_no_reset H).
    + exact (IH H).
Qed.

Lemma initial_at_rest mem_in mem_out :
  at_rest (initial cap_in cap_out mem_in mem_out file).
Proof. repeat split. Qed.

End HandOverProofs.

(** C1, counterexample: the byte 255 becomes the end-of-stream character when
    the reader stores it in its [char]; with the file holding that one byte
    every stage returns and the sink is empty. *)
Lemma byte_255_ends_the_stream : ~ every_byte_sequence_is_delivered (caesar 1).
Proof.
  intros H.
  assert (Hrun : exists tr s,
             run (caesar 1) eof_round (initial 1 1 [0] [0] [255])
               = Some (tr, s)
             /\ all_returned s /\ sink s = []).
  { do 2 eexists. split; [vm_compute; reflexivity|]. repeat split. }
  destruct Hrun as (tr & s & Hrun & Hall & Hsink).
  specialize (H 1 1 [0] [0] [255] eof_round tr s).
  rewrite Hsink in H.
  assert (Hne : [] = cipher (caesar 1) [255]).
  { apply H; try lia; try reflexivity; try assumption.
    repeat constructor; lia. }
  discriminate Hne.
Qed.

(** ** Properties of every run *)

(** A property of the trace and the state that every step keeps holds along
    every run. *)
Lemma run_invariant encrypt (P : list (tid * action) -> state -> Prop) :
  (forall tr s t a s',
      P tr s -> step encrypt t s = Some (a, s') -> P (tr ++ [(t, a)]) s') ->
  forall sched tr0 s0 tr s,
    P tr0 s0 -> run encrypt sched s0 = Some (tr, s) -> P (tr0 ++ tr) s.
Proof.
  intros Hstep.
  induction sched as [|t sched IH]; intros tr0 s0 tr s H0 Hrun;
    simpl in Hrun.
  - inversion Hrun; subst. rewrite app_nil_r. exact H0.
  - destruct (step encrypt t s0) as [[a s1]|] eqn:Hs; [|discriminate].
    destruct (run encrypt sched s1) as [[tr1 s2]|] eqn:Hrest; [|discriminate].
    inversion Hrun; subst.
    change ((t, a) :: tr1) with ([(t, a)] ++ tr1). rewrite app_assoc.
    eapply IH; [|exact Hrest]. eapply Hstep; eassumption.
Qed.

(** *** Buffer accesses stay inside the buffers *)

Lemma next_range x cap : 1 <= cap -> 0 <= x -> 0 <= next x cap < cap.
Proof.
  intros Hc Hx. unfold next. apply Z.rem_bound_pos; lia.
Qed.

Lemma cursors_ok_step encrypt cap_in cap_out t s a s' :
  1 <= cap_in -> 1 <= cap_out ->
  cursors_ok cap_in cap_out s -> step encrypt t s = Some (a, s') ->
  cursors_ok cap_in cap_out s' /\ access_ok cap_in cap_out (t, a).
Proof.
  intros Hci Hco (Hn & Hm & Hli & Hlo & H1 & H2 & H3 & H4) Hstep.
  unfold cursors_ok, access_ok.
  destruct t; simpl in Hstep;
    [ unfold readerThread in Hstep; destruct (pc_reader s)
    | unfold inputCounterThread in Hstep; destruct (pc_counter s)
    | unfold encryptorThread in Hstep; destruct (pc_encryptor s)
    | unfold outputCounterThread in Hstep; destruct (pc_ocounter s)
    | unfold writerThread in Hstep; destruct (pc_writer s)
    | unfold resetThread, reset_requested, reset_finished in Hstep;
      destruct (pc_reset s) ];
    invert_step Hstep; cbn; rewrite ?length_poke;
    repeat split; try assumption; try lia;
    try (apply next_range; lia).
Qed.

Theorem cursors_in_range
    encrypt cap_in cap_out mem_in mem_out file sched tr s :
  1 <= cap_in -> 1 <= cap_out ->
  Z.of_nat (List.length mem_in) = cap_in ->
  Z.of_nat (List.length mem_out) = cap_out ->
  run encrypt sched (initial cap_in cap_out mem_in mem_out file)
    = Some (tr, s) ->
  cursors_ok cap_in cap_out s /\ Forall (access_ok cap_in cap_out) tr.
Proof.
  intros Hci Hco Hli Hlo Hrun.
  apply (run_invariant encrypt
           (fun tr s => cursors_ok cap_in cap_out s
                        /\ Forall (access_ok cap_in cap_out) tr)
           ) with (sched := sched) (tr0 := []) (tr := tr) (s := s)
                  (s0 := initial cap_in cap_out mem_in mem_out file).
  - intros tr1 s1 t a s2 [Hc Hf] Hstep.
    destruct (cursors_ok_step encrypt cap_in cap_out t s1 a s2 Hci Hco Hc
                Hstep) as [Hc' Ha].
    split; [exact Hc'|]. apply Forall_app. split; [exact Hf|].
    constructor; [exact Ha|constructor].
  - split; [|constructor].
    unfold cursors_ok. cbn. repeat split; try assumption; lia.
  - exact Hrun.
Qed.

Lemma cursors_in_range_example :
  exists tr s,
    (1 <= 1 /\ 1 <= 2
     /\ Z.of_nat (List.length [0]) = 1 /\ Z.of_nat (List.length [0; 0]) = 2
     /\ run (caesar 1)
          (item_round ++ item_round_reset_in_flight ++ eof_round)
          (initial 1 2 [0] [0; 0] [65; 66]) = Some (tr, s))
    /\ cursors_ok 1 2 s /\ Forall (access_ok 1 2) tr.
Proof.
  destruct (run (caesar 1)
              (item_round ++ item_round_reset_in_flight ++ eof_round)
              (initial 1 2 [0] [0; 0] [65; 66])) as [[tr s]|] eqn:Hrun;
    [|vm_compute in Hrun; discriminate Hrun].
  assert (H1 : 1 <= 1) by lia. assert (H2 : 1 <= 2) by lia.
  assert (H3 : Z.of_nat (List.length [0]) = 1) by reflexivity.
  assert (H4 : Z.of_nat (List.length [0; 0]) = 2) by reflexivity.
  exists tr, s. split; [auto 10|].
  exact (cursors_in_range (caesar 1) 1 2 [0] [0; 0] [65; 66] _ tr s
           H1 H2 H3 H4 Hrun).
Defined.

(** *** The mutex *)

Lemma lock_ok_step encrypt t s a s' :
  lock_ok s -> step encrypt t s = Some (a, s') -> lock_ok s'.
Proof.
  intros [Hl Hx] Hstep. unfold lock_ok.
  destruct t; simpl in Hstep;
    [ unfold readerThread in Hstep; destruct (pc_reader s) eqn:Hpc
    | unfold inputCounterThread in Hstep; destruct (pc_counter s) eqn:Hpc
    | unfold encryptorThread in Hstep; destruct (pc_encryptor s) eqn:Hpc
    | unfold outputCounterThread in Hstep; destruct (pc_ocounter s) eqn:Hpc
    | unfold writerThread in Hstep; destruct (pc_writer s) eqn:Hpc
    | unfold resetThread, reset_requested, reset_finished in Hstep;
      destruct (pc_reset s) eqn:Hpc ];
    invert_step Hstep; cbn in *; try rewrite Hpc in *; cbn in *;
    try (split; assumption);
    try (destruct (reader_holds (pc_reader s));
         destruct (reset_holds (pc_reset s)); cbn in *;
         split; congruence).
Qed.

Theorem reader_and_reset_exclude_each_other
    encrypt cap_in cap_out mem_in mem_out file sched tr s :
  run encrypt sched (initial cap_in cap_out mem_in mem_out file)
    = Some (tr, s) ->
  reader_lock s = reader_holds (pc_reader s) || reset_holds (pc_reset s)
  /\ reader_holds (pc_reader s) && reset_holds (pc_reset s) = false.
Proof.
  intros Hrun.
  apply (run_invariant encrypt (fun _ s => lock_ok s))
    with (sched := sched) (tr0 := []) (tr := tr) (s := s)
         (s0 := initial cap_in cap_out mem_in mem_out file).
  - intros tr1 s1 t a s2 H Hstep. eapply lock_ok_step; eassumption.
  - split; reflexivity.
  - exact Hrun.
Qed.

Lemma reader_and_reset_exclude_each_other_example :
  exists tr s,
    run (caesar 1) (repeat TReader 2 ++ repeat TReset 1)
      (initial 1 1 [0] [0] [65]) = None
    /\ run (caesar 1) (repeat TReader 6 ++ repeat TCounter 5
                       ++ repeat TEncryptor 4 ++ repeat TReader 3
                       ++ repeat TReset 1)
         (initial 1 1 [0] [0] [65]) = Some (tr, s)
    /\ reader_lock s = reader_holds (pc_reader s) || reset_holds (pc_reset s)
    /\ reader_holds (pc_reader s) && reset_holds (pc_reset s) = false.
Proof.
  destruct (run (caesar 1)
              (repeat TReader 6 ++ repeat TCounter 5
               ++ repeat TEncryptor 4 ++ repeat TReader 3
               ++ repeat TReset 1)
              (initial 1 1 [0] [0] [65])) as [[tr s]|] eqn:Hrun;
    [|vm_compute in Hrun; discriminate Hrun].
  exists tr, s. split; [vm_compute; reflexivity|].
  split; [reflexivity|].
  exact (reader_and_reset_exclude_each_other
           (caesar 1) 1 1 [0] [0] [65] _ tr s Hrun).
Defined.

(** *** A reset requested before the first item *)

Lemma stuck_run encrypt s t sched :
  stuck encrypt s -> run encrypt (t :: sched) s = None.
Proof. intros H. simpl. rewrite (H t). reflexivity. Qed.

Theorem reset_before_first_item_blocks_everything
    encrypt cap_in cap_out mem_in mem_out file :
  exists s,
    run encrypt [TReset] (initial cap_in cap_out mem_in mem_out file)
      = Some ([(TReset, Lock)], s)
    /\ pc_reset s = X_wait_counter /\ pc_reader s = R_lock
    /\ stuck encrypt s
    /\ forall t sched, run encrypt (t :: sched) s = None.
Proof.
  eexists. split; [reflexivity|]. split; [reflexivity|].
  split; [reflexivity|].
  assert (Hs : stuck encrypt
                 (set_pc_reset X_wait_counter
                    (set_lock true
                       (initial cap_in cap_out mem_in mem_out file)))).
  { intros t. destruct t; reflexivity. }
  split; [exact Hs|]. intros t sched. apply stuck_run. exact Hs.
Qed.

(** *** The conversion to [char] *)

Theorem to_char_collides_only_at_255 b :
  0 <= b <= 255 ->
  -128 <= to_char b <= 127
  /\ to_char (to_char b) = to_char b
  /\ (b <= 127 -> to_char b = b)
  /\ (128 <= b -> to_char b = b - 256)
  /\ (to_char b = EOF <-> b = 255).
Proof.
  intros Hb. unfold to_char, EOF.
  assert (H1 : b <= 127 -> (b + 128) mod 256 = b + 128)
    by (intros; apply Z.mod_small; lia).
  assert (H2 : 128 <= b -> (b + 128) mod 256 = b - 128).
  { intros. replace (b + 128) with (b - 128 + 1 * 256) by lia.
    rewrite Z.mod_add by lia. apply Z.mod_small; lia. }
  destruct (Z.le_gt_cases b 127) as [Hle|Hgt].
  - rewrite (H1 Hle).
    replace (b + 128 - 128 + 128) with (b + 128) by lia. rewrite (H1 Hle).
    repeat split; intros; lia.
  - rewrite (H2 ltac:(lia)).
    replace (b - 128 - 128 + 128) with (b - 128) by lia.
    rewrite (Z.mod_small (b - 128)) by lia.
    repeat split; intros; lia.
Qed.

Lemma to_char_collides_only_at_255_example :
  0 <= 255 <= 255
  /\ -128 <= to_char 255 <= 127
  /\ to_char (to_char 255) = to_char 255
  /\ (255 <= 127 -> to_char 255 = 255)
  /\ (128 <= 255 -> to_char 255 = 255 - 256)
  /\ (to_char 255 = EOF <-> 255 = 255).
Proof.
  assert (H : 0 <= 255 <= 255) by lia.
  split; [exact H|]. exact (to_char_collides_only_at_255 255 H).
Defined.

(** *** When [main] starts the threads *)

Lemma prompt_some_inv question : forall stdin out v rest,
  prompt question stdin = (out, Some (v, rest)) ->
  exists bad,
    stdin = bad ++ v :: rest /\ Forall (fun x => x < 1) bad /\ 1 <= v
    /\ out = retries question bad.
Proof.
  induction stdin as [|x stdin IH]; intros out v rest H; simpl in H.
  - discriminate.
  - destruct (Z.ltb_spec x 1).
    + destruct (prompt question stdin) as [o r] eqn:E.
      inversion H; subst.
      destruct (IH _ _ _ eq_refl) as (bad & -> & Hbad & Hv & ->).
      exists (x :: bad). repeat split; auto.
    + inversion H; subst. exists []. repeat split; auto.
Qed.

Theorem main_launches_iff stdin alloc_ok a b out :
  main 4 stdin alloc_ok = Launch a b out
  <-> alloc_ok = true
      /\ exists bad1 bad2 rest,
           stdin = bad1 ++ a :: bad2 ++ b :: rest
           /\ Forall (fun x => x < 1) bad1 /\ 1 <= a
           /\ Forall (fun x => x < 1) bad2 /\ 1 <= b
           /\ out = retries "Enter buffer size for the input: " bad1
                    ++ retries "Enter buffer size for the output: " bad2.
Proof.
  split.
  - intros H. unfold main in H. simpl negb in H. cbv iota in H.
    destruct (prompt _ stdin) as [o1 [[v1 r1]|]] eqn:E1; [|discriminate].
    destruct (prompt _ r1) as [o2 [[v2 r2]|]] eqn:E2; [|discriminate].
    destruct alloc_ok; [|discriminate]. inversion H; subst.
    destruct (prompt_some_inv _ _ _ _ _ E1) as (bad1 & -> & H1 & Ha & ->).
    destruct (prompt_some_inv _ _ _ _ _ E2) as (bad2 & -> & H2 & Hb & ->).
    split; [reflexivity|]. exists bad1, bad2, r2. repeat split; auto.
  - intros (-> & bad1 & bad2 & rest & -> & H1 & Ha & H2 & Hb & ->).
    unfold main. simpl negb. cbv iota.
    rewrite (prompt_retries _ bad1 a _ H1 Ha).
    rewrite (prompt_retries _ bad2 b _ H2 Hb). reflexivity.
Qed.

Theorem main_exits_with_status_1 argc stdin alloc_ok status out :
  main argc stdin alloc_ok = Exit status out ->
  status = 1 /\ (argc <> 4 \/ alloc_ok = false).
Proof.
  unfold main. destruct (Z.eqb_spec argc 4) as [->|Hne]; simpl negb;
    cbv iota.
  - destruct (prompt _ stdin) as [o1 [[v1 r1]|]]; [|discriminate].
    destruct (prompt _ r1) as [o2 [[v2 r2]|]]; [|discriminate].
    destruct alloc_ok; [discriminate|].
    intros H; inversion H; auto.
  - intros H; inversion H; auto.
Qed.

Lemma main_exits_with_status_1_example :
  main 2 [] true
  = Exit 1 ["Error: Must include an input file, an output file, and a log file in arguments"%string]
  /\ (1 = 1 /\ (2 <> 4 \/ true = false)).
Proof.
  split; [reflexivity|].
  exact (main_exits_with_status_1 2 [] true 1 _ eq_refl).
Defined.

Theorem main_keeps_prompting_on_invalid_input stdin alloc_ok :
  Forall (fun x => x < 1) stdin ->
  exists out, main 4 stdin alloc_ok = Prompting out.
Proof.
  intros H. unfold main. simpl negb. cbv iota.
  assert (Hp : forall q, exists o, prompt q stdin = (o, None)).
  { intros q. induction H as [|x l Hx _ IH]; simpl.
    - eauto.
    - destruct (Z.ltb_spec x 1); [|lia].
      destruct IH as [o ->]. eauto. }
  destruct (Hp "Enter buffer size for the input: "%string) as [o ->].
  eauto.
Qed.

Lemma main_keeps_prompting_on_invalid_input_example :
  Forall (fun x => x < 1) [0; -3]
  /\ exists out, main 4 [0; -3] true = Prompting out.
Proof.
  assert (H : Forall (fun x => x < 1) [0; -3])
    by (repeat constructor; lia).
  split; [exact H|].
  exact (main_keeps_prompting_on_invalid_input [0; -3] true H).
Defined.

(** ** Consequences of the hand-over invariant *)

(** The invariant holds along every run without reset. *)
Lemma hand_over_reachable
    encrypt cap_in cap_out mem_in mem_out file sched tr s :
  1 <= cap_in -> 1 <= cap_out ->
  Z.of_nat (List.length mem_in) = cap_in ->
  Z.of_nat (List.length mem_out) = cap_out ->
  Forall (fun c => c <> EOF) (plain file) ->
  Forall (fun c => c <> EOF) (cipher encrypt file) ->
  ~ In TReset sched ->
  run encrypt sched (initial cap_in cap_out mem_in mem_out file)
    = Some (tr, s) ->
  exists rd e w, hand_over encrypt cap_in cap_out file s rd e w.
Proof.
  intros Hn Hm Hli Hlo Hp Hc Hno Hrun.
  eapply (hand_over_run encrypt cap_in cap_out file Hn Hm Hp Hc sched);
    [exact Hno| |exact Hrun].
  apply hand_over_initial; assumption.
Qed.

(** No more than two items are ever between the source and the sink,
    whatever the capacities, and the sink is never ahead of the source. *)
Theorem at_most_two_items_in_flight
    encrypt cap_in cap_out mem_in mem_out file sched tr s :
  1 <= cap_in -> 1 <= cap_out ->
  Z.of_nat (List.length mem_in) = cap_in ->
  Z.of_nat (List.length mem_out) = cap_out ->
  Forall (fun c => c <> EOF) (plain file) ->
  Forall (fun c => c <> EOF) (cipher encrypt file) ->
  ~ In TReset sched ->
  run encrypt sched (initial cap_in cap_out mem_in mem_out file)
    = Some (tr, s) ->
  (List.length (sink s) <= List.length file - List.length (source s)
   <= List.length (sink s) + 2)%nat.
Proof.
  intros Hn Hm Hli Hlo Hp Hc Hno Hrun.
  destruct (hand_over_reachable _ _ _ _ _ _ _ _ _ Hn Hm Hli Hlo Hp Hc Hno
              Hrun) as (rd & e & w & H).
  destruct H as [ho_n ho_m ho_len_in ho_len_out ho_rd ho_rd_end ho_source
                 ho_c_reader ho_in ho_cell_in ho_e ho_e_end ho_c_encryptor
                 ho_out ho_data_ready ho_done ho_out_in ho_cell_out ho_w
                 ho_w_end ho_c_writer ho_out_out ho_writer_ready
                 ho_writer_done ho_sink].
  rewrite ho_source, ho_sink, length_skipn, length_firstn.
  unfold cipher, plain. rewrite !length_map.
  destruct (pc_reader s), (pc_encryptor s), (pc_writer s); cbn in *; lia.
Qed.

Lemma at_most_two_items_in_flight_example :
  exists tr s,
    (1 <= 4 /\ 1 <= 4
     /\ Z.of_nat (List.length [0; 0; 0; 0]) = 4
     /\ Z.of_nat (List.length [0; 0; 0; 0]) = 4
     /\ Forall (fun c => c <> EOF) (plain [65; 66; 67])
     /\ Forall (fun c => c <> EOF) (cipher (caesar 1) [65; 66; 67])
     /\ ~ In TReset (item_round ++ repeat TReader 2)
     /\ run (caesar 1) (item_round ++ repeat TReader 2)
          (initial 4 4 [0; 0; 0; 0] [0; 0; 0; 0] [65; 66; 67])
        = Some (tr, s))
    /\ (List.length (sink s) <= List.length [65; 66; 67]
                                 - List.length (source s)
        <= List.length (sink s) + 2)%nat.
Proof.
  destruct (run (caesar 1) (item_round ++ repeat TReader 2)
              (initial 4 4 [0; 0; 0; 0] [0; 0; 0; 0] [65; 66; 67]))
    as [[tr s]|] eqn:Hrun; [|vm_compute in Hrun; discriminate Hrun].
  assert (H1 : 1 <= 4) by lia.
  assert (H3 : Z.of_nat (List.length [0; 0; 0; 0]) = 4) by reflexivity.
  assert (H5 : Forall (fun c => c <> EOF) (plain [65; 66; 67]))
    by (repeat constructor; discriminate).
  assert (H6 : Forall (fun c => c <> EOF) (cipher (caesar 1) [65; 66; 67]))
    by (repeat constructor; discriminate).
  assert (H7 : ~ In TReset (item_round ++ repeat TReader 2)).
  { cbv [item_round repeat app In]. intros H.
    repeat (destruct H as [H|H]; [discriminate H|]). exact H. }
  exists tr, s. split; [auto 10|].
  exact (at_most_two_items_in_flight (caesar 1) 4 4 [0; 0; 0; 0]
           [0; 0; 0; 0] [65; 66; 67] _ tr s H1 H1 H3 H3 H5 H6 H7 Hrun).
Defined.

(** When every stage has returned, the extra signal the reader posted for
    the encryptor after its loop is still there, and so is the writer's
    acknowledgment of the end of the stream, which the encryptor does not
    wait for. *)
Theorem signals_left_over_at_the_end
    encrypt cap_in cap_out mem_in mem_out file sched tr s :
  1 <= cap_in -> 1 <= cap_out ->
  Z.of_nat (List.length mem_in) = cap_in ->
  Z.of_nat (List.length mem_out) = cap_out ->
  Forall (fun c => c <> EOF) (plain file) ->
  Forall (fun c => c <> EOF) (cipher encrypt file) ->
  ~ In TReset sched ->
  run encrypt sched (initial cap_in cap_out mem_in mem_out file)
    = Some (tr, s) ->
  pc_reader s = R_return -> pc_encryptor s = E_return ->
  pc_writer s = W_return ->
  sems s encryptor_data_ready = 1%nat /\ sems s encryptor_done = 0%nat
  /\ sems s writer_data_ready = 0%nat /\ sems s writer_done = 1%nat
  /\ source s = [] /\ sink s = cipher encrypt file.
Proof.
  intros Hn Hm Hli Hlo Hp Hc Hno Hrun HR HE HW.
  destruct (hand_over_reachable _ _ _ _ _ _ _ _ _ Hn Hm Hli Hlo Hp Hc Hno
              Hrun) as (rd & e & w & H).
  destruct H as [ho_n ho_m ho_len_in ho_len_out ho_rd ho_rd_end ho_source
                 ho_c_reader ho_in ho_cell_in ho_e ho_e_end ho_c_encryptor
                 ho_out ho_data_ready ho_done ho_out_in ho_cell_out ho_w
                 ho_w_end ho_c_writer ho_out_out ho_writer_ready
                 ho_writer_done ho_sink].
  rewrite HR, HE, HW in *. cbn in *.
  repeat split; try lia.
  - rewrite ho_source. apply skipn_all2. lia.
  - rewrite ho_sink. apply firstn_all2.
    unfold cipher, plain. rewrite !length_map. lia.
Qed.

Lemma signals_left_over_at_the_end_example :
  exists tr s,
    (1 <= 2 /\ 1 <= 2
     /\ Z.of_nat (List.length [0; 0]) = 2
     /\ Z.of_nat (List.length [0; 0]) = 2
     /\ Forall (fun c => c <> EOF) (plain [65])
     /\ Forall (fun c => c <> EOF) (cipher (caesar 1) [65])
     /\ ~ In TReset (rounds 1)
     /\ run (caesar 1) (rounds 1) (initial 2 2 [0; 0] [0; 0] [65])
        = Some (tr, s)
     /\ pc_reader s = R_return /\ pc_encryptor s = E_return
     /\ pc_writer s = W_return)
    /\ sems s encryptor_data_ready = 1%nat /\ sems s encryptor_done = 0%nat
    /\ sems s writer_data_ready = 0%nat /\ sems s writer_done = 1%nat
    /\ source s = [] /\ sink s = cipher (caesar 1) [65].
Proof.
  assert (Hr : exists tr s,
             run (caesar 1) (rounds 1) (initial 2 2 [0; 0] [0; 0] [65])
               = Some (tr, s)
             /\ pc_reader s = R_return /\ pc_encryptor s = E_return
             /\ pc_writer s = W_return).
  { do 2 eexists. split; [vm_compute; reflexivity|]. repeat split. }
  destruct Hr as (tr & s & Hrun & HR & HE & HW).
  assert (H1 : 1 <= 2) by lia.
  assert (H3 : Z.of_nat (List.length [0; 0]) = 2) by reflexivity.
  assert (H5 : Forall (fun c => c <> EOF) (plain [65]))
    by (repeat constructor; discriminate).
  assert (H6 : Forall (fun c => c <> EOF) (cipher (caesar 1) [65]))
    by (repeat constructor; discriminate).
  assert (H7 : ~ In TReset (rounds 1)) by apply rounds_no_reset.
  exists tr, s. split; [auto 20|].
  exact (signals_left_over_at_the_end (caesar 1) 2 2 [0; 0] [0; 0] [65]
           _ tr s H1 H1 H3 H3 H5 H6 H7 Hrun HR HE HW).
Defined.

(** ** The counting stages: proofs *)

Arguments Z.mul : simpl never.

Lemma counted_inputs_snoc tr (e : tid * action) :
  counted_inputs (tr ++ [e])
  = counted_inputs tr
    ++ match snd e with CallCountInput c => [c] | _ => [] end.
Proof.
  induction tr as [|[t a] tr IH]; simpl.
  - destruct e as [t a]; destruct a; reflexivity.
  - rewrite IH. destruct a; reflexivity.
Qed.

Lemma counted_outputs_snoc tr (e : tid * action) :
  counted_outputs (tr ++ [e])
  = counted_outputs tr
    ++ match snd e with CallCountOutput c => [c] | _ => [] end.
Proof.
  induction tr as [|[t a] tr IH]; simpl.
  - destruct e as [t a]; destruct a; reflexivity.
  - rewrite IH. destruct a; reflexivity.
Qed.

Lemma slot_one x : slot 1 x = 0.
Proof. unfold slot. apply Z.mod_1_r. Qed.

Ltac ho_names H :=
  destruct H as [ho_n ho_m ho_len_in ho_len_out ho_rd ho_rd_end ho_source
                 ho_c_reader ho_in ho_cell_in ho_e ho_e_end ho_c_encryptor
                 ho_out ho_data_ready ho_done ho_out_in ho_cell_out ho_w
                 ho_w_end ho_c_writer ho_out_out ho_writer_ready
                 ho_writer_done ho_sink].

Ltac cs_names H :=
  destruct H as [cs_ci cs_counter_ready cs_counter_done cs_co
                 cs_ocounter_ready cs_ocounter_done cs_steps].

Ltac cd_names H :=
  destruct H as [cd_ci cd_ci_end cd_c_counter cd_counted_inputs
                 cd_co cd_co_end cd_c_ocounter cd_counted_outputs].

Ltac cs_open Hpc :=
  constructor; rewrite ?occurrences_snoc;
  cbn in *; try rewrite Hpc in *;
  unfold reader_steps, counter_steps, encryptor_steps, ocounter_steps,
    writer_steps in *;
  cbn in *.

Section CountingProofs.

Variable encrypt : Z -> Z.
Variables cap_in cap_out : Z.
Variable file : list Z.
Hypothesis cap_in_pos : 1 <= cap_in.
Hypothesis cap_out_pos : 1 <= cap_out.
Hypothesis plain_clean : Forall (fun c => c <> EOF) (plain file).
Hypothesis cipher_clean : Forall (fun c => c <> EOF) (cipher encrypt file).

Local Abbreviation K := (Z.of_nat (List.length file)).
Local Abbreviation HO := (hand_over encrypt cap_in cap_out file).
Local Abbreviation CS := (counter_signals file).
Local Abbreviation CD := (counter_data encrypt file).
Local Abbreviation SI := (signals_inv encrypt cap_in cap_out file).

Lemma encryptor_char_eof s rd e w :
  HO s rd e w -> e_has_c (pc_encryptor s) = 1 ->
  (c_encryptor s = EOF <-> e = K + 1).
Proof.
  intros H Hc. ho_names H.
  rewrite (ho_c_encryptor Hc).
  assert (1 <= e) by (destruct (pc_encryptor s); cbn in *; lia).
  assert (e <= K + 1) by (destruct (pc_encryptor s); cbn in *; lia).
  rewrite (plain_eof_iff file plain_clean (e - 1)) by lia. lia.
Qed.

Lemma cs_reader tr s rd e w ci co a s' :
  CS tr s rd e w ci co -> readerThread s = Some (a, s') ->
  CS (tr ++ [(TReader, a)]) s' (rd + r_reads (pc_reader s)) e w ci co.
Proof.
  intros H Hstep. cs_names H. unfold readerThread in Hstep.
  destruct (pc_reader s) eqn:Hpc; step_cases Hstep;
    cs_open Hpc; lia.
Qed.

Lemma cs_counter tr s rd e w ci co a s' :
  CS tr s rd e w ci co -> inputCounterThread s = Some (a, s') ->
  CS (tr ++ [(TCounter, a)]) s' rd e w (ci + c_takes (pc_counter s)) co.
Proof.
  intros H Hstep. cs_names H. unfold inputCounterThread in Hstep.
  destruct (pc_counter s) eqn:Hpc; step_cases Hstep;
    cs_open Hpc; lia.
Qed.

Lemma cs_encryptor tr s rd e w ci co a s' :
  HO s rd e w ->
  CS tr s rd e w ci co -> encryptorThread encrypt s = Some (a, s') ->
  CS (tr ++ [(TEncryptor, a)]) s' rd (e + e_takes (pc_encryptor s)) w ci co.
Proof.
  intros Hho H Hstep. cs_names H.
  pose proof (encryptor_char_eof _ _ _ _ Hho) as Hch.
  pose proof (ho_e _ _ _ _ _ _ _ _ Hho) as Hbound. clear Hho.
  unfold encryptorThread in Hstep.
  destruct (pc_encryptor s) eqn:Hpc; step_cases Hstep;
    cs_open Hpc; lia.
Qed.

Lemma cs_ocounter tr s rd e w ci co a s' :
  CS tr s rd e w ci co -> outputCounterThread s = Some (a, s') ->
  CS (tr ++ [(TOutputCounter, a)]) s' rd e w ci
    (co + o_takes (pc_ocounter s)).
Proof.
  intros H Hstep. cs_names H. unfold outputCounterThread in Hstep.
  destruct (pc_ocounter s) eqn:Hpc; step_cases Hstep;
    cs_open Hpc; lia.
Qed.

Lemma cs_writer tr s rd e w ci co a s' :
  CS tr s rd e w ci co -> writerThread s = Some (a, s') ->
  CS (tr ++ [(TWriter, a)]) s' rd e (w + w_takes (pc_writer s)) ci co.
Proof.
  intros H Hstep. cs_names H. unfold writerThread in Hstep.
  destruct (pc_writer s) eqn:Hpc; step_cases Hstep;
    cs_open Hpc; lia.
Qed.

Lemma cs_reset tr s rd e w ci co a s' :
  CS tr s rd e w ci co -> resetThread s = Some (a, s') ->
  CS (tr ++ [(TReset, a)]) s' rd e w ci co.
Proof.
  intros H Hstep. cs_names H.
  unfold resetThread, reset_requested, reset_finished in Hstep.
  destruct (pc_reset s) eqn:Hpc; step_cases Hstep;
    cs_open Hpc; lia.
Qed.

Lemma cd_other tr s ci co t a s' :
  CD tr s ci co -> step encrypt t s = Some (a, s') ->
  t <> TCounter -> t <> TOutputCounter ->
  CD (tr ++ [(t, a)]) s' ci co.
Proof.
  intros H Hstep Hc Ho. cd_names H.
  destruct t; try congruence; simpl in Hstep;
    [ unfold readerThread in Hstep; destruct (pc_reader s)
    | unfold encryptorThread in Hstep; destruct (pc_encryptor s)
    | unfold writerThread in Hstep; destruct (pc_writer s)
    | unfold resetThread, reset_requested, reset_finished in Hstep;
      destruct (pc_reset s) ];
    step_cases Hstep;
    constructor; rewrite ?counted_inputs_snoc, ?counted_outputs_snoc;
    cbn; rewrite ?app_nil_r; assumption.
Qed.

Lemma signals_step tr s t a s' :
  t <> TReset ->
  SI tr s -> step encrypt t s = Some (a, s') ->
  SI (tr ++ [(t, a)]) s'.
Proof.
  intros Ht (rd & e & w & ci & co & Hho & Hcs) Hstep.
  destruct t; try congruence; simpl in Hstep.
  - exists (rd + r_reads (pc_reader s)), e, w, ci, co. split.
    + eapply hand_over_reader_exact; eassumption.
    + eapply cs_reader; eassumption.
  - exists rd, e, w, (ci + c_takes (pc_counter s)), co. split.
    + eapply hand_over_input_counter; eassumption.
    + eapply cs_counter; eassumption.
  - exists rd, (e + e_takes (pc_encryptor s)), w, ci, co. split.
    + eapply hand_over_encryptor_exact; eassumption.
    + eapply cs_encryptor; eassumption.
  - exists rd, e, w, ci, (co + o_takes (pc_ocounter s)). split.
    + eapply hand_over_output_counter; eassumption.
    + eapply cs_ocounter; eassumption.
  - exists rd, e, (w + w_takes (pc_writer s)), ci, co. split.
    + eapply hand_over_writer_exact; eassumption.
    + eapply cs_writer; eassumption.
Qed.

Lemma signals_run sched : forall tr0 s0 tr s,
  ~ In TReset sched ->
  SI tr0 s0 -> run encrypt sched s0 = Some (tr, s) ->
  SI (tr0 ++ tr) s.
Proof.
  induction sched as [|t sched IH]; intros tr0 s0 tr s Hno H0 Hrun;
    simpl in Hrun.
  - injection Hrun as <- <-. rewrite app_nil_r. exact H0.
  - destruct (step encrypt t s0) as [[a s1]|] eqn:Hs; [|discriminate].
    destruct (run encrypt sched s1) as [[tr1 s2]|] eqn:Hrest; [|discriminate].
    injection Hrun as <- <-.
    change ((t, a) :: tr1) with ([(t, a)] ++ tr1). rewrite app_assoc.
    eapply IH; [|eapply (signals_step tr0 s0 t a s1)|exact Hrest].
    + intros H. apply Hno. right. exact H.
    + intros ->. apply Hno. left. reflexivity.
    + exact H0.
    + exact Hs.
Qed.

(** How many steps each stage can have made. *)
Lemma stage_steps_bound tr s rd e w ci co :
  HO s rd e w -> CS tr s rd e w ci co ->
  Z.of_nat (occurrences is_stage_step tr) <= 36 * K + 41.
Proof.
  intros Hho Hcs.
  pose proof (ho_rd _ _ _ _ _ _ _ _ Hho) as Hrd.
  pose proof (ho_rd_end _ _ _ _ _ _ _ _ Hho) as Hrd_end.
  pose proof (ho_e _ _ _ _ _ _ _ _ Hho) as He.
  pose proof (ho_e_end _ _ _ _ _ _ _ _ Hho) as He_end.
  pose proof (ho_w _ _ _ _ _ _ _ _ Hho) as Hw.
  pose proof (cs_counter_ready _ _ _ _ _ _ _ _ Hcs) as Hcr.
  pose proof (cs_ocounter_ready _ _ _ _ _ _ _ _ Hcs) as Hor.
  pose proof (cs_steps _ _ _ _ _ _ _ _ Hcs) as Hsteps.
  clear Hho Hcs.
  assert (B1 : reader_steps rd (pc_reader s) <= 9 * K + 11
               /\ ci <= K + 2).
  { clear Hsteps He He_end Hw Hor.
    unfold reader_steps. destruct (pc_reader s); cbn in *; lia. }
  assert (B2 : counter_steps ci (pc_counter s) <= 5 * ci).
  { unfold counter_steps. destruct (pc_counter s); lia. }
  assert (B3 : encryptor_steps K e (pc_encryptor s) <= 11 * K + 9
               /\ co <= K + 1).
  { clear Hsteps Hrd Hrd_end Hw Hcr B1 B2.
    unfold encryptor_steps. destruct (pc_encryptor s); cbn in *; lia. }
  assert (B4 : ocounter_steps co (pc_ocounter s) <= 5 * co).
  { unfold ocounter_steps. destruct (pc_ocounter s); lia. }
  assert (B5 : writer_steps w (pc_writer s) <= 6 * K + 6).
  { clear Hsteps Hrd Hrd_end He He_end Hcr Hor B1 B2 B3 B4.
    unfold writer_steps. destruct (pc_writer s); cbn in *; lia. }
  lia.
Qed.

End CountingProofs.

(** *** One cell in each buffer *)

Section SingleCell.

Variable encrypt : Z -> Z.
Variable file : list Z.
Hypothesis plain_clean : Forall (fun c => c <> EOF) (plain file).
Hypothesis cipher_clean : Forall (fun c => c <> EOF) (cipher encrypt file).

Local Abbreviation K := (Z.of_nat (List.length file)).
Local Abbreviation HO := (hand_over encrypt 1 1 file).
Local Abbreviation CS := (counter_signals file).
Local Abbreviation CD := (counter_data encrypt file).
Local Abbreviation SCI := (single_cell_inv encrypt file).

(** With one cell every cursor is 0 whatever a reset does to it. *)
Lemma hand_over_reset_single_cell s rd e w a s' :
  HO s rd e w -> resetThread s = Some (a, s') -> HO s' rd e w.
Proof.
  intros H Hstep. ho_names H.
  unfold resetThread, reset_requested, reset_finished in Hstep.
  destruct (pc_reset s) eqn:Hpc; step_cases Hstep;
    constructor; cbn; rewrite ?slot_one in *;
    first [assumption | reflexivity].
Qed.

Ltac cd_field :=
  first
    [ assumption
    | lia
    | intros; lia
    | rewrite app_nil_r; assumption
    | match goal with
      | H : ?x = firstn _ ?l |- ?x ++ [] = firstn _ ?l =>
          rewrite app_nil_r, H; f_equal; lia
      | H : _ -> ?x = item ?l _ |- _ -> ?x = item ?l _ =>
          let G := fresh in
          intros G; rewrite H by lia; f_equal; lia
      end ].

Ltac cd_open :=
  constructor; rewrite ?counted_inputs_snoc, ?counted_outputs_snoc;
  cbn in *.

Lemma cd_counter tr s rd e w ci co a s' :
  HO s rd e w -> CS tr s rd e w ci co -> CD tr s ci co ->
  inputCounterThread s = Some (a, s') ->
  CD (tr ++ [(TCounter, a)]) s' (ci + c_takes (pc_counter s)) co.
Proof.
  intros Hho Hcs Hcd Hstep.
  pose proof (ho_rd _ _ _ _ _ _ _ _ Hho) as Hrd.
  pose proof (ho_rd_end _ _ _ _ _ _ _ _ Hho) as Hrd_end.
  pose proof (ho_out _ _ _ _ _ _ _ _ Hho) as Hout.
  pose proof (ho_cell_in _ _ _ _ _ _ _ _ Hho) as Hcell.
  pose proof (cs_counter_ready _ _ _ _ _ _ _ _ Hcs) as Hready.
  pose proof (cs_counter_done _ _ _ _ _ _ _ _ Hcs) as Hdone.
  pose proof (cs_ci _ _ _ _ _ _ _ _ Hcs) as Hci.
  clear Hho Hcs. cd_names Hcd.
  unfold inputCounterThread in Hstep.
  destruct (pc_counter s) eqn:Hpc; step_cases Hstep.
  - cd_open; ho_goal; cd_field.
  - (* the load: the reader has stored item ci - 1 *)
    assert (Hlast : rd - r_unstored (pc_reader s) = ci)
      by (cbn in *; destruct (pc_reader s); cbn in *; lia).
    cd_open; ho_goal; try cd_field.
    intros _. rewrite Hout, slot_one.
    rewrite slot_one in Hcell. rewrite Hlast in Hcell. apply Hcell. lia.
  - cd_open; ho_goal; cd_field.
  - cd_open; ho_goal; cd_field.
  - (* the end of the stream: nothing is counted *)
    assert (ci = K + 1).
    { cbn in *. rewrite cd_c_counter in Heof by reflexivity.
      apply (plain_eof_iff file plain_clean) in Heof; lia. }
    cd_open; ho_goal; try cd_field.
    rewrite app_nil_r, cd_counted_inputs.
    apply firstn_past; rewrite plain_length; lia.
  - (* count_input *)
    assert (ci <= K).
    { cbn in *. rewrite cd_c_counter in Heof by reflexivity.
      destruct (Z.le_gt_cases ci K); [assumption|].
      exfalso. apply Heof. apply (plain_eof_iff file plain_clean); lia. }
    cd_open; ho_goal; try cd_field.
    rewrite cd_counted_inputs, cd_c_counter by reflexivity.
    rewrite firstn_item_snoc by (rewrite plain_length; lia).
    f_equal; lia.
Qed.

Lemma cd_ocounter tr s rd e w ci co a s' :
  HO s rd e w -> CS tr s rd e w ci co -> CD tr s ci co ->
  outputCounterThread s = Some (a, s') ->
  CD (tr ++ [(TOutputCounter, a)]) s' ci (co + o_takes (pc_ocounter s)).
Proof.
  intros Hho Hcs Hcd Hstep.
  pose proof (ho_e _ _ _ _ _ _ _ _ Hho) as He.
  pose proof (ho_e_end _ _ _ _ _ _ _ _ Hho) as He_end.
  pose proof (ho_out_out _ _ _ _ _ _ _ _ Hho) as Hout.
  pose proof (ho_cell_out _ _ _ _ _ _ _ _ Hho) as Hcell.
  pose proof (cs_ocounter_ready _ _ _ _ _ _ _ _ Hcs) as Hready.
  pose proof (cs_ocounter_done _ _ _ _ _ _ _ _ Hcs) as Hdone.
  pose proof (cs_co _ _ _ _ _ _ _ _ Hcs) as Hco.
  clear Hho Hcs. cd_names Hcd.
  unfold outputCounterThread in Hstep.
  destruct (pc_ocounter s) eqn:Hpc; step_cases Hstep.
  - cd_open; ho_goal; cd_field.
  - (* the load: the encryptor has stored item co - 1 *)
    assert (Hlast : e - e_unstored K (pc_encryptor s) e = co)
      by (cbn in *; destruct (pc_encryptor s); cbn in *; lia).
    cd_open; ho_goal; try cd_field.
    intros _. rewrite Hout, slot_one.
    rewrite slot_one in Hcell. rewrite Hlast in Hcell. apply Hcell. lia.
  - (* the end of the stream: nothing is counted *)
    assert (co = K + 1).
    { cbn in *. rewrite cd_c_ocounter in Heof by reflexivity.
      apply (cipher_eof_iff encrypt file cipher_clean) in Heof; lia. }
    cd_open; ho_goal; try cd_field.
    rewrite app_nil_r, cd_counted_outputs.
    apply firstn_past; rewrite cipher_length; lia.
  - (* count_output *)
    assert (co <= K).
    { cbn in *. rewrite cd_c_ocounter in Heof by reflexivity.
      destruct (Z.le_gt_cases co K); [assumption|].
      exfalso. apply Heof.
      apply (cipher_eof_iff encrypt file cipher_clean); lia. }
    cd_open; ho_goal; try cd_field.
    rewrite cd_counted_outputs, cd_c_ocounter by reflexivity.
    rewrite firstn_item_snoc by (rewrite cipher_length; lia).
    f_equal; lia.
  - cd_open; ho_goal; cd_field.
  - assert (co = K + 1).
    { cbn in *. rewrite cd_c_ocounter in Heof by reflexivity.
      apply (cipher_eof_iff encrypt file cipher_clean) in Heof; lia. }
    cd_open; ho_goal; cd_field.
  - assert (co <= K).
    { cbn in *. rewrite cd_c_ocounter in Heof by reflexivity.
      destruct (Z.le_gt_cases co K); [assumption|].
      exfalso. apply Heof.
      apply (cipher_eof_iff encrypt file cipher_clean); lia. }
    cd_open; ho_goal; cd_field.
Qed.

Lemma single_cell_step tr s t a s' :
  SCI tr s -> step encrypt t s = Some (a, s') ->
  SCI (tr ++ [(t, a)]) s'.
Proof.
  intros (rd & e & w & ci & co & Hho & Hcs & Hcd) Hstep.
  assert (H1 : 1 <= 1) by lia.
  destruct t.
  - exists (rd + r_reads (pc_reader s)), e, w, ci, co. simpl in Hstep.
    split; [|split].
    + eapply hand_over_reader_exact; eassumption.
    + eapply cs_reader; eassumption.
    + eapply cd_other; try eassumption; discriminate.
  - exists rd, e, w, (ci + c_takes (pc_counter s)), co. simpl in Hstep.
    split; [|split].
    + eapply hand_over_input_counter; eassumption.
    + eapply cs_counter; eassumption.
    + eapply cd_counter; eassumption.
  - exists rd, (e + e_takes (pc_encryptor s)), w, ci, co. simpl in Hstep.
    split; [|split].
    + eapply hand_over_encryptor_exact; eassumption.
    + eapply cs_encryptor; eassumption.
    + eapply cd_other; try eassumption; discriminate.
  - exists rd, e, w, ci, (co + o_takes (pc_ocounter s)). simpl in Hstep.
    split; [|split].
    + eapply hand_over_output_counter; eassumption.
    + eapply cs_ocounter; eassumption.
    + eapply cd_ocounter; eassumption.
  - exists rd, e, (w + w_takes (pc_writer s)), ci, co. simpl in Hstep.
    split; [|split].
    + eapply hand_over_writer_exact; eassumption.
    + eapply cs_writer; eassumption.
    + eapply cd_other; try eassumption; discriminate.
  - exists rd, e, w, ci, co. simpl in Hstep.
    split; [|split].
    + eapply hand_over_reset_single_cell; eassumption.
    + eapply cs_reset; eassumption.
    + eapply cd_other; try eassumption; discriminate.
Qed.

Lemma single_cell_initial c_in c_out :
  SCI [] (initial 1 1 [c_in] [c_out] file).
Proof.
  exists 0, 0, 0, 0, 0. split; [|split].
  - apply hand_over_initial; reflexivity.
  - constructor; cbn; reflexivity.
  - constructor; cbn; try reflexivity; try lia.
Qed.

Lemma single_cell_reachable c_in c_out sched tr s :
  run encrypt sched (initial 1 1 [c_in] [c_out] file) = Some (tr, s) ->
  SCI tr s.
Proof.
  intros Hrun.
  apply (run_invariant encrypt SCI)
    with (sched := sched) (tr0 := []) (tr := tr) (s := s)
         (s0 := initial 1 1 [c_in] [c_out] file).
  - intros tr1 s1 t a s2 H Hstep. eapply single_cell_step; eassumption.
  - apply single_cell_initial.
  - exact Hrun.
Qed.

End SingleCell.

(** With one cell in each buffer, whatever the schedule and whenever resets
    are requested, the sink and the characters handed to [count_input] and
    [count_output] are prefixes of the input and of its transform, and they
    are complete once the writer, the input counter and the output counter
    have returned. *)
Theorem single_cell_pipeline_is_correct
    encrypt c_in c_out file sched tr s :
  Forall (fun c => c <> EOF) (plain file) ->
  Forall (fun c => c <> EOF) (cipher encrypt file) ->
  run encrypt sched (initial 1 1 [c_in] [c_out] file) = Some (tr, s) ->
  (exists i j k,
      sink s = firstn i (cipher encrypt file)
      /\ counted_inputs tr = firstn j (plain file)
      /\ counted_outputs tr = firstn k (cipher encrypt file))
  /\ (pc_writer s = W_return -> sink s = cipher encrypt file)
  /\ (pc_counter s = C_return -> counted_inputs tr = plain file)
  /\ (pc_ocounter s = O_return ->
      counted_outputs tr = cipher encrypt file).
Proof.
  intros Hp Hc Hrun.
  destruct (single_cell_reachable encrypt file Hp Hc c_in c_out sched tr s
              Hrun) as (rd & e & w & ci & co & Hho & _ & Hcd).
  pose proof (ho_sink _ _ _ _ _ _ _ _ Hho) as Hsink.
  pose proof (ho_w_end _ _ _ _ _ _ _ _ Hho) as Hw.
  clear Hho. cd_names Hcd.
  split; [eauto 10|].
  split; [|split]; intros Hpc; rewrite Hpc in *; cbn in *.
  - rewrite Hsink, Hw by reflexivity.
    apply firstn_all2. unfold cipher, plain. rewrite !length_map. lia.
  - rewrite cd_counted_inputs, cd_ci_end by reflexivity.
    apply firstn_all2. unfold plain. rewrite !length_map. lia.
  - rewrite cd_counted_outputs, cd_co_end by reflexivity.
    apply firstn_all2. unfold cipher, plain. rewrite !length_map. lia.
Qed.

Lemma single_cell_pipeline_is_correct_example :
  exists tr s,
    (Forall (fun c => c <> EOF) (plain [65; 66])
     /\ Forall (fun c => c <> EOF) (cipher (caesar 1) [65; 66])
     /\ run (caesar 1)
          (item_round ++ item_round_reset_in_flight ++ eof_round)
          (initial 1 1 [0] [0] [65; 66]) = Some (tr, s))
    /\ (exists i j k,
          sink s = firstn i (cipher (caesar 1) [65; 66])
          /\ counted_inputs tr = firstn j (plain [65; 66])
          /\ counted_outputs tr = firstn k (cipher (caesar 1) [65; 66]))
    /\ (pc_writer s = W_return -> sink s = cipher (caesar 1) [65; 66])
    /\ (pc_counter s = C_return -> counted_inputs tr = plain [65; 66])
    /\ (pc_ocounter s = O_return ->
        counted_outputs tr = cipher (caesar 1) [65; 66]).
Proof.
  destruct (run (caesar 1)
              (item_round ++ item_round_reset_in_flight ++ eof_round)
              (initial 1 1 [0] [0] [65; 66])) as [[tr s]|] eqn:Hrun;
    [|vm_compute in Hrun; discriminate Hrun].
  assert (H5 : Forall (fun c => c <> EOF) (plain [65; 66]))
    by (repeat constructor; discriminate).
  assert (H6 : Forall (fun c => c <> EOF) (cipher (caesar 1) [65; 66]))
    by (repeat constructor; discriminate).
  exists tr, s. split; [auto|].
  exact (single_cell_pipeline_is_correct (caesar 1) 0 0 [65; 66] _ tr s
           H5 H6 Hrun).
Defined.

Lemma run_threads encrypt sched : forall s tr s',
  run encrypt sched s = Some (tr, s') -> map fst tr = sched.
Proof.
  induction sched as [|t sched IH]; intros s tr s' Hrun; simpl in Hrun.
  - injection Hrun as <- <-. reflexivity.
  - destruct (step encrypt t s) as [[a s1]|]; [|discriminate].
    destruct (run encrypt sched s1) as [[tr1 s2]|] eqn:Hrest; [|discriminate].
    injection Hrun as <- <-. simpl. f_equal. eapply IH. exact Hrest.
Qed.

Lemma stage_steps_all (tr : list (tid * action)) :
  ~ In TReset (map fst tr) ->
  occurrences is_stage_step tr = List.length tr.
Proof.
  unfold occurrences.
  induction tr as [|[t a] tr IH]; intros Hno; simpl in *.
  - reflexivity.
  - destruct t; simpl;
      try (rewrite IH; [reflexivity|intros H; apply Hno; right; exact H]).
    exfalso. apply Hno. left. reflexivity.
Qed.

Lemma no_reset_run_length
    encrypt cap_in cap_out mem_in mem_out file sched tr s :
  1 <= cap_in -> 1 <= cap_out ->
  Z.of_nat (List.length mem_in) = cap_in ->
  Z.of_nat (List.length mem_out) = cap_out ->
  Forall (fun c => c <> EOF) (plain file) ->
  Forall (fun c => c <> EOF) (cipher encrypt file) ->
  ~ In TReset sched ->
  run encrypt sched (initial cap_in cap_out mem_in mem_out file)
    = Some (tr, s) ->
  (List.length sched <= 36 * List.length file + 41)%nat.
Proof.
  intros Hn Hm Hli Hlo Hp Hc Hno Hrun.
  assert (Hinit : signals_inv encrypt cap_in cap_out file []
                    (initial cap_in cap_out mem_in mem_out file)).
  { exists 0, 0, 0, 0, 0. split.
    - apply hand_over_initial; assumption.
    - constructor; cbn; reflexivity. }
  destruct (signals_run encrypt cap_in cap_out file Hn Hm Hp Hc sched
              [] _ tr s Hno Hinit Hrun)
    as (rd & e & w & ci & co & Hho & Hcs).
  pose proof (stage_steps_bound encrypt cap_in cap_out file _ _ _ _ _ _ _
                Hho Hcs) as Hb.
  pose proof (run_threads _ _ _ _ _ Hrun) as Hmap.
  simpl in Hb. rewrite stage_steps_all in Hb by (rewrite Hmap; exact Hno).
  rewrite <- Hmap, length_map. lia.
Qed.

(** A run without reset has at most 36 steps per byte of the input and 41
    more, whatever the capacities and the schedule. *)
Theorem run_length_is_bounded
    encrypt cap_in cap_out mem_in mem_out file sched tr s :
  1 <= cap_in -> 1 <= cap_out ->
  Z.of_nat (List.length mem_in) = cap_in ->
  Z.of_nat (List.length mem_out) = cap_out ->
  Forall (fun c => c <> EOF) (plain file) ->
  Forall (fun c => c <> EOF) (cipher encrypt file) ->
  ~ In TReset sched ->
  run encrypt sched (initial cap_in cap_out mem_in mem_out file)
    = Some (tr, s) ->
  (List.length sched <= 36 * List.length file + 41)%nat.
Proof.
  intros Hn Hm Hli Hlo Hp Hc Hno Hrun.
  exact (no_reset_run_length encrypt cap_in cap_out mem_in mem_out file
           sched tr s Hn Hm Hli Hlo Hp Hc Hno Hrun).
Qed.

Lemma run_length_is_bounded_example :
  exists tr s,
    (1 <= 2 /\ 1 <= 2
     /\ Z.of_nat (List.length [0; 0]) = 2
     /\ Z.of_nat (List.length [0; 0]) = 2
     /\ Forall (fun c => c <> EOF) (plain [65; 66])
     /\ Forall (fun c => c <> EOF) (cipher (caesar 1) [65; 66])
     /\ ~ In TReset (item_round ++ item_round_encryptor_first
                     ++ eof_round_encryptor_first)
     /\ run (caesar 1)
          (item_round ++ item_round_encryptor_first
           ++ eof_round_encryptor_first)
          (initial 2 2 [0; 0] [0; 0] [65; 66]) = Some (tr, s))
    /\ (List.length (item_round ++ item_round_encryptor_first
                     ++ eof_round_encryptor_first)
        <= 36 * List.length [65; 66] + 41)%nat.
Proof.
  destruct (run (caesar 1)
              (item_round ++ item_round_encryptor_first
               ++ eof_round_encryptor_first)
              (initial 2 2 [0; 0] [0; 0] [65; 66])) as [[tr s]|] eqn:Hrun;
    [|vm_compute in Hrun; discriminate Hrun].
  assert (H1 : 1 <= 2) by lia.
  assert (H3 : Z.of_nat (List.length [0; 0]) = 2) by reflexivity.
  assert (H5 : Forall (fun c => c <> EOF) (plain [65; 66]))
    by (repeat constructor; discriminate).
  assert (H6 : Forall (fun c => c <> EOF) (cipher (caesar 1) [65; 66]))
    by (repeat constructor; discriminate).
  assert (H7 : ~ In TReset (item_round ++ item_round_encryptor_first
                            ++ eof_round_encryptor_first)).
  { cbv [item_round item_round_encryptor_first eof_round_encryptor_first
         repeat app In]. intros H.
    repeat (destruct H as [H|H]; [discriminate H|]). exact H. }
  exists tr, s. split; [auto 10|].
  exact (run_length_is_bounded (caesar 1) 2 2 [0; 0] [0; 0] [65; 66] _ tr s
           H1 H1 H3 H3 H5 H6 H7 Hrun).
Defined.

(** *** No deadlock with one cell in each buffer *)

Lemma reader_blocked s :
  readerThread s = None ->
  pc_reader s = R_return
  \/ (pc_reader s = R_lock /\ reader_lock s = true)
  \/ (pc_reader s = R_wait_counter /\ sems s counter_done = 0%nat)
  \/ (pc_reader s = R_wait_encryptor /\ sems s encryptor_done = 0%nat).
Proof.
  unfold readerThread, mutex_lock, sem_wait.
  destruct (pc_reader s); try discriminate; auto.
  - destruct (reader_lock s); [auto|discriminate].
  - destruct (read_input s). discriminate.
  - destruct (sems s counter_done); [auto 6|discriminate].
  - destruct (sems s encryptor_done); [auto 6|discriminate].
Qed.

Lemma counter_blocked s :
  inputCounterThread s = None ->
  pc_counter s = C_return
  \/ (pc_counter s = C_wait /\ sems s counter_data_ready = 0%nat).
Proof.
  unfold inputCounterThread, sem_wait.
  destruct (pc_counter s); try discriminate; auto.
  - destruct (sems s counter_data_ready); [auto|discriminate].
  - destruct (c_counter s =? EOF); discriminate.
Qed.

Lemma encryptor_blocked encrypt s :
  encryptorThread encrypt s = None ->
  pc_encryptor s = E_return
  \/ (pc_encryptor s = E_wait /\ sems s encryptor_data_ready = 0%nat)
  \/ (pc_encryptor s = E_wait_counter
      /\ sems s output_counter_done = 0%nat)
  \/ (pc_encryptor s = E_wait_writer /\ sems s writer_done = 0%nat).
Proof.
  unfold encryptorThread, sem_wait.
  destruct (pc_encryptor s); try discriminate; auto.
  - destruct (sems s encryptor_data_ready); [auto|discriminate].
  - destruct (sems s output_counter_done); [auto 6|discriminate].
  - destruct (sems s writer_done); [auto 6|discriminate].
Qed.

Lemma ocounter_blocked s :
  outputCounterThread s = None ->
  pc_ocounter s = O_return
  \/ (pc_ocounter s = O_wait
      /\ sems s output_counter_data_ready = 0%nat).
Proof.
  unfold outputCounterThread, sem_wait.
  destruct (pc_ocounter s); try discriminate; auto.
  - destruct (sems s output_counter_data_ready); [auto|discriminate].
  - destruct (c_ocounter s =? EOF); discriminate.
Qed.

Lemma writer_blocked s :
  writerThread s = None ->
  pc_writer s = W_return
  \/ (pc_writer s = W_wait /\ sems s writer_data_ready = 0%nat).
Proof.
  unfold writerThread, sem_wait.
  destruct (pc_writer s); try discriminate; auto.
  - destruct (sems s writer_data_ready); [auto|discriminate].
  - destruct (c_writer s =? EOF); discriminate.
Qed.

Lemma reset_idle_without_reset encrypt sched : forall s tr s',
  ~ In TReset sched -> run encrypt sched s = Some (tr, s') ->
  pc_reset s' = pc_reset s.
Proof.
  induction sched as [|t sched IH]; intros s tr s' Hno Hrun; simpl in Hrun.
  - injection Hrun as <- <-. reflexivity.
  - destruct (step encrypt t s) as [[a s1]|] eqn:Hs; [|discriminate].
    destruct (run encrypt sched s1) as [[tr1 s2]|] eqn:Hrest; [|discriminate].
    injection Hrun as <- <-.
    rewrite (IH s1 tr1 s2 (fun H => Hno (or_intror H)) Hrest).
    destruct t; simpl in Hs;
      [ unfold readerThread in Hs; destruct (pc_reader s)
      | unfold inputCounterThread in Hs; destruct (pc_counter s)
      | unfold encryptorThread in Hs; destruct (pc_encryptor s)
      | unfold outputCounterThread in Hs; destruct (pc_ocounter s)
      | unfold writerThread in Hs; destruct (pc_writer s)
      | exfalso; apply Hno; left; reflexivity ];
      step_cases Hs; reflexivity.
Qed.

(** The stages can only all be unable to step when all have returned. *)
Lemma single_cell_stuck_is_finished encrypt file tr s :
  single_cell_inv encrypt file tr s ->
  lock_ok s -> pc_reset s = X_idle ->
  (forall t, t <> TReset -> step encrypt t s = None) ->
  all_returned s.
Proof.
  intros (rd & e & w & ci & co & Hho & Hcs & Hcd) [Hlock _] Hidle Hstuck.
  pose proof (reader_blocked s (Hstuck TReader ltac:(discriminate))) as BR.
  pose proof (counter_blocked s (Hstuck TCounter ltac:(discriminate)))
    as BC.
  pose proof (encryptor_blocked encrypt s
                (Hstuck TEncryptor ltac:(discriminate))) as BE.
  pose proof (ocounter_blocked s
                (Hstuck TOutputCounter ltac:(discriminate))) as BO.
  pose proof (writer_blocked s (Hstuck TWriter ltac:(discriminate))) as BW.
  clear Hstuck.
  pose proof (ho_rd _ _ _ _ _ _ _ _ Hho) as Hrd.
  pose proof (ho_rd_end _ _ _ _ _ _ _ _ Hho) as Hrd_end.
  pose proof (ho_e _ _ _ _ _ _ _ _ Hho) as He.
  pose proof (ho_e_end _ _ _ _ _ _ _ _ Hho) as He_end.
  pose proof (ho_w _ _ _ _ _ _ _ _ Hho) as Hw.
  pose proof (ho_w_end _ _ _ _ _ _ _ _ Hho) as Hw_end.
  pose proof (ho_data_ready _ _ _ _ _ _ _ _ Hho) as S1.
  pose proof (ho_done _ _ _ _ _ _ _ _ Hho) as S2.
  pose proof (ho_writer_ready _ _ _ _ _ _ _ _ Hho) as S3.
  pose proof (ho_writer_done _ _ _ _ _ _ _ _ Hho) as S4.
  pose proof (cs_ci _ _ _ _ _ _ _ _ Hcs) as Hci.
  pose proof (cs_co _ _ _ _ _ _ _ _ Hcs) as Hco.
  pose proof (cs_counter_ready _ _ _ _ _ _ _ _ Hcs) as S5.
  pose proof (cs_counter_done _ _ _ _ _ _ _ _ Hcs) as S6.
  pose proof (cs_ocounter_ready _ _ _ _ _ _ _ _ Hcs) as S7.
  pose proof (cs_ocounter_done _ _ _ _ _ _ _ _ Hcs) as S8.
  pose proof (cd_ci _ _ _ _ _ _ Hcd) as Hci'.
  pose proof (cd_ci_end _ _ _ _ _ _ Hcd) as Hci_end.
  pose proof (cd_co _ _ _ _ _ _ Hcd) as Hco'.
  pose proof (cd_co_end _ _ _ _ _ _ Hcd) as Hco_end.
  clear Hho Hcs Hcd.
  rewrite Hidle in Hlock. unfold all_returned.
  destruct BR as [BR|[[BR LR]|[[BR LR]|[BR LR]]]];
    destruct BC as [BC|[BC LC]];
    destruct BE as [BE|[[BE LE]|[[BE LE]|[BE LE]]]];
    destruct BO as [BO|[BO LO]];
    destruct BW as [BW|[BW LW]];
    rewrite BR, BC, BE, BO, BW in *; cbn in *;
    first [ repeat split; reflexivity | exfalso; congruence | exfalso; lia ].
Qed.

Lemma single_cell_no_reset_state encrypt c_in c_out file sched tr s :
  Forall (fun c => c <> EOF) (plain file) ->
  Forall (fun c => c <> EOF) (cipher encrypt file) ->
  ~ In TReset sched ->
  run encrypt sched (initial 1 1 [c_in] [c_out] file) = Some (tr, s) ->
  single_cell_inv encrypt file tr s /\ lock_ok s /\ pc_reset s = X_idle.
Proof.
  intros Hp Hc Hno Hrun. split; [|split].
  - eapply single_cell_reachable; eassumption.
  - apply (run_invariant encrypt (fun _ s => lock_ok s))
      with (sched := sched) (tr0 := []) (tr := tr) (s := s)
           (s0 := initial 1 1 [c_in] [c_out] file).
    + intros tr1 s1 t a s2 H Hstep. eapply lock_ok_step; eassumption.
    + split; reflexivity.
    + exact Hrun.
  - rewrite (reset_idle_without_reset encrypt sched _ tr s Hno Hrun).
    reflexivity.
Qed.

(** With one cell in each buffer and no reset, a state in which no stage
    can step is a state in which every stage has returned. *)
Theorem single_cell_never_deadlocks encrypt c_in c_out file sched tr s :
  Forall (fun c => c <> EOF) (plain file) ->
  Forall (fun c => c <> EOF) (cipher encrypt file) ->
  ~ In TReset sched ->
  run encrypt sched (initial 1 1 [c_in] [c_out] file) = Some (tr, s) ->
  (forall t, t <> TReset -> step encrypt t s = None) ->
  all_returned s.
Proof.
  intros Hp Hc Hno Hrun Hstuck.
  destruct (single_cell_no_reset_state encrypt c_in c_out file sched tr s
              Hp Hc Hno Hrun) as (Hinv & Hlock & Hidle).
  eapply single_cell_stuck_is_finished; eassumption.
Qed.

Lemma single_cell_never_deadlocks_example :
  exists tr s,
    (Forall (fun c => c <> EOF) (plain [65])
     /\ Forall (fun c => c <> EOF) (cipher (caesar 1) [65])
     /\ ~ In TReset (rounds 1)
     /\ run (caesar 1) (rounds 1) (initial 1 1 [0] [0] [65]) = Some (tr, s)
     /\ (forall t, t <> TReset -> step (caesar 1) t s = None))
    /\ all_returned s.
Proof.
  assert (Hr : exists tr s,
             run (caesar 1) (rounds 1) (initial 1 1 [0] [0] [65])
               = Some (tr, s)
             /\ forall t, t <> TReset -> step (caesar 1) t s = None).
  { do 2 eexists. split; [vm_compute; reflexivity|].
    intros t Ht. destruct t; try reflexivity. congruence. }
  destruct Hr as (tr & s & Hrun & Hstuck).
  assert (H5 : Forall (fun c => c <> EOF) (plain [65]))
    by (repeat constructor; discriminate).
  assert (H6 : Forall (fun c => c <> EOF) (cipher (caesar 1) [65]))
    by (repeat constructor; discriminate).
  assert (H7 : ~ In TReset (rounds 1)) by apply rounds_no_reset.
  exists tr, s. split; [auto 10|].
  exact (single_cell_never_deadlocks (caesar 1) 0 0 [65] _ tr s
           H5 H6 H7 Hrun Hstuck).
Defined.

Lemma finished_or_steps encrypt file tr s :
  single_cell_inv encrypt file tr s ->
  lock_ok s -> pc_reset s = X_idle ->
  all_returned s
  \/ exists t a s', t <> TReset /\ step encrypt t s = Some (a, s').
Proof.
  intros Hinv Hlock Hidle.
  destruct (step encrypt TReader s) as [[a s']|] eqn:E1;
    [right; exists TReader, a, s'; split; [discriminate|exact E1]|].
  destruct (step encrypt TCounter s) as [[a s']|] eqn:E2;
    [right; exists TCounter, a, s'; split; [discriminate|exact E2]|].
  destruct (step encrypt TEncryptor s) as [[a s']|] eqn:E3;
    [right; exists TEncryptor, a, s'; split; [discriminate|exact E3]|].
  destruct (step encrypt TOutputCounter s) as [[a s']|] eqn:E4;
    [right; exists TOutputCounter, a, s'; split; [discriminate|exact E4]|].
  destruct (step encrypt TWriter s) as [[a s']|] eqn:E5;
    [right; exists TWriter, a, s'; split; [discriminate|exact E5]|].
  left. eapply single_cell_stuck_is_finished; try eassumption.
  intros t Ht. destruct t; try assumption. congruence.
Qed.

Lemma run_snoc encrypt sched t s tr s1 a s2 :
  run encrypt sched s = Some (tr, s1) ->
  step encrypt t s1 = Some (a, s2) ->
  run encrypt (sched ++ [t]) s = Some (tr ++ [(t, a)], s2).
Proof.
  intros H1 H2. rewrite run_app, H1. simpl. rewrite H2. reflexivity.
Qed.

Lemma single_cell_completion encrypt c_in c_out file
    (Hp : Forall (fun c => c <> EOF) (plain file))
    (Hc : Forall (fun c => c <> EOF) (cipher encrypt file)) :
  forall fuel sched tr s,
    ~ In TReset sched ->
    run encrypt sched (initial 1 1 [c_in] [c_out] file) = Some (tr, s) ->
    (36 * List.length file + 41 <= List.length sched + fuel)%nat ->
    exists more tr' s',
      ~ In TReset more
      /\ run encrypt more s = Some (tr', s') /\ all_returned s'
      /\ (List.length sched + List.length more
          <= 36 * List.length file + 41)%nat.
Proof.
  assert (Hlen : forall sched tr s,
             ~ In TReset sched ->
             run encrypt sched (initial 1 1 [c_in] [c_out] file)
               = Some (tr, s) ->
             (List.length sched <= 36 * List.length file + 41)%nat).
  { intros sched tr s Hno Hrun.
    apply (no_reset_run_length encrypt 1 1 [c_in] [c_out] file sched tr s);
      [lia|lia|reflexivity|reflexivity|exact Hp|exact Hc|exact Hno
      |exact Hrun]. }
  induction fuel as [|fuel IH]; intros sched tr s Hno Hrun Hfuel.
  - destruct (single_cell_no_reset_state encrypt c_in c_out file sched tr s
                Hp Hc Hno Hrun) as (Hinv & Hlock & Hidle).
    destruct (finished_or_steps encrypt file tr s Hinv Hlock Hidle)
      as [Hall|(t & a & s' & Ht & Hstep)].
    + exists [], [], s.
      split; [intros []|split; [reflexivity|split; [exact Hall|]]].
      pose proof (Hlen sched tr s Hno Hrun). cbn [List.length]. lia.
    + exfalso.
      assert (Hno' : ~ In TReset (sched ++ [t])).
      { intros H. apply in_app_or in H. destruct H as [H|[H|[]]]; auto. }
      pose proof (Hlen _ _ _ Hno' (run_snoc _ _ _ _ _ _ _ _ Hrun Hstep))
        as Hl.
      rewrite length_app in Hl. simpl in Hl. lia.
  - destruct (single_cell_no_reset_state encrypt c_in c_out file sched tr s
                Hp Hc Hno Hrun) as (Hinv & Hlock & Hidle).
    destruct (finished_or_steps encrypt file tr s Hinv Hlock Hidle)
      as [Hall|(t & a & s' & Ht & Hstep)].
    + exists [], [], s.
      split; [intros []|split; [reflexivity|split; [exact Hall|]]].
      pose proof (Hlen sched tr s Hno Hrun). cbn [List.length]. lia.
    + assert (Hno' : ~ In TReset (sched ++ [t])).
      { intros H. apply in_app_or in H. destruct H as [H|[H|[]]]; auto. }
      destruct (IH (sched ++ [t]) _ _ Hno'
                  (run_snoc _ _ _ _ _ _ _ _ Hrun Hstep))
        as (more & tr' & s'' & Hm & Hrun' & Hall & Hl).
      { rewrite length_app. simpl. lia. }
      exists (t :: more), ((t, a) :: tr'), s''.
      split; [|split; [|split]].
      * intros [H|H]; [congruence|auto].
      * simpl. rewrite Hstep, Hrun'. reflexivity.
      * exact Hall.
      * rewrite length_app in Hl. simpl in *. lia.
Qed.

(** With one cell in each buffer and no reset, every run can be continued,
    stage step by stage step, until all five stages have returned, and the
    whole run then has at most 36 steps per byte of the input and 41
    more. *)
Theorem single_cell_run_completes encrypt c_in c_out file sched tr s :
  Forall (fun c => c <> EOF) (plain file) ->
  Forall (fun c => c <> EOF) (cipher encrypt file) ->
  ~ In TReset sched ->
  run encrypt sched (initial 1 1 [c_in] [c_out] file) = Some (tr, s) ->
  exists more tr' s',
    ~ In TReset more
    /\ run encrypt more s = Some (tr', s') /\ all_returned s'
    /\ (List.length sched + List.length more
        <= 36 * List.length file + 41)%nat.
Proof.
  intros Hp Hc Hno Hrun.
  apply (single_cell_completion encrypt c_in c_out file Hp Hc
           (36 * List.length file + 41) sched tr s Hno Hrun).
  lia.
Qed.

Lemma single_cell_run_completes_example :
  exists tr s,
    (Forall (fun c => c <> EOF) (plain [65; 66])
     /\ Forall (fun c => c <> EOF) (cipher (caesar 1) [65; 66])
     /\ ~ In TReset (repeat TReader 6 ++ repeat TEncryptor 4)
     /\ run (caesar 1) (repeat TReader 6 ++ repeat TEncryptor 4)
          (initial 1 1 [0] [0] [65; 66]) = Some (tr, s))
    /\ exists more tr' s',
         ~ In TReset more
         /\ run (caesar 1) more s = Some (tr', s') /\ all_returned s'
         /\ (List.length (repeat TReader 6 ++ repeat TEncryptor 4)
             + List.length more
             <= 36 * List.length [65; 66] + 41)%nat.
Proof.
  destruct (run (caesar 1) (repeat TReader 6 ++ repeat TEncryptor 4)
              (initial 1 1 [0] [0] [65; 66])) as [[tr s]|] eqn:Hrun;
    [|vm_compute in Hrun; discriminate Hrun].
  assert (H5 : Forall (fun c => c <> EOF) (plain [65; 66]))
    by (repeat constructor; discriminate).
  assert (H6 : Forall (fun c => c <> EOF) (cipher (caesar 1) [65; 66]))
    by (repeat constructor; discriminate).
  assert (H7 : ~ In TReset (repeat TReader 6 ++ repeat TEncryptor 4)).
  { cbv [repeat app In]. intros H.
    repeat (destruct H as [H|H]; [discriminate H|]). exact H. }
  exists tr, s. split; [auto 10|].
  exact (single_cell_run_completes (caesar 1) 0 0 [65; 66] _ tr s
           H5 H6 H7 Hrun).
Defined.

(** ** Every schedule serves the writer *)

Lemma Forall_poke (P : Z -> Prop) i c l :
  Forall P l -> P c -> Forall P (poke i c l).
Proof.
  intros Hl Hc. revert i.
  induction Hl as [|h t Hh Ht IH]; intros [|j]; simpl; auto.
Qed.

Lemma peek_clean i l :
  Forall (fun c => c <> EOF) l ->
  0 <= i < Z.of_nat (List.length l) -> peek i l <> EOF.
Proof.
  intros Hl Hi. unfold peek.
  rewrite Forall_forall in Hl. apply Hl. apply nth_In. lia.
Qed.

Lemma cells_clean_poke cap i c l :
  cells_clean cap l -> c <> EOF -> cells_clean cap (poke i c l).
Proof.
  intros [H|H] Hc; [left; exact H|right].
  apply Forall_poke; assumption.
Qed.

Ltac cf_names H :=
  destruct H as [cf_in_cells cf_c_counter cf_ci_end cf_out_cells
                 cf_c_ocounter cf_co_end].

Ltac cf_open Hpc :=
  constructor; cbn in *; try rewrite Hpc in *; cbn in *.

Ltac cf_field :=
  first
    [ assumption
    | lia
    | intros; lia
    | match goal with
      | H : _ -> cells_clean ?c ?l |- _ -> cells_clean ?c ?l =>
          let G := fresh in intros G; apply H; lia
      | H : _ -> _ -> ?x <> EOF |- _ -> _ -> ?x <> EOF =>
          let G1 := fresh in let G2 := fresh in
          intros G1 G2; apply H; lia
      end ].

Section FollowingProofs.

Variable encrypt : Z -> Z.
Variables cap_in cap_out : Z.
Variable file : list Z.
Hypothesis cap_in_pos : 1 <= cap_in.
Hypothesis cap_out_pos : 1 <= cap_out.
Hypothesis plain_clean : Forall (fun c => c <> EOF) (plain file).
Hypothesis cipher_clean : Forall (fun c => c <> EOF) (cipher encrypt file).

Local Abbreviation K := (Z.of_nat (List.length file)).
Local Abbreviation HO := (hand_over encrypt cap_in cap_out file).
Local Abbreviation CS := (counter_signals file).
Local Abbreviation CF := (counters_follow cap_in cap_out file).
Local Abbreviation PI := (progress_inv encrypt cap_in cap_out file).

Lemma cf_reader s rd e w ci co a s' :
  HO s rd e w -> CF s rd e ci co -> readerThread s = Some (a, s') ->
  CF s' (rd + r_reads (pc_reader s)) e ci co.
Proof.
  intros Hho Hcf Hstep.
  pose proof (ho_rd _ _ _ _ _ _ _ _ Hho) as Hrd.
  pose proof (ho_c_reader _ _ _ _ _ _ _ _ Hho) as Hc.
  clear Hho. cf_names Hcf.
  unfold readerThread in Hstep.
  destruct (pc_reader s) eqn:Hpc; step_cases Hstep;
    ho_goal; cf_open Hpc; try cf_field.
  (* the store into the input buffer *)
  intros Hle. apply cells_clean_poke; [apply cf_in_cells; lia|].
  rewrite Hc by reflexivity.
  intros Heof. apply (plain_eof_iff file plain_clean) in Heof; lia.
Qed.

Lemma cf_counter tr s rd e w ci co a s' :
  HO s rd e w -> CS tr s rd e w ci co -> CF s rd e ci co ->
  inputCounterThread s = Some (a, s') ->
  CF s' rd e (ci + c_takes (pc_counter s)) co.
Proof.
  intros Hho Hcs Hcf Hstep.
  pose proof (ho_rd _ _ _ _ _ _ _ _ Hho) as Hrd.
  pose proof (ho_rd_end _ _ _ _ _ _ _ _ Hho) as Hrd_end.
  pose proof (ho_len_in _ _ _ _ _ _ _ _ Hho) as Hlen.
  pose proof (ho_out _ _ _ _ _ _ _ _ Hho) as Hout.
  pose proof (ho_cell_in _ _ _ _ _ _ _ _ Hho) as Hcell.
  pose proof (cs_counter_ready _ _ _ _ _ _ _ _ Hcs) as Hready.
  pose proof (cs_counter_done _ _ _ _ _ _ _ _ Hcs) as Hdone.
  pose proof (cs_ci _ _ _ _ _ _ _ _ Hcs) as Hci.
  clear Hho Hcs. cf_names Hcf.
  unfold inputCounterThread in Hstep.
  destruct (pc_counter s) eqn:Hpc; step_cases Hstep.
  - ho_goal. cf_open Hpc; cf_field.
  - (* the load: the end of the stream has not been stored yet *)
    ho_goal. cf_open Hpc; try cf_field.
    intros _ Hle.
    assert (Hstored : 1 <= rd - r_unstored (pc_reader s) <= K)
      by (destruct (pc_reader s); cbn in *; lia).
    destruct (cf_in_cells ltac:(lia)) as [Hone|Hall].
    + rewrite Hout, Hone, slot_one.
      rewrite Hone, slot_one in Hcell. rewrite Hcell by lia.
      intros Heof. apply (plain_eof_iff file plain_clean) in Heof; lia.
    + apply peek_clean; [exact Hall|].
      rewrite Hout, Hlen. apply slot_range. exact cap_in_pos.
  - ho_goal. cf_open Hpc; cf_field.
  - ho_goal. cf_open Hpc; cf_field.
  - (* leaving the loop: the character is the end of the stream *)
    ho_goal. cf_open Hpc; cf_field.
  - ho_goal. cf_open Hpc; cf_field.
Qed.

Lemma cf_encryptor s rd e w ci co a s' :
  HO s rd e w -> CF s rd e ci co ->
  encryptorThread encrypt s = Some (a, s') ->
  CF s' rd (e + e_takes (pc_encryptor s)) ci co.
Proof.
  intros Hho Hcf Hstep.
  pose proof (encryptor_char_eof encrypt cap_in cap_out file plain_clean
                _ _ _ _ Hho) as Hch.
  pose proof (ho_e _ _ _ _ _ _ _ _ Hho) as He.
  pose proof (ho_e_end _ _ _ _ _ _ _ _ Hho) as He_end.
  pose proof (ho_c_encryptor _ _ _ _ _ _ _ _ Hho) as Hc.
  clear Hho. cf_names Hcf.
  unfold encryptorThread in Hstep.
  destruct (pc_encryptor s) eqn:Hpc; step_cases Hstep;
    ho_goal; cf_open Hpc; try cf_field.
  all: try (intros Hle; apply cf_out_cells; lia).
  (* the store into the output buffer *)
  intros Hle. apply cells_clean_poke; [apply cf_out_cells; lia|].
  rewrite Hc by reflexivity.
  rewrite (cipher_item encrypt file) by lia.
  intros Heof. apply (cipher_eof_iff encrypt file cipher_clean) in Heof; lia.
Qed.

Lemma cf_ocounter tr s rd e w ci co a s' :
  HO s rd e w -> CS tr s rd e w ci co -> CF s rd e ci co ->
  outputCounterThread s = Some (a, s') ->
  CF s' rd e ci (co + o_takes (pc_ocounter s)).
Proof.
  intros Hho Hcs Hcf Hstep.
  pose proof (ho_e _ _ _ _ _ _ _ _ Hho) as He.
  pose proof (ho_e_end _ _ _ _ _ _ _ _ Hho) as He_end.
  pose proof (ho_len_out _ _ _ _ _ _ _ _ Hho) as Hlen.
  pose proof (ho_out_out _ _ _ _ _ _ _ _ Hho) as Hout.
  pose proof (ho_cell_out _ _ _ _ _ _ _ _ Hho) as Hcell.
  pose proof (cs_ocounter_ready _ _ _ _ _ _ _ _ Hcs) as Hready.
  pose proof (cs_ocounter_done _ _ _ _ _ _ _ _ Hcs) as Hdone.
  pose proof (cs_co _ _ _ _ _ _ _ _ Hcs) as Hco.
  clear Hho Hcs. cf_names Hcf.
  unfold outputCounterThread in Hstep.
  destruct (pc_ocounter s) eqn:Hpc; step_cases Hstep.
  - ho_goal. cf_open Hpc; cf_field.
  - (* the load: the end of the stream has not been stored yet *)
    ho_goal. cf_open Hpc; try cf_field.
    intros _ Hle.
    assert (Hstored : 1 <= e - e_unstored K (pc_encryptor s) e <= K)
      by (destruct (pc_encryptor s); cbn in *; lia).
    destruct (cf_out_cells ltac:(lia)) as [Hone|Hall].
    + rewrite Hout, Hone, slot_one.
      rewrite Hone, slot_one in Hcell. rewrite Hcell by lia.
      intros Heof.
      apply (cipher_eof_iff encrypt file cipher_clean) in Heof; lia.
    + apply peek_clean; [exact Hall|].
      rewrite Hout, Hlen. apply slot_range. exact cap_out_pos.
  - ho_goal. cf_open Hpc; cf_field.
  - ho_goal. cf_open Hpc; cf_field.
  - ho_goal. cf_open Hpc; cf_field.
  - (* leaving the loop: the character is the end of the stream *)
    ho_goal. cf_open Hpc; cf_field.
  - ho_goal. cf_open Hpc; cf_field.
Qed.

Lemma cf_writer s rd e ci co a s' :
  CF s rd e ci co -> writerThread s = Some (a, s') -> CF s' rd e ci co.
Proof.
  intros Hcf Hstep. cf_names Hcf.
  unfold writerThread in Hstep.
  destruct (pc_writer s) eqn:Hpc; step_cases Hstep;
    cf_open Hpc; cf_field.
Qed.

Lemma progress_step tr s t a s' :
  t <> TReset ->
  PI tr s -> step encrypt t s = Some (a, s') -> PI (tr ++ [(t, a)]) s'.
Proof.
  intros Ht (rd & e & w & ci & co & Hho & Hcs & Hcf) Hstep.
  destruct t; try congruence; simpl in Hstep.
  - exists (rd + r_reads (pc_reader s)), e, w, ci, co. split; [|split].
    + eapply hand_over_reader_exact; eassumption.
    + eapply cs_reader; eassumption.
    + eapply cf_reader; eassumption.
  - exists rd, e, w, (ci + c_takes (pc_counter s)), co. split; [|split].
    + eapply hand_over_input_counter; eassumption.
    + eapply cs_counter; eassumption.
    + eapply cf_counter; eassumption.
  - exists rd, (e + e_takes (pc_encryptor s)), w, ci, co. split; [|split].
    + eapply hand_over_encryptor_exact; eassumption.
    + eapply cs_encryptor; eassumption.
    + eapply cf_encryptor; eassumption.
  - exists rd, e, w, ci, (co + o_takes (pc_ocounter s)). split; [|split].
    + eapply hand_over_output_counter; eassumption.
    + eapply cs_ocounter; eassumption.
    + eapply cf_ocounter; eassumption.
  - exists rd, e, (w + w_takes (pc_writer s)), ci, co. split; [|split].
    + eapply hand_over_writer_exact; eassumption.
    + eapply cs_writer; eassumption.
    + eapply cf_writer; eassumption.
Qed.

Lemma progress_run sched : forall tr0 s0 tr s,
  ~ In TReset sched ->
  PI tr0 s0 -> run encrypt sched s0 = Some (tr, s) ->
  PI (tr0 ++ tr) s.
Proof.
  induction sched as [|t sched IH]; intros tr0 s0 tr s Hno H0 Hrun;
    simpl in Hrun.
  - injection Hrun as <- <-. rewrite app_nil_r. exact H0.
  - destruct (step encrypt t s0) as [[a s1]|] eqn:Hs; [|discriminate].
    destruct (run encrypt sched s1) as [[tr1 s2]|] eqn:Hrest; [|discriminate].
    injection Hrun as <- <-.
    change ((t, a) :: tr1) with ([(t, a)] ++ tr1). rewrite app_assoc.
    eapply IH; [|eapply (progress_step tr0 s0 t a s1)|exact Hrest].
    + intros H. apply Hno. right. exact H.
    + intros ->. apply Hno. left. reflexivity.
    + exact H0.
    + exact Hs.
Qed.

Lemma progress_initial mem_in mem_out :
  Z.of_nat (List.length mem_in) = cap_in ->
  Z.of_nat (List.length mem_out) = cap_out ->
  cells_clean cap_in mem_in -> cells_clean cap_out mem_out ->
  PI [] (initial cap_in cap_out mem_in mem_out file).
Proof.
  intros Hli Hlo Hci Hco.
  exists 0, 0, 0, 0, 0. split; [|split].
  - apply hand_over_initial; assumption.
  - constructor; cbn; reflexivity.
  - constructor; cbn; intros; try assumption; try lia; discriminate.
Qed.

(** The stages can only all be unable to step when reader, encryptor and
    writer have returned. *)
Lemma stuck_is_served tr s :
  PI tr s -> lock_ok s -> pc_reset s = X_idle ->
  (forall t, t <> TReset -> step encrypt t s = None) ->
  writer_served s.
Proof.
  intros (rd & e & w & ci & co & Hho & Hcs & Hcf) [Hlock _] Hidle Hstuck.
  pose proof (reader_blocked s (Hstuck TReader ltac:(discriminate))) as BR.
  pose proof (counter_blocked s (Hstuck TCounter ltac:(discriminate)))
    as BC.
  pose proof (encryptor_blocked encrypt s
                (Hstuck TEncryptor ltac:(discriminate))) as BE.
  pose proof (ocounter_blocked s
                (Hstuck TOutputCounter ltac:(discriminate))) as BO.
  pose proof (writer_blocked s (Hstuck TWriter ltac:(discriminate))) as BW.
  clear Hstuck.
  pose proof (ho_rd _ _ _ _ _ _ _ _ Hho) as Hrd.
  pose proof (ho_rd_end _ _ _ _ _ _ _ _ Hho) as Hrd_end.
  pose proof (ho_e _ _ _ _ _ _ _ _ Hho) as He.
  pose proof (ho_e_end _ _ _ _ _ _ _ _ Hho) as He_end.
  pose proof (ho_w _ _ _ _ _ _ _ _ Hho) as Hw.
  pose proof (ho_w_end _ _ _ _ _ _ _ _ Hho) as Hw_end.
  pose proof (ho_data_ready _ _ _ _ _ _ _ _ Hho) as S1.
  pose proof (ho_done _ _ _ _ _ _ _ _ Hho) as S2.
  pose proof (ho_writer_ready _ _ _ _ _ _ _ _ Hho) as S3.
  pose proof (ho_writer_done _ _ _ _ _ _ _ _ Hho) as S4.
  pose proof (cs_ci _ _ _ _ _ _ _ _ Hcs) as Hci.
  pose proof (cs_co _ _ _ _ _ _ _ _ Hcs) as Hco.
  pose proof (cs_counter_ready _ _ _ _ _ _ _ _ Hcs) as S5.
  pose proof (cs_counter_done _ _ _ _ _ _ _ _ Hcs) as S6.
  pose proof (cs_ocounter_ready _ _ _ _ _ _ _ _ Hcs) as S7.
  pose proof (cs_ocounter_done _ _ _ _ _ _ _ _ Hcs) as S8.
  pose proof (cf_ci_end _ _ _ _ _ _ _ _ Hcf) as Hci_end.
  pose proof (cf_co_end _ _ _ _ _ _ _ _ Hcf) as Hco_end.
  clear Hho Hcs Hcf.
  rewrite Hidle in Hlock. unfold writer_served.
  destruct BR as [BR|[[BR LR]|[[BR LR]|[BR LR]]]];
    destruct BC as [BC|[BC LC]];
    destruct BE as [BE|[[BE LE]|[[BE LE]|[BE LE]]]];
    destruct BO as [BO|[BO LO]];
    destruct BW as [BW|[BW LW]];
    rewrite BR, BC, BE, BO, BW in *; cbn in *;
    first [ repeat split; reflexivity | exfalso; congruence | exfalso; lia ].
Qed.

End FollowingProofs.

Lemma no_reset_state encrypt cap_in cap_out mem_in mem_out file sched tr s :
  1 <= cap_in -> 1 <= cap_out ->
  Z.of_nat (List.length mem_in) = cap_in ->
  Z.of_nat (List.length mem_out) = cap_out ->
  Forall (fun c => c <> EOF) (plain file) ->
  Forall (fun c => c <> EOF) (cipher encrypt file) ->
  cells_clean cap_in mem_in -> cells_clean cap_out mem_out ->
  ~ In TReset sched ->
  run encrypt sched (initial cap_in cap_out mem_in mem_out file)
    = Some (tr, s) ->
  progress_inv encrypt cap_in cap_out file tr s
  /\ lock_ok s /\ pc_reset s = X_idle.
Proof.
  intros Hn Hm Hli Hlo Hp Hc Hci Hco Hno Hrun. split; [|split].
  - apply (progress_run encrypt cap_in cap_out file Hn Hm Hp Hc sched
             [] (initial cap_in cap_out mem_in mem_out file) tr s Hno);
      [|exact Hrun].
    apply progress_initial; assumption.
  - apply (run_invariant encrypt (fun _ s => lock_ok s))
      with (sched := sched) (tr0 := []) (tr := tr) (s := s)
           (s0 := initial cap_in cap_out mem_in mem_out file).
    + intros tr1 s1 t a s2 H Hstep. eapply lock_ok_step; eassumption.
    + split; reflexivity.
    + exact Hrun.
  - rewrite (reset_idle_without_reset encrypt sched _ tr s Hno Hrun).
    reflexivity.
Qed.

Lemma served_or_steps encrypt cap_in cap_out file tr s :
  progress_inv encrypt cap_in cap_out file tr s ->
  lock_ok s -> pc_reset s = X_idle ->
  writer_served s
  \/ exists t a s', t <> TReset /\ step encrypt t s = Some (a, s').
Proof.
  intros Hinv Hlock Hidle.
  destruct (step encrypt TReader s) as [[a s']|] eqn:E1;
    [right; exists TReader, a, s'; split; [discriminate|exact E1]|].
  destruct (step encrypt TCounter s) as [[a s']|] eqn:E2;
    [right; exists TCounter, a, s'; split; [discriminate|exact E2]|].
  destruct (step encrypt TEncryptor s) as [[a s']|] eqn:E3;
    [right; exists TEncryptor, a, s'; split; [discriminate|exact E3]|].
  destruct (step encrypt TOutputCounter s) as [[a s']|] eqn:E4;
    [right; exists TOutputCounter, a, s'; split; [discriminate|exact E4]|].
  destruct (step encrypt TWriter s) as [[a s']|] eqn:E5;
    [right; exists TWriter, a, s'; split; [discriminate|exact E5]|].
  left. eapply stuck_is_served; try eassumption.
  intros t Ht. destruct t; try assumption. congruence.
Qed.

Lemma writer_is_served encrypt cap_in cap_out mem_in mem_out file
    (Hn : 1 <= cap_in) (Hm : 1 <= cap_out)
    (Hli : Z.of_nat (List.length mem_in) = cap_in)
    (Hlo : Z.of_nat (List.length mem_out) = cap_out)
    (Hp : Forall (fun c => c <> EOF) (plain file))
    (Hc : Forall (fun c => c <> EOF) (cipher encrypt file))
    (Hci : cells_clean cap_in mem_in) (Hco : cells_clean cap_out mem_out) :
  forall fuel sched tr s,
    ~ In TReset sched ->
    run encrypt sched (initial cap_in cap_out mem_in mem_out file)
      = Some (tr, s) ->
    (36 * List.length file + 41 <= List.length sched + fuel)%nat ->
    exists more tr' s',
      ~ In TReset more
      /\ run encrypt more s = Some (tr', s') /\ writer_served s'
      /\ (List.length sched + List.length more
          <= 36 * List.length file + 41)%nat.
Proof.
  assert (Hlen : forall sched tr s,
             ~ In TReset sched ->
             run encrypt sched (initial cap_in cap_out mem_in mem_out file)
               = Some (tr, s) ->
             (List.length sched <= 36 * List.length file + 41)%nat).
  { intros sched tr s Hno Hrun.
    exact (no_reset_run_length encrypt cap_in cap_out mem_in mem_out file
             sched tr s Hn Hm Hli Hlo Hp Hc Hno Hrun). }
  assert (Hcase : forall sched tr s,
             ~ In TReset sched ->
             run encrypt sched (initial cap_in cap_out mem_in mem_out file)
               = Some (tr, s) ->
             writer_served s
             \/ exists t a s',
                  ~ In TReset (sched ++ [t])
                  /\ step encrypt t s = Some (a, s')
                  /\ run encrypt (sched ++ [t])
                       (initial cap_in cap_out mem_in mem_out file)
                     = Some (tr ++ [(t, a)], s')).
  { intros sched tr s Hno Hrun.
    destruct (no_reset_state encrypt cap_in cap_out mem_in mem_out file
                sched tr s Hn Hm Hli Hlo Hp Hc Hci Hco Hno Hrun)
      as (Hinv & Hlock & Hidle).
    destruct (served_or_steps encrypt cap_in cap_out file tr s
                Hinv Hlock Hidle) as [Hall|(t & a & s' & Ht & Hstep)];
      [left; exact Hall|right].
    exists t, a, s'. split; [|split].
    - intros H. apply in_app_or in H. destruct H as [H|[H|[]]]; auto.
    - exact Hstep.
    - eapply run_snoc; eassumption. }
  induction fuel as [|fuel IH]; intros sched tr s Hno Hrun Hfuel;
    destruct (Hcase sched tr s Hno Hrun)
      as [Hall|(t & a & s' & Hno' & Hstep & Hrun')].
  - exists [], [], s.
    split; [intros []|split; [reflexivity|split; [exact Hall|]]].
    pose proof (Hlen sched tr s Hno Hrun). cbn [List.length]. lia.
  - exfalso. pose proof (Hlen _ _ _ Hno' Hrun') as Hl.
    rewrite length_app in Hl. simpl in Hl. lia.
  - exists [], [], s.
    split; [intros []|split; [reflexivity|split; [exact Hall|]]].
    pose proof (Hlen sched tr s Hno Hrun). cbn [List.length]. lia.
  - destruct (IH (sched ++ [t]) _ _ Hno' Hrun')
      as (more & tr' & s'' & Hm' & Hmore & Hall & Hl).
    { rewrite length_app. simpl. lia. }
    exists (t :: more), ((t, a) :: tr'), s''.
    split; [|split; [|split]].
    + intros [H|H]; [|auto].
      apply Hno'. apply in_or_app. right. left. exact H.
    + simpl. rewrite Hstep, Hmore. reflexivity.
    + exact Hall.
    + rewrite length_app in Hl. simpl in *. lia.
Qed.

(** C1, amended: in a run without reset request, when no byte of the file
    converts to the end-of-stream character and [encrypt] produces none,
    for every capacity of at least 1, every content of the freshly allocated
    buffers and every schedule, the sink always holds a prefix of the
    transformed input and holds all of it, in order, once the writer has
    returned.  When in addition each buffer has one cell or no fresh cell of
    it holds the end-of-stream character, no schedule stops short: a state
    in which no stage can step is one in which reader, encryptor and writer
    have returned and the sink holds the whole transformed input, and every
    run can be continued to such a state within 36 steps per byte and 41
    more.  For every content of the fresh buffers the schedule [rounds] runs
    all five stages to their return. *)
Theorem writer_emits_the_cipher_in_order
    encrypt cap_in cap_out mem_in mem_out file :
  1 <= cap_in -> 1 <= cap_out ->
  Z.of_nat (List.length mem_in) = cap_in ->
  Z.of_nat (List.length mem_out) = cap_out ->
  Forall (fun c => c <> EOF) (plain file) ->
  Forall (fun c => c <> EOF) (cipher encrypt file) ->
  (forall sched tr s,
      ~ In TReset sched ->
      run encrypt sched (initial cap_in cap_out mem_in mem_out file)
        = Some (tr, s) ->
      (exists j, sink s = firstn j (cipher encrypt file))
      /\ (pc_writer s = W_return -> sink s = cipher encrypt file)
      /\ (cells_clean cap_in mem_in -> cells_clean cap_out mem_out ->
          ((forall t, t <> TReset -> step encrypt t s = None) ->
           writer_served s /\ sink s = cipher encrypt file)
          /\ exists more tr' s',
               ~ In TReset more
               /\ run encrypt more s = Some (tr', s')
               /\ writer_served s' /\ sink s' = cipher encrypt file
               /\ (List.length sched + List.length more
                   <= 36 * List.length file + 41)%nat))
  /\ (exists tr s,
        run encrypt (rounds (List.length file))
          (initial cap_in cap_out mem_in mem_out file) = Some (tr, s)
        /\ all_returned s /\ sink s = cipher encrypt file).
Proof.
  intros Hn Hm Hlin Hlout Hplain Hcipher.
  pose proof (hand_over_initial encrypt cap_in cap_out file mem_in mem_out
                Hlin Hlout) as Hinit.
  assert (Hsafe : forall sched tr s,
             ~ In TReset sched ->
             run encrypt sched (initial cap_in cap_out mem_in mem_out file)
               = Some (tr, s) ->
             (exists j, sink s = firstn j (cipher encrypt file))
             /\ (pc_writer s = W_return -> sink s = cipher encrypt file)).
  { intros sched tr s Hno Hrun.
    destruct (hand_over_run encrypt cap_in cap_out file Hn Hm Hplain Hcipher
                sched _ _ _ _ tr s Hno Hinit Hrun) as (rd & e & w & Hinv).
    pose proof (ho_sink _ _ _ _ _ _ _ _ Hinv) as Hsink.
    pose proof (ho_w_end _ _ _ _ _ _ _ _ Hinv) as Hw_end.
    clear Hinv.
    split; [eauto|].
    intros Hpc. rewrite Hpc in *. cbn in *.
    rewrite Hsink, Hw_end by reflexivity.
    apply firstn_all2. unfold cipher, plain. rewrite !length_map. lia. }
  split.
  - intros sched tr s Hno Hrun.
    destruct (Hsafe sched tr s Hno Hrun) as [Hprefix Hfull].
    split; [exact Hprefix|]. split; [exact Hfull|].
    intros Hci Hco. split.
    + intros Hstuck.
      destruct (no_reset_state encrypt cap_in cap_out mem_in mem_out file
                  sched tr s Hn Hm Hlin Hlout Hplain Hcipher Hci Hco
                  Hno Hrun) as (Hinv & Hlock & Hidle).
      pose proof (stuck_is_served encrypt cap_in cap_out file tr s
                    Hinv Hlock Hidle Hstuck) as Hserved.
      split; [exact Hserved|].
      apply Hfull. destruct Hserved as (_ & _ & HW). exact HW.
    + destruct (writer_is_served encrypt cap_in cap_out mem_in mem_out file
                  Hn Hm Hlin Hlout Hplain Hcipher Hci Hco
                  (36 * List.length file + 41) sched tr s Hno Hrun)
        as (more & tr' & s' & Hno' & Hmore & Hserved & Hlen); [lia|].
      exists more, tr', s'.
      split; [exact Hno'|]. split; [exact Hmore|].
      split; [exact Hserved|]. split; [|exact Hlen].
      assert (Hall : ~ In TReset (sched ++ more)).
      { intros H. apply in_app_or in H. destruct H; auto. }
      assert (Hboth : run encrypt (sched ++ more)
                        (initial cap_in cap_out mem_in mem_out file)
                      = Some (tr ++ tr', s')).
      { rewrite run_app, Hrun. simpl. rewrite Hmore. reflexivity. }
      apply (Hsafe _ _ _ Hall Hboth).
      destruct Hserved as (_ & _ & HW). exact HW.
  - destruct (rounds_complete encrypt cap_in cap_out file Hn Hm Hplain
                Hcipher (List.length file) _ 0
                (initial_at_rest cap_in cap_out file mem_in mem_out) Hinit)
      as (tr & s & Hrun & Hall); [lia|].
    exists tr, s. split; [exact Hrun|]. split; [exact Hall|].
    apply (Hsafe _ _ _ (rounds_no_reset _) Hrun).
    destruct Hall as (_ & _ & _ & _ & HW). exact HW.
Qed.

Lemma writer_emits_the_cipher_in_order_example :
  exists tr s,
    (1 <= 2 /\ 1 <= 2
     /\ Z.of_nat (List.length [0; 0]) = 2
     /\ Z.of_nat (List.length [0; 0]) = 2
     /\ Forall (fun c => c <> EOF) (plain [72; 105])
     /\ Forall (fun c => c <> EOF) (cipher (caesar 1) [72; 105])
     /\ ~ In TReset (item_round_encryptor_first ++ rounds 1)
     /\ run (caesar 1) (item_round_encryptor_first ++ rounds 1)
          (initial 2 2 [0; 0] [0; 0] [72; 105]) = Some (tr, s)
     /\ cells_clean 2 [0; 0] /\ cells_clean 2 [0; 0]
     /\ (forall t, t <> TReset -> step (caesar 1) t s = None))
    /\ (exists j, sink s = firstn j (cipher (caesar 1) [72; 105]))
    /\ (writer_served s /\ sink s = cipher (caesar 1) [72; 105])
    /\ (exists more tr' s',
          ~ In TReset more
          /\ run (caesar 1) more s = Some (tr', s')
          /\ writer_served s' /\ sink s' = cipher (caesar 1) [72; 105]
          /\ (List.length (item_round_encryptor_first ++ rounds 1)
              + List.length more
              <= 36 * List.length [72; 105] + 41)%nat)
    /\ (exists tr s,
          run (caesar 1) (rounds (List.length [72; 105]))
            (initial 2 2 [0; 0] [0; 0] [72; 105]) = Some (tr, s)
          /\ all_returned s /\ sink s = cipher (caesar 1) [72; 105]).
Proof.
  assert (Hr : exists tr s,
             run (caesar 1) (item_round_encryptor_first ++ rounds 1)
               (initial 2 2 [0; 0] [0; 0] [72; 105]) = Some (tr, s)
             /\ forall t, t <> TReset -> step (caesar 1) t s = None).
  { do 2 eexists. split; [vm_compute; reflexivity|].
    intros t Ht. destruct t; try reflexivity. congruence. }
  destruct Hr as (tr & s & Hrun & Hstuck).
  assert (H1 : 1 <= 2) by lia.
  assert (H3 : Z.of_nat (List.length [0; 0]) = 2) by reflexivity.
  assert (H5 : Forall (fun c => c <> EOF) (plain [72; 105]))
    by (repeat constructor; discriminate).
  assert (H6 : Forall (fun c => c <> EOF) (cipher (caesar 1) [72; 105]))
    by (repeat constructor; discriminate).
  assert (H7 : ~ In TReset (item_round_encryptor_first ++ rounds 1)).
  { intros H. apply in_app_or in H. destruct H as [H|H].
    - cbv [item_round_encryptor_first repeat app In] in H.
      repeat (destruct H as [H|H]; [discriminate H|]). exact H.
    - exact (rounds_no_reset 1 H). }
  assert (H8 : cells_clean 2 [0; 0])
    by (right; repeat constructor; discriminate).
  destruct (writer_emits_the_cipher_in_order (caesar 1) 2 2 [0; 0] [0; 0]
              [72; 105] H1 H1 H3 H3 H5 H6) as [Hevery Hrounds].
  destruct (Hevery _ tr s H7 Hrun) as (Hprefix & _ & Hlive).
  destruct (Hlive H8 H8) as [Hend Hmore].
  exists tr, s. split; [auto 20|].
  split; [exact Hprefix|]. split; [exact (Hend Hstuck)|].
  split; [exact Hmore|exact Hrounds].
Defined.

(** With two input cells of which the fresh second one holds the byte 255,
    and the input "ABC": when the encryptor retires the cell of 'A' before
    the input counter loads, the counter loads the fresh cell, takes it for
    the end of the stream and returns.  The reader then waits for
    [counter_done] on 'B' for good, holding the mutex; 'C' is never read,
    the writer waits with "BC" in the sink, and no thread can step. *)
Lemma stale_cell_strands_the_writer :
  exists tr s,
    run (caesar 1) (item_round_encryptor_first ++ item_round_counter_gone)
      (initial 2 1 [0; -1] [0] [65; 66; 67]) = Some (tr, s)
    /\ stuck (caesar 1) s
    /\ pc_counter s = C_return
    /\ pc_reader s = R_wait_counter /\ reader_lock s = true
    /\ pc_writer s = W_wait
    /\ source s = [67]
    /\ sink s = [66; 67]
    /\ cipher (caesar 1) [65; 66; 67] = [66; 67; 68]
    /\ counted_inputs tr = [].
Proof.
  do 2 eexists. split; [vm_compute; reflexivity|].
  split; [intros t; destruct t; reflexivity|].
  repeat split.
Qed.
